(** * Sequential Bayesian updating on a grid

    A shallow embedding of the numerical cells of
    [10_bayes/prior_posterior_distribution_example.ipynb]: the pointwise
    product of a prior with a likelihood, its renormalisation by the
    trapezoidal integral, the chain of four such updates, and the summary
    statistics read off the final posterior (mean, median, 2.5% and 97.5%
    points, probability above a threshold), together with the grid
    [np.linspace(0, 10, 1000)] they are evaluated on and the uniform prior
    of the notebook's last cell.

    The notebook computes on one-dimensional numpy arrays of float64.  The
    array operations are written once, over an interface [Arith] of scalar
    arithmetic, and read twice:
    - at [float64], the kernel's binary64 numbers, which round as numpy does;
    - at [exact], the canonical rationals [Qc], the arithmetic without
      rounding in which the algebraic laws are proved.
    What holds of the shapes, the indices and the order of the operations
    is proved for every arithmetic.  For the normalisation, the rounding of
    float64 is followed operation by operation, from the bit-level
    specification of the kernel's numbers. *)

From Stdlib Require Import List Sorted Permutation Arith Bool ZArith QArith Qcanon.
From Stdlib Require Import Qpower Morphisms Setoid Lia Lqa.
From Stdlib Require Import PrimFloat Uint63 SpecFloat FloatOps FloatAxioms.
Import ListNotations.
Close Scope Q_scope.
Close Scope Qc_scope.
Local Open Scope nat_scope.

(** ** Outcomes of a Python expression *)

Module Py.

(** The two exceptions the numerical cells can raise: numpy's refusal to
    broadcast two shapes, and an index past the end of an array. *)
Inductive exn : Set :=
| ValueError
| IndexError.

Inductive result (A : Type) : Type :=
| Ok (a : A)
| Raise (e : exn).

Arguments Ok {A} a.
Arguments Raise {A} e.

Definition bind {A B : Type} (r : result A) (k : A -> result B) : result B :=
  match r with
  | Ok a => k a
  | Raise e => Raise e
  end.

(** Warnings issued by the notebook's own code.  (numpy's RuntimeWarning on
    a floating-point status flag is not a warning of this kind.) *)
Inductive warning : Set :=
| ThresholdOutOfRangeWarning.

End Py.

Import Py.

Declare Scope py_scope.
Delimit Scope py_scope with py.
Notation "x <- c ;; k" := (bind c (fun x => k))
  (at level 61, c at next level, right associativity) : py_scope.
Local Open Scope py_scope.

(** ** Scalar arithmetic *)

(** What the arrays' element type provides.  [less] is the order
    [np.searchsorted] compares with; [of_nat] converts a count or an
    integer literal. *)
Class Arith (num : Type) : Type := {
  zero : num;
  add : num -> num -> num;
  sub : num -> num -> num;
  mul : num -> num -> num;
  div : num -> num -> num;
  less : num -> num -> bool;
  of_nat : nat -> num
}.

(** ** The numpy operations the notebook calls *)

Section Numpy.

Context {num : Type} `{Arith num}.

(** A decimal literal [n/d], such as [0.025 = 25/1000]: the correctly
    rounded quotient is the literal's value. *)
Definition lit (n d : nat) : num := div (of_nat n) (of_nat d).

Fixpoint map2 (f : num -> num -> num) (a b : list num) : list num :=
  match a, b with
  | x :: a', y :: b' => f x y :: map2 f a' b'
  | _, _ => []
  end.

(** [a op b] on one-dimensional arrays: elementwise on equal lengths, an
    array of length one is stretched, any other pair of shapes raises. *)
Definition broadcast (f : num -> num -> num) (a b : list num)
  : result (list num) :=
  if length a =? length b then Ok (map2 f a b)
  else match a, b with
       | [x], _ => Ok (map (f x) b)
       | _, [y] => Ok (map (fun v => f v y) a)
       | _, _ => Raise ValueError
       end.

(** [a * h] and [a /= c] with a scalar on the right. *)
Definition scale (a : list num) (h : num) : list num :=
  map (fun v => mul v h) a.

Definition idiv (a : list num) (c : num) : list num :=
  map (fun v => div v c) a.

(** [np.diff(a)] is [a[1:] - a[:-1]]. *)
Definition np_diff (a : list num) : list num :=
  map2 sub (tl a) (removelast a).

(** [np.sum] is [np.add.reduce], which on a contiguous array of [n] floats
    is numpy's pairwise summation (the reduction adds it to its own
    initial value, a zero):
    - [n < 8]: [res = 0.; for i in range(n): res += a[i]];
    - [n <= 128]: eight running sums [r[j] = a[j]], each taking every
      eighth number, [r[j] += a[i + j]] for [i = 8, 16, ...] while
      [i < n - n % 8]; then
      [res = ((r[0] + r[1]) + (r[2] + r[3])) + ((r[4] + r[5]) + (r[6] + r[7]))],
      and the numbers left over are added to [res] one by one;
    - otherwise the two parts at [n2 = n / 2; n2 -= n2 % 8] are summed
      in the same way, and the two sums are added. *)
Definition sum8 (r : list num) : num :=
  match r with
  | [r0; r1; r2; r3; r4; r5; r6; r7] =>
      add (add (add r0 r1) (add r2 r3)) (add (add r4 r5) (add r6 r7))
  | _ => zero
  end.

Fixpoint unrolled (blocks : nat) (r a : list num) : list num * list num :=
  match blocks with
  | O => (r, a)
  | S blocks' => unrolled blocks' (map2 add r (firstn 8 a)) (skipn 8 a)
  end.

Definition pairwise_block (a : list num) : num :=
  let (r, rest) := unrolled (length a / 8 - 1) (firstn 8 a) (skipn 8 a) in
  fold_left add rest (sum8 r).

(** The array is halved at every turn, so [length a] turns are enough. *)
Fixpoint pairwise_sum (fuel : nat) (a : list num) : num :=
  let n := length a in
  if n <? 8 then fold_left add a zero
  else if n <=? 128 then pairwise_block a
  else match fuel with
       | O => fold_left add a zero
       | S fuel' =>
           let n2 := n / 2 - (n / 2) mod 8 in
           add (pairwise_sum fuel' (firstn n2 a))
               (pairwise_sum fuel' (skipn n2 a))
       end.

Definition np_sum (a : list num) : num := pairwise_sum (length a) a.

(** [np.mean(a)] is [np.sum(a) / len(a)]. *)
Definition np_mean (a : list num) : num :=
  div (np_sum a) (of_nat (length a)).

(** [np.trapezoid(y, x)] is
    [(diff(x) * (y[1:] + y[:-1]) / 2.0).sum()]. *)
Definition np_trapezoid (y x : list num) : result num :=
  let d := np_diff x in
  let s := map2 add (tl y) (removelast y) in
  t <- broadcast mul d s ;;
  Ok (np_sum (idiv t (of_nat 2))).

(** [np.cumsum(a)]: [out[0] = a[0]], [out[i] = out[i-1] + a[i]]. *)
Fixpoint cumsum_from (acc : num) (a : list num) : list num :=
  match a with
  | [] => []
  | v :: a' => let acc' := add acc v in acc' :: cumsum_from acc' a'
  end.

Definition np_cumsum (a : list num) : list num :=
  match a with
  | [] => []
  | v :: a' => v :: cumsum_from v a'
  end.

(** [np.searchsorted(a, v)] (side ['left']) is a bisection:
    [while lo < hi: mid = lo + (hi - lo) // 2;
     if a[mid] < v: lo = mid + 1 else: hi = mid].
    The interval halves at every turn, so [length a] turns are enough. *)
Fixpoint bisect (fuel lo hi : nat) (a : list num) (v : num) : nat :=
  match fuel with
  | O => lo
  | S fuel' =>
      if lo <? hi then
        let mid := lo + (hi - lo) / 2 in
        if less (nth mid a zero) v
        then bisect fuel' (mid + 1) hi a v
        else bisect fuel' lo mid a v
      else lo
  end.

Definition np_searchsorted (a : list num) (v : num) : nat :=
  bisect (length a) 0 (length a) a v.

(** [a[i]] for an index [i >= 0]. *)
Definition getitem (a : list num) (i : nat) : result num :=
  match nth_error a i with
  | Some v => Ok v
  | None => Raise IndexError
  end.

End Numpy.

(** ** The notebook's cells *)

Section Notebook.

Context {num : Type} `{Arith num}.

(** [p /= np.trapezoid(p, ecs_values)]: every value is divided by the
    trapezoidal integral.  There is no test on the integral. *)
Definition normalize (density grid : list num) : result (list num) :=
  c <- np_trapezoid density grid ;;
  Ok (idiv density c).

(** [p = current * likelihood; p /= np.trapezoid(p, ecs_values)]. *)
Definition update (current likelihood grid : list num) : result (list num) :=
  p <- broadcast mul current likelihood ;;
  normalize p grid.

(** The area under the product, [np.trapezoid(current * likelihood,
    ecs_values)]: the number [update] divides by. *)
Definition evidence (current likelihood grid : list num) : result num :=
  p <- broadcast mul current likelihood ;;
  np_trapezoid p grid.

(** The four updates of the notebook, in its order: volcanic cooling, Last
    Glacial Maximum, model ensemble, Maunder Minimum.  The chain starts
    from [prior_pdf] as it was evaluated; the prior is not normalised. *)
Definition posterior_1 (prior_pdf volcanic_pdf ecs_values : list num) :=
  update prior_pdf volcanic_pdf ecs_values.

Definition posterior_2 (prior_pdf volcanic_pdf lgm_pdf ecs_values : list num) :=
  p1 <- posterior_1 prior_pdf volcanic_pdf ecs_values ;;
  update p1 lgm_pdf ecs_values.

Definition posterior_3
  (prior_pdf volcanic_pdf lgm_pdf ensemble_pdf ecs_values : list num) :=
  p2 <- posterior_2 prior_pdf volcanic_pdf lgm_pdf ecs_values ;;
  update p2 ensemble_pdf ecs_values.

Definition final_posterior
  (prior_pdf volcanic_pdf lgm_pdf ensemble_pdf maunder_pdf ecs_values : list num) :=
  p3 <- posterior_3 prior_pdf volcanic_pdf lgm_pdf ensemble_pdf ecs_values ;;
  update p3 maunder_pdf ecs_values.

(** The same chain for any list of likelihoods: each posterior is the
    update of the one before it, and each is kept. *)
Fixpoint posteriors (current : list num) (likelihoods : list (list num))
  (grid : list num) : result (list (list num)) :=
  match likelihoods with
  | [] => Ok []
  | l :: ls =>
      p <- update current l grid ;;
      ps <- posteriors p ls grid ;;
      Ok (p :: ps)
  end.

(** [np.sum(ecs_values * final_posterior) * np.diff(ecs_values).mean()]. *)
Definition mean (density grid : list num) : result num :=
  p <- broadcast mul grid density ;;
  Ok (mul (np_sum p) (np_mean (np_diff grid))).

(** [np.cumsum(final_posterior) * np.diff(ecs_values).mean()]. *)
Definition cumulative (density grid : list num) : list num :=
  scale (np_cumsum density) (np_mean (np_diff grid)).

(** [ecs_values[np.searchsorted(cumulative, q)]]. *)
Definition quantile (density grid : list num) (q : num) : result num :=
  getitem grid (np_searchsorted (cumulative density grid) q).

Definition median (density grid : list num) : result num :=
  quantile density grid (lit 1 2).

Definition lower_25 (density grid : list num) : result num :=
  quantile density grid (lit 25 1000).

Definition upper_975 (density grid : list num) : result num :=
  quantile density grid (lit 975 1000).

(** The two tail points, looked up in the notebook's order. *)
Definition credibleInterval (density grid : list num) (lowerTail upperTail : num)
  : result (num * num) :=
  lo <- quantile density grid lowerTail ;;
  hi <- quantile density grid upperTail ;;
  Ok (lo, hi).

(** [threshold_index = np.searchsorted(ecs_values, 4.5)]. *)
Definition threshold_index (grid : list num) (threshold : num) : nat :=
  np_searchsorted grid threshold.

(** [np.trapezoid(final_posterior[threshold_index:],
                  ecs_values[threshold_index:])]. *)
Definition probability_gt (density grid : list num) (threshold : num)
  : result num :=
  let k := threshold_index grid threshold in
  np_trapezoid (skipn k density) (skipn k grid).

Definition probability_ecs_gt_4_5 (density grid : list num) : result num :=
  probability_gt density grid (lit 45 10).

(** The cell's whole outcome: the probability, and the warnings its code
    issued.  The cell calls [np.searchsorted] and [np.trapezoid] and
    nothing else, so it issues none. *)
Definition tailProbability (density grid : list num) (threshold : num)
  : result (num * list warning) :=
  p <- probability_gt density grid threshold ;;
  Ok (p, []).

End Notebook.

(** ** The two arithmetics *)

(** Rationals without rounding.  Division by zero yields zero here, as [Qc]
    defines it, where float64 yields NaN or an infinity: the laws proved
    below at this arithmetic assume that what they divide by is not zero,
    the integral a density is normalised by and the number of cells of the
    grid (a grid of at least two points). *)
#[export] Instance exact : Arith Qc := {|
  zero := Q2Qc 0;
  add := Qcplus;
  sub := Qcminus;
  mul := Qcmult;
  div := Qcdiv;
  less := fun x y => match Qccompare x y with Lt => true | _ => false end;
  of_nat := fun n => Q2Qc (inject_Z (Z.of_nat n))
|}.

(** IEEE 754 binary64, round to nearest even: numpy's float64.  [less] is
    the order numpy sorts and searches with, in which NaN comes last:
    [a < b || (b != b && a == a)]. *)
#[export] Instance float64 : Arith float := {|
  zero := 0%float;
  add := PrimFloat.add;
  sub := PrimFloat.sub;
  mul := PrimFloat.mul;
  div := PrimFloat.div;
  less := fun a b =>
    PrimFloat.ltb a b || (negb (PrimFloat.eqb b b) && PrimFloat.eqb a a);
  of_nat := fun n => PrimFloat.of_uint63 (Uint63.of_Z (Z.of_nat n))
|}.

(** ** The operation [run] of the specification *)

(** Modelled from the spec: [run], which the notebook does not define.  The
    specification normalises the prior first, folds [update] over the
    likelihoods, and for an empty list returns the normalised prior alone. *)
Definition run_spec {num : Type} `{Arith num}
  (prior : list num) (likelihoods : list (list num)) (grid : list num)
  : result (list (list num)) :=
  p0 <- normalize prior grid ;;
  match likelihoods with
  | [] => Ok [p0]
  | _ :: _ => posteriors p0 likelihoods grid
  end.


(** Predicates on the exact arrays: a density is non-negative, a grid is
    strictly increasing. *)
Definition nonneg (a : list Qc) : Prop := Forall (fun v => Qcle (Q2Qc 0) v) a.

Definition increasing (g : list Qc) : Prop := StronglySorted Qclt g.

(** The specification's tolerance, [|x - 1| <= 1e-6], on float64. *)
Definition within_tolerance (x : float) : bool :=
  PrimFloat.leb (PrimFloat.abs (PrimFloat.sub x 1)) (lit 1 (1000 * 1000)).

(** Test arrays of exact rationals. *)
Definition exact_array (a : list Q) : list Qc := map Q2Qc a.

(** The trapezoidal rule written out cell by cell, in exact arithmetic. *)
Fixpoint trapezoid_sum (y x : list Qc) : Qc :=
  match y, x with
  | a :: y', p :: x' =>
      match y', x' with
      | b :: _, q :: _ =>
          Qcplus (Qcdiv (Qcmult (Qcminus q p) (Qcplus b a)) (of_nat 2))
                 (trapezoid_sum y' x')
      | _, _ => Q2Qc 0
      end
  | _, _ => Q2Qc 0
  end.

(** The area of the cell between the grid points [j] and [j+1] under the
    trapezoidal rule, [(x[j+1] - x[j]) * (y[j+1] + y[j]) / 2], in the
    arrays' own arithmetic. *)
Definition trapezoid_cell {num : Type} `{Arith num} (y x : list num) (j : nat)
  : num :=
  div (mul (sub (nth (S j) x zero) (nth j x zero))
           (add (nth (S j) y zero) (nth j y zero)))
      (of_nat 2).

(** ** The grid and the uniform prior *)

(** The test [a == b] of the element type. *)
Class Equal (num : Type) : Type := {
  equal : num -> num -> bool
}.

#[export] Instance exact_equal : Equal Qc := {| equal := Qc_eq_bool |}.

#[export] Instance float64_equal : Equal float := {| equal := PrimFloat.eqb |}.

Section GridAndPrior.

Context {num : Type} `{Arith num} `{Equal num}.

(** [np.arange(0, n)] in the arrays' element type. *)
Definition np_arange (n : nat) : list num := map of_nat (seq 0 n).

(** [y[-1] = stop]. *)
Definition set_last (y : list num) (stop : num) : list num :=
  match y with
  | [] => []
  | _ :: _ => removelast y ++ [stop]
  end.

(** [np.linspace(start, stop, n)] (with the end point):
    [div = n - 1; delta = stop - start; y = arange(0, n)];
    when [div > 0], [step = delta / div] and [y = y * step], or
    [y = (y / div) * delta] if the step is zero; otherwise [y = y * delta];
    then [y += start], and [y[-1] = stop] when [n > 1]. *)
Definition np_linspace (start stop : num) (n : nat) : list num :=
  let d := n - 1 in
  let delta := sub stop start in
  let y := np_arange n in
  let y :=
    if 0 <? d then
      let step := div delta (of_nat d) in
      if equal step zero then scale (idiv y (of_nat d)) delta
      else scale y step
    else scale y delta in
  let y := map (fun v => add v start) y in
  if 1 <? n then set_last y stop else y.

(** [ecs_values = np.linspace(0, 10, 1000)]. *)
Definition ecs_values : list num := np_linspace (of_nat 0) (of_nat 10) 1000.

(** [a[-1]]. *)
Definition getitem_last (a : list num) : result num :=
  match a with
  | [] => Raise IndexError
  | _ :: _ => Ok (last a zero)
  end.

(** [uniform_density = 1 / (ecs_values[-1] - ecs_values[0])]. *)
Definition uniform_density (grid : list num) : result num :=
  hi <- getitem_last grid ;;
  lo <- getitem grid 0 ;;
  Ok (div (of_nat 1) (sub hi lo)).

(** [uniform_prior_pdf = np.full_like(ecs_values, uniform_density)]. *)
Definition uniform_prior_pdf (grid : list num) : result (list num) :=
  u <- uniform_density grid ;;
  Ok (repeat u (length grid)).

(** The product of a density with every likelihood of a list, taken in the
    list's order and never renormalised. *)
Fixpoint joint (current : list num) (likelihoods : list (list num)) : list num :=
  match likelihoods with
  | [] => current
  | l :: ls => joint (map2 mul current l) ls
  end.

End GridAndPrior.

(** A chain in which every likelihood has the grid's length and no product
    has a zero integral. *)
Fixpoint nondegenerate (current : list Qc) (likelihoods : list (list Qc))
  (grid : list Qc) : Prop :=
  match likelihoods with
  | [] => True
  | l :: ls =>
      length l = length grid /\
      evidence current l grid <> Ok (Q2Qc 0) /\
      nondegenerate (map2 mul current l) ls grid
  end.

(** A grid whose consecutive points are all [h] apart. *)
Definition evenly_spaced (grid : list Qc) (h : Qc) : Prop :=
  np_diff grid = repeat h (length grid - 1).

(** An exact array that never decreases. *)
Definition nondecreasing (a : list Qc) : Prop :=
  forall i j, i <= j -> j < length a ->
              Qcle (nth i a (Q2Qc 0)) (nth j a (Q2Qc 0)).

(** ** Float64 numbers as rationals *)

(** The sums a summation can return: [sums k l s] says that [s] adds the
    elements of [l], each taken once, in some order and some bracketing,
    with at most [k] additions. *)
Inductive sums {num : Type} `{Arith num} : nat -> list num -> num -> Prop :=
| sums_nil : sums 0 [] zero
| sums_one v : sums 0 [v] v
| sums_add j k l1 l2 s1 s2 :
    sums j l1 s1 -> sums k l2 s2 -> sums (S (j + k)) (l1 ++ l2) (add s1 s2)
| sums_perm k l l' s : Permutation l l' -> sums k l s -> sums k l' s
| sums_le j k l s : j <= k -> sums j l s -> sums k l s.

Section Float64Values.

Local Open Scope Z_scope.
Local Open Scope Q_scope.

(** [m * 2^e] as a rational. *)
Definition zq (m e : Z) : Q := inject_Z m * 2 ^ e.

(** The rational a float64 stands for, read off its sign, mantissa and
    exponent; zero for a NaN or an infinity. *)
Definition SF2Q (x : spec_float) : Q :=
  match x with
  | S754_finite s m e => if s then - zq (Zpos m) e else zq (Zpos m) e
  | _ => 0
  end.

Definition float_value (f : float) : Q := SF2Q (Prim2SF f).

(** A non-negative mantissa and an exponent as a float64. *)
Definition SFres (m e : Z) : spec_float :=
  match m with
  | Zpos p => S754_finite false p e
  | _ => S754_zero false
  end.

(** Finite, and finite and not negative. *)
Definition SFfinite (x : spec_float) : Prop :=
  match x with
  | S754_zero _ | S754_finite _ _ _ => True
  | _ => False
  end.

Definition SFnonneg (x : spec_float) : Prop :=
  match x with
  | S754_zero _ => True
  | S754_finite s _ _ => s = false
  | _ => False
  end.

Definition finite_float (f : float) : Prop := SFfinite (Prim2SF f).

Definition regular (f : float) : Prop := SFnonneg (Prim2SF f).

(** The relative error of one rounding is at most [eps64]; where the
    result is below the normal range, the absolute error is at most
    [eta64], the smallest positive float64. *)
Definition eps64 : Q := 2 ^ (-52).
Definition eta64 : Q := 2 ^ (-1074).

(** [lo_pow k] is [(1 - eps64)^k]. *)
Fixpoint lo_pow (k : nat) : Q :=
  match k with
  | O => 1
  | S k => (1 - eps64) * lo_pow k
  end.

(** [v] approximates the non-negative [x] within [k] roundings and an
    absolute slack [a]. *)
Definition approximates (k : nat) (a v x : Q) : Prop :=
  0 <= x /\ 0 <= a /\ 0 <= v /\
  x * lo_pow k - a <= v /\ v * lo_pow k <= x + a.

Fixpoint Qsum (l : list Q) : Q :=
  match l with
  | [] => 0
  | v :: l => v + Qsum l
  end.

(** The exact area of the cell [j], for grid points [X] and densities
    [Y]. *)
Definition cell_exact (X Y : nat -> Q) (j : nat) : Q :=
  (X (S j) - X j) * (Y (S j) + Y j) / 2.

End Float64Values.

(** * Properties that hold in every arithmetic *)

Section Generic.

Context {num : Type} `{Arith num}.

Lemma map2_length (f : num -> num -> num) (a b : list num) :
  length (map2 f a b) = Nat.min (length a) (length b).
Proof.
  revert b; induction a as [|x a IH]; intros [|y b]; simpl; auto.
Qed.

Lemma removelast_length (a : list num) :
  length (removelast a) = length a - 1.
Proof.
  induction a as [|x [|y a] IH]; simpl in *; auto; lia.
Qed.

Lemma tl_length (a : list num) : length (tl a) = length a - 1.
Proof. destruct a; simpl; lia. Qed.

Lemma np_diff_length (a : list num) : length (np_diff a) = length a - 1.
Proof.
  unfold np_diff. rewrite map2_length, tl_length, removelast_length. lia.
Qed.

Lemma pair_sums_length (y : list num) :
  length (map2 add (tl y) (removelast y)) = length y - 1.
Proof. rewrite map2_length, tl_length, removelast_length. lia. Qed.

Lemma broadcast_same_length (f : num -> num -> num) (a b : list num) :
  length a = length b -> broadcast f a b = Ok (map2 f a b).
Proof.
  intros E. unfold broadcast. rewrite E, Nat.eqb_refl. reflexivity.
Qed.

(** On arrays of one length the trapezoidal rule always returns. *)
Lemma np_trapezoid_same_length (y x : list num) :
  length y = length x ->
  np_trapezoid y x =
    Ok (np_sum (idiv (map2 mul (np_diff x) (map2 add (tl y) (removelast y)))
                     (of_nat 2))).
Proof.
  intros E. unfold np_trapezoid.
  rewrite broadcast_same_length; [reflexivity|].
  rewrite np_diff_length, pair_sums_length. lia.
Qed.

(** A broadcast fails on shapes only, and only with [ValueError]. *)
Lemma broadcast_raise (f : num -> num -> num) (a b : list num) (e : exn) :
  broadcast f a b = Raise e -> e = ValueError /\ length a <> length b.
Proof.
  unfold broadcast. destruct (length a =? length b) eqn:E; [discriminate|].
  apply Nat.eqb_neq in E.
  destruct a as [|x [|x' a]], b as [|y [|y' b]]; try discriminate;
    intros [= <-]; auto.
Qed.

Lemma np_trapezoid_raise (y x : list num) (e : exn) :
  np_trapezoid y x = Raise e -> e = ValueError /\ length y <> length x.
Proof.
  unfold np_trapezoid.
  destruct (broadcast mul _ _) as [t|e'] eqn:B; simpl; [discriminate|].
  intros [= <-]. apply broadcast_raise in B as [-> N]. split; [reflexivity|].
  rewrite np_diff_length, pair_sums_length in N. lia.
Qed.

(** *** Arrays under a map *)

Lemma tl_map (g : num -> num) (a : list num) : tl (map g a) = map g (tl a).
Proof. now destruct a. Qed.

Lemma removelast_map (g : num -> num) (a : list num) :
  removelast (map g a) = map g (removelast a).
Proof.
  induction a as [|x [|y a] IH]; simpl in *; auto. now rewrite IH.
Qed.

Lemma map2_map_both (f : num -> num -> num) (g : num -> num) :
  (forall u w, f (g u) (g w) = g (f u w)) ->
  forall a b, map2 f (map g a) (map g b) = map g (map2 f a b).
Proof.
  intros E. induction a as [|x a IH]; intros [|y b]; simpl; auto.
  now rewrite E, IH.
Qed.

Lemma map2_map_r (f : num -> num -> num) (g : num -> num) :
  (forall u w, f u (g w) = g (f u w)) ->
  forall a b, map2 f a (map g b) = map g (map2 f a b).
Proof.
  intros E. induction a as [|x a IH]; intros [|y b]; simpl; auto.
  now rewrite E, IH.
Qed.

Lemma map2_map_l (f : num -> num -> num) (g : num -> num) :
  (forall u w, f (g u) w = g (f u w)) ->
  forall a b, map2 f (map g a) b = map g (map2 f a b).
Proof.
  intros E. induction a as [|x a IH]; intros [|y b]; simpl; auto.
  now rewrite E, IH.
Qed.

Lemma broadcast_map_r (f : num -> num -> num) (g : num -> num) (a b : list num) :
  (forall u w, f u (g w) = g (f u w)) ->
  broadcast f a (map g b) = (t <- broadcast f a b ;; Ok (map g t)).
Proof.
  intros E. unfold broadcast. rewrite length_map.
  destruct (length a =? length b); simpl.
  - now rewrite map2_map_r.
  - destruct a as [|x [|x' a]], b as [|y [|y' b]]; simpl; trivial;
      rewrite ?map_map;
      repeat match goal with
             | |- Ok _ = Ok _ => f_equal
             | |- _ :: _ = _ :: _ => f_equal
             | |- map _ _ = map _ _ => apply map_ext; intros
             end; rewrite ?E; trivial.
Qed.

Lemma broadcast_map_l (f : num -> num -> num) (g : num -> num) (a b : list num) :
  (forall u w, f (g u) w = g (f u w)) ->
  broadcast f (map g a) b = (t <- broadcast f a b ;; Ok (map g t)).
Proof.
  intros E. unfold broadcast. rewrite length_map.
  destruct (length a =? length b); simpl.
  - now rewrite map2_map_l.
  - destruct a as [|x [|x' a]], b as [|y [|y' b]]; simpl; trivial;
      rewrite ?map_map;
      repeat match goal with
             | |- Ok _ = Ok _ => f_equal
             | |- _ :: _ = _ :: _ => f_equal
             | |- map _ _ = map _ _ => apply map_ext; intros
             end; rewrite ?E; trivial.
Qed.

(** *** Bisection *)

(** When the array splits at [k] into values below [v] and values not
    below [v], the bisection of any interval around [k] ends on [k]. *)
Lemma bisect_partition (a : list num) (v : num) (k : nat) :
  (forall i, i < k -> less (nth i a zero) v = true) ->
  (forall i, k <= i -> i < length a -> less (nth i a zero) v = false) ->
  forall fuel lo hi,
    lo <= k -> k <= hi -> hi <= length a -> hi - lo <= fuel ->
    bisect fuel lo hi a v = k.
Proof.
  intros Hlow Hhigh. induction fuel as [|fuel IH]; intros lo hi L1 L2 L3 L4.
  - simpl. lia.
  - cbn [bisect]. destruct (lo <? hi) eqn:C.
    + apply Nat.ltb_lt in C.
      pose proof (Nat.div_lt (hi - lo) 2) as M.
      set (mid := lo + (hi - lo) / 2) in *.
      assert (lo <= mid < hi) as [M1 M2] by (subst mid; lia).
      destruct (less (nth mid a zero) v) eqn:T.
      * apply IH; try lia.
        destruct (Nat.le_gt_cases k mid) as [G|G]; [|lia].
        rewrite Hhigh in T; [discriminate|lia|lia].
      * apply IH; try lia.
        destruct (Nat.le_gt_cases k mid) as [G|G]; [lia|].
        rewrite Hlow in T; [discriminate|lia].
    + apply Nat.ltb_ge in C. lia.
Qed.

Lemma np_searchsorted_partition (a : list num) (v : num) (k : nat) :
  k <= length a ->
  (forall i, i < k -> less (nth i a zero) v = true) ->
  (forall i, k <= i -> i < length a -> less (nth i a zero) v = false) ->
  np_searchsorted a v = k.
Proof.
  intros K Hlow Hhigh. unfold np_searchsorted.
  apply bisect_partition; auto; lia.
Qed.

Lemma np_searchsorted_le (a : list num) (v : num) :
  np_searchsorted a v <= length a.
Proof.
  unfold np_searchsorted.
  enough (G : forall fuel lo hi, lo <= hi -> bisect fuel lo hi a v <= hi)
    by (apply G; lia).
  induction fuel as [|fuel IH]; intros lo hi L; cbn [bisect]; [lia|].
  destruct (lo <? hi) eqn:C; [|lia].
  apply Nat.ltb_lt in C.
  pose proof (Nat.div_lt (hi - lo) 2) as M.
  set (mid := lo + (hi - lo) / 2) in *.
  assert (lo <= mid < hi) as [M1 M2] by (subst mid; lia).
  destruct (less _ v).
  - apply IH. lia.
  - etransitivity; [apply IH|]; lia.
Qed.

Lemma np_searchsorted_all_less (a : list num) (v : num) :
  Forall (fun c => less c v = true) a -> np_searchsorted a v = length a.
Proof.
  intros F. apply np_searchsorted_partition; [lia| |intros; lia].
  intros i Hi. rewrite Forall_forall in F. apply F. now apply nth_In.
Qed.

Lemma np_searchsorted_none_less (a : list num) (v : num) :
  Forall (fun c => less c v = false) a -> np_searchsorted a v = 0.
Proof.
  intros F. apply np_searchsorted_partition; [lia|intros; lia|].
  intros i _ Hi. rewrite Forall_forall in F. apply F. now apply nth_In.
Qed.

(** *** Shapes of the summary statistics *)

Lemma cumsum_from_length (a : list num) :
  forall acc, length (cumsum_from acc a) = length a.
Proof. induction a as [|v a IH]; intros acc; simpl; auto. Qed.

Lemma np_cumsum_length (a : list num) : length (np_cumsum a) = length a.
Proof. destruct a; simpl; [|rewrite cumsum_from_length]; reflexivity. Qed.

Lemma cumulative_length (density grid : list num) :
  length (cumulative density grid) = length density.
Proof.
  unfold cumulative, scale. now rewrite length_map, np_cumsum_length.
Qed.

Lemma getitem_past_end (a : list num) (i : nat) :
  length a <= i -> getitem a i = Raise IndexError.
Proof.
  intros L. unfold getitem.
  apply nth_error_None in L. now rewrite L.
Qed.

(** *** The quantile lookup *)

Lemma quantile_raise (density grid : list num) (q : num) (e : exn) :
  quantile density grid q = Raise e -> e = IndexError.
Proof.
  unfold quantile, getitem. destruct (nth_error _ _); [discriminate|].
  now intros [= <-].
Qed.

(** C9.  When no entry of the scaled cumulative sum reaches the level [q],
    the bisection returns the length of the grid, and the lookup
    [ecs_values[...]] is past the end: the quantile raises [IndexError]
    and returns no grid point, not even the last one.  So does the
    credible interval whose upper tail is never reached. *)
Theorem quantile_never_reached (density grid : list num) (q : num) :
  length density = length grid ->
  Forall (fun c => less c q = true) (cumulative density grid) ->
  np_searchsorted (cumulative density grid) q = length grid /\
  quantile density grid q = Raise IndexError /\
  (forall lowerTail,
      credibleInterval density grid lowerTail q = Raise IndexError).
Proof.
  intros L F.
  assert (K : np_searchsorted (cumulative density grid) q = length grid).
  { rewrite np_searchsorted_all_less by assumption.
    now rewrite cumulative_length. }
  assert (Q : quantile density grid q = Raise IndexError).
  { unfold quantile. rewrite K. now apply getitem_past_end. }
  repeat split; trivial.
  intros lowerTail. unfold credibleInterval.
  destruct (quantile density grid lowerTail) as [lo|e] eqn:E; simpl.
  - now rewrite Q.
  - now apply quantile_raise in E as ->.
Qed.

Lemma median_never_reached (density grid : list num) :
  length density = length grid ->
  Forall (fun c => less c (lit 1 2) = true) (cumulative density grid) ->
  median density grid = Raise IndexError.
Proof.
  intros L F. unfold median, quantile.
  rewrite np_searchsorted_all_less by assumption.
  apply getitem_past_end. rewrite cumulative_length. lia.
Qed.

(** *** Normalisation has no guard *)

Lemma normalize_same_length (density grid : list num) :
  length density = length grid ->
  exists c, np_trapezoid density grid = Ok c /\
            normalize density grid = Ok (idiv density c).
Proof.
  intros L. unfold normalize.
  rewrite (np_trapezoid_same_length _ _ L). eexists. split; reflexivity.
Qed.

(** C5 (as the code has it).  [normalize] makes no test on the integral:
    on a density and a grid of one length it returns the density divided
    by the integral, whatever that integral is; it raises only numpy's
    [ValueError], and only when the two lengths differ. *)
Theorem normalize_has_no_guard (density grid : list num) :
  (length density = length grid ->
   exists c, np_trapezoid density grid = Ok c /\
             normalize density grid = Ok (idiv density c)) /\
  (forall e, normalize density grid = Raise e ->
             e = ValueError /\ length density <> length grid).
Proof.
  split.
  - apply normalize_same_length.
  - intros e. unfold normalize.
    destruct (np_trapezoid density grid) as [c|e'] eqn:T; simpl;
      [discriminate|].
    intros [= <-]. now apply np_trapezoid_raise in T.
Qed.

(** *** The probability above a threshold *)

(** The integral starts at the split point of the grid. *)
Lemma probability_gt_from (density grid : list num) (threshold : num) (k : nat) :
  k <= length grid ->
  (forall i, i < k -> less (nth i grid zero) threshold = true) ->
  (forall i, k <= i -> i < length grid ->
             less (nth i grid zero) threshold = false) ->
  threshold_index grid threshold = k /\
  probability_gt density grid threshold =
    np_trapezoid (skipn k density) (skipn k grid).
Proof.
  intros K Hlow Hhigh.
  assert (E : threshold_index grid threshold = k)
    by now apply np_searchsorted_partition.
  split; [exact E|]. unfold probability_gt. now rewrite E.
Qed.

Lemma np_trapezoid_nil : np_trapezoid (@nil num) (@nil num) = Ok zero.
Proof. reflexivity. Qed.

(** A threshold that no grid point lies below: the integral is taken over
    the whole grid. *)
Lemma tail_total (density grid : list num) (t total : num) :
  np_trapezoid density grid = Ok total ->
  Forall (fun g => less g t = false) grid ->
  tailProbability density grid t = Ok (total, []).
Proof.
  intros N F. unfold tailProbability, probability_gt, threshold_index.
  rewrite np_searchsorted_none_less by assumption.
  cbn [skipn]. now rewrite N.
Qed.

(** A threshold that every grid point lies below: nothing is left to
    integrate. *)
Lemma tail_zero (density grid : list num) (t : num) :
  length density = length grid ->
  Forall (fun g => less g t = true) grid ->
  tailProbability density grid t = Ok (zero, []).
Proof.
  intros L F. unfold tailProbability, probability_gt, threshold_index.
  rewrite np_searchsorted_all_less by assumption.
  rewrite skipn_all. rewrite <- L, skipn_all. reflexivity.
Qed.

(** C6 (as the code has it).  For a density of the grid's length, a
    threshold that no grid point lies below gives the whole trapezoidal
    integral, which is 1 for a normalised density, and a threshold that
    every grid point lies below gives 0; in both cases the cell issues no
    warning.  This holds in every arithmetic. *)
Theorem tail_probability_out_of_range (density grid : list num) (t total : num) :
  length density = length grid ->
  np_trapezoid density grid = Ok total ->
  (Forall (fun g => less g t = false) grid ->
   tailProbability density grid t = Ok (total, [])) /\
  (Forall (fun g => less g t = true) grid ->
   tailProbability density grid t = Ok (zero, [])).
Proof.
  intros L N. split.
  - now apply tail_total.
  - now apply tail_zero.
Qed.

(** *** The trapezoidal rule, cell by cell *)



Lemma trapezoid_cell_tail (u p : num) (y x : list num) (j : nat) :
  trapezoid_cell (u :: y) (p :: x) (S j) = trapezoid_cell y x j.
Proof. reflexivity. Qed.


(** On arrays of one length, the products that [np.trapezoid] sums are the
    areas of the cells, in the grid's order. *)
Lemma trapezoid_cells (y : list num) :
  forall x, length y = length x ->
    idiv (map2 mul (np_diff x) (map2 add (tl y) (removelast y))) (of_nat 2)
    = map (trapezoid_cell y x) (seq 0 (length x - 1)).
Proof.
  induction y as [|u y IH]; intros [|p x] L; try discriminate; [reflexivity|].
  destruct y as [|w y], x as [|q x]; try discriminate; [reflexivity|].
  specialize (IH (q :: x) ltac:(simpl in *; lia)).
  change (np_diff (p :: q :: x)) with (sub q p :: np_diff (q :: x)).
  change (tl (u :: w :: y)) with (w :: tl (w :: y)).
  change (removelast (u :: w :: y)) with (u :: removelast (w :: y)).
  cbn [map2 idiv map]. fold (idiv (map2 mul (np_diff (q :: x))
                                     (map2 add (tl (w :: y)) (removelast (w :: y))))
                                  (of_nat 2)).
  rewrite IH.
  replace (length (p :: q :: x) - 1) with (S (length (q :: x) - 1))
    by (simpl; lia).
  cbn [seq map]. f_equal.
  rewrite <- seq_shift, map_map. apply map_ext. intros j.
  symmetry. apply trapezoid_cell_tail.
Qed.

Lemma np_trapezoid_cells (y x : list num) :
  length y = length x ->
  np_trapezoid y x
  = Ok (np_sum (map (trapezoid_cell y x) (seq 0 (length x - 1)))).
Proof.
  intros L. rewrite (np_trapezoid_same_length _ _ L).
  now rewrite trapezoid_cells.
Qed.


(** *** The chain of updates *)

(** The chain returns exactly the lists in which every posterior is the
    update of the one before it, the prior standing before the first. *)
Lemma posteriors_chain (likelihoods : list (list num)) (grid : list num) :
  forall current ps,
    posteriors current likelihoods grid = Ok ps <->
    length ps = length likelihoods /\
    forall k, k < length likelihoods ->
      update (nth k (current :: ps) []) (nth k likelihoods []) grid
      = Ok (nth k ps []).
Proof.
  induction likelihoods as [|l ls IH]; intros current ps.
  - cbn [posteriors]. split.
    + intros [= <-]. split; [reflexivity|]. intros k Hk. simpl in Hk. lia.
    + intros [Lp _]. destruct ps; [reflexivity|discriminate].
  - cbn [posteriors]. split.
    + destruct (update current l grid) as [p|e] eqn:U; cbn [bind]; [|discriminate].
      destruct (posteriors p ls grid) as [ps'|e] eqn:P; cbn [bind]; [|discriminate].
      intros [= <-]. apply IH in P as [Lp C]. split; [simpl; now rewrite Lp|].
      intros [|k] Hk; [exact U|]. simpl in Hk. apply C. lia.
    + intros [Lp C]. destruct ps as [|p ps']; [discriminate|].
      pose proof (C 0 ltac:(simpl; lia)) as U. cbn [nth] in U.
      rewrite U. cbn [bind].
      assert (P : posteriors p ls grid = Ok ps').
      { apply IH. split; [simpl in Lp; lia|].
        intros k Hk. apply (C (S k)). simpl. lia. }
      now rewrite P.
Qed.

(** The chain keeps one posterior per likelihood. *)
Lemma posteriors_length (likelihoods : list (list num)) (grid : list num) :
  forall current ps,
    posteriors current likelihoods grid = Ok ps ->
    length ps = length likelihoods.
Proof.
  induction likelihoods as [|l ls IH]; intros current ps; simpl.
  - now intros [= <-].
  - destruct (update current l grid) as [p|e]; simpl; [|discriminate].
    destruct (posteriors p ls grid) as [ps'|e] eqn:E; simpl; [|discriminate].
    intros [= <-]. simpl. f_equal. eauto.
Qed.

(** The notebook's four cells are the chain on four likelihoods. *)
Lemma posteriors_notebook (prior v l e m grid : list num) :
  posteriors prior [v; l; e; m] grid =
    (p1 <- posterior_1 prior v grid ;;
     p2 <- posterior_2 prior v l grid ;;
     p3 <- posterior_3 prior v l e grid ;;
     p4 <- final_posterior prior v l e m grid ;;
     Ok [p1; p2; p3; p4]).
Proof.
  unfold final_posterior, posterior_3, posterior_2, posterior_1. simpl.
  destruct (update prior v grid) as [p1|]; simpl; [|reflexivity].
  destruct (update p1 l grid) as [p2|]; simpl; [|reflexivity].
  destruct (update p2 e grid) as [p3|]; simpl; [|reflexivity].
  destruct (update p3 m grid) as [p4|]; simpl; reflexivity.
Qed.

(** *** Shapes that numpy accepts *)

Lemma broadcast_ok_iff (f : num -> num -> num) (a b : list num) :
  (exists r, broadcast f a b = Ok r) <->
  (length a = length b \/ length a = 1 \/ length b = 1).
Proof.
  unfold broadcast. destruct (length a =? length b) eqn:E.
  - apply Nat.eqb_eq in E. split; [auto|eauto].
  - apply Nat.eqb_neq in E.
    destruct a as [|x [|x' a]], b as [|y [|y' b]]; simpl in *;
      split; intros G; eauto;
      try (destruct G as [r G]; discriminate G);
      try (destruct G as [G|[G|G]]; try discriminate G; now elim E).
Qed.

(** X1.  [np.trapezoid(y, x)] returns exactly when the differences of [x]
    and the pair sums of [y] broadcast: when the two arrays have the same
    number of cells, or one of them has two points.  In every other case it
    raises [ValueError].  So [normalize] accepts a density of any length on
    a two-point grid. *)
Theorem np_trapezoid_accepts (y x : list num) :
  ((exists c, np_trapezoid y x = Ok c) <->
   (length x - 1 = length y - 1 \/ length x = 2 \/ length y = 2)) /\
  ((exists p, normalize y x = Ok p) <-> (exists c, np_trapezoid y x = Ok c)) /\
  (forall e, np_trapezoid y x = Raise e -> e = ValueError).
Proof.
  repeat split.
  - intros [c T]. unfold np_trapezoid in T.
    destruct (broadcast mul _ _) as [t|e] eqn:B; [|discriminate].
    assert (G : exists r, broadcast mul (np_diff x)
                            (map2 add (tl y) (removelast y)) = Ok r) by eauto.
    apply broadcast_ok_iff in G.
    rewrite np_diff_length, pair_sums_length in G. lia.
  - intros G. unfold np_trapezoid.
    destruct (proj2 (broadcast_ok_iff mul (np_diff x)
                       (map2 add (tl y) (removelast y)))) as [r B].
    { rewrite np_diff_length, pair_sums_length. lia. }
    rewrite B. simpl. eauto.
  - intros [p N]. unfold normalize in N.
    destruct (np_trapezoid y x) as [c|e]; [eauto|discriminate].
  - intros [c T]. unfold normalize. rewrite T. simpl. eauto.
  - intros e T. now apply np_trapezoid_raise in T.
Qed.

(** X2.  On a density and a grid of one length the probability above a
    threshold is always returned: whatever the threshold and whether or
    not the grid is sorted, the bisection stays within the arrays and the
    two slices keep one length. *)
Theorem probability_gt_returns (density grid : list num) (threshold : num) :
  length density = length grid ->
  threshold_index grid threshold <= length grid /\
  exists p, probability_gt density grid threshold = Ok p /\
            tailProbability density grid threshold = Ok (p, []).
Proof.
  intros L. split; [apply np_searchsorted_le|].
  unfold tailProbability, probability_gt.
  rewrite np_trapezoid_same_length by (rewrite !length_skipn; lia).
  eexists. split; reflexivity.
Qed.

(** *** Shapes along the chain *)

Lemma update_same_shape (current likelihood grid : list num) :
  length current = length grid -> length likelihood = length grid ->
  exists p, update current likelihood grid = Ok p /\ length p = length grid.
Proof.
  intros Lc Ll. unfold update.
  rewrite broadcast_same_length by lia. cbn [bind].
  destruct (normalize_same_length (map2 mul current likelihood) grid)
    as (c & _ & N); [rewrite map2_length; lia|].
  rewrite N. eexists. split; [reflexivity|].
  unfold idiv. rewrite length_map, map2_length. lia.
Qed.

(** X19.  In every arithmetic, a chain of updates on a prior and
    likelihoods that all have the grid's length always returns: it raises
    nothing, whatever the values and the integrals, and each of its
    posteriors, one per likelihood, has the grid's length again. *)
Theorem chain_returns_on_shapes
  (current : list num) (likelihoods : list (list num)) (grid : list num) :
  length current = length grid ->
  Forall (fun l => length l = length grid) likelihoods ->
  exists ps,
    posteriors current likelihoods grid = Ok ps /\
    length ps = length likelihoods /\
    Forall (fun p => length p = length grid) ps.
Proof.
  intros Lc F. revert current Lc.
  induction F as [|l ls Ll F IH]; intros current Lc.
  - exists []. repeat split. constructor.
  - destruct (update_same_shape current l grid Lc Ll) as (p & U & Lp).
    destruct (IH p Lp) as (ps & P & Lps & Fps).
    exists (p :: ps). cbn [posteriors]. rewrite U. cbn [bind]. rewrite P.
    repeat split; [simpl; now rewrite Lps|now constructor].
Qed.

(** *** The order of the additions of [np.sum] *)

Lemma sums_fold (a : list num) :
  forall k l acc, sums k l acc ->
    sums (k + length a) (l ++ a) (fold_left add a acc).
Proof.
  induction a as [|v a IH]; intros k l acc HS; cbn [fold_left length].
  - rewrite app_nil_r, Nat.add_0_r. exact HS.
  - replace (l ++ v :: a) with ((l ++ [v]) ++ a) by now rewrite <- app_assoc.
    replace (k + S (length a)) with (S (k + 0) + length a) by lia.
    apply IH. apply sums_add; [exact HS|apply sums_one].
Qed.

(** Running sums, each over its own share of the numbers. *)
Local Abbreviation shares :=
  (Forall2 (fun (L : list num) (x : num) =>
              L <> [] /\ sums (length L - 1) L x)).

Lemma shares_step (Ls : list (list num)) (r : list num) :
  shares Ls r ->
  forall b, length b = length r ->
    exists Ls', shares Ls' (map2 add r b) /\
                Permutation (concat Ls') (concat Ls ++ b).
Proof.
  induction 1 as [|L x Ls r [Ne HS] Sh IH]; intros [|y b] Lb;
    try discriminate.
  - exists []. split; constructor.
  - destruct (IH b ltac:(simpl in Lb; lia)) as (Ls' & Sh' & P).
    exists ((L ++ [y]) :: Ls'). split.
    + constructor; [|exact Sh']. split; [now destruct L|].
      assert (1 <= length L) by (destruct L; [congruence|simpl; lia]).
      apply (sums_le (S (length L - 1 + 0)));
        [rewrite length_app; simpl; lia|].
      apply sums_add; [exact HS|apply sums_one].
    + cbn [concat]. rewrite <- !app_assoc. apply Permutation_app_head.
      cbn [app]. rewrite P. apply Permutation_middle.
Qed.

Lemma shares_unrolled (blocks : nat) :
  forall Ls r rest,
    shares Ls r -> length r = 8 -> 8 * blocks <= length rest ->
    exists Ls',
      shares Ls' (fst (unrolled blocks r rest)) /\
      length (fst (unrolled blocks r rest)) = 8 /\
      Permutation (concat Ls' ++ snd (unrolled blocks r rest))
                  (concat Ls ++ rest).
Proof.
  induction blocks as [|blocks IH]; intros Ls r rest Sh Lr Lrest;
    cbn [unrolled].
  - exists Ls. repeat split; trivial.
  - assert (Lb : length (firstn 8 rest) = 8)
      by (rewrite length_firstn; lia).
    destruct (shares_step Ls r Sh (firstn 8 rest) ltac:(lia))
      as (Ls1 & Sh1 & P1).
    destruct (IH Ls1 (map2 add r (firstn 8 rest)) (skipn 8 rest) Sh1)
      as (Ls' & Sh' & Lr' & P').
    { rewrite map2_length. lia. }
    { rewrite length_skipn. lia. }
    exists Ls'. repeat split; trivial.
    rewrite P', P1, <- app_assoc, firstn_skipn. reflexivity.
Qed.

Lemma sums_sum8 (Ls : list (list num)) (r : list num) :
  shares Ls r -> length r = 8 ->
  1 <= length (concat Ls) /\
  sums (length (concat Ls) - 1) (concat Ls) (sum8 r).
Proof.
  intros Sh Lr.
  destruct r as [|r0 [|r1 [|r2 [|r3 [|r4 [|r5 [|r6 [|r7 [|r8 r]]]]]]]]];
    try discriminate.
  repeat match goal with
         | Sh : Forall2 _ _ (_ :: _) |- _ => inversion Sh; subst; clear Sh
         | Sh : Forall2 _ _ [] |- _ => inversion Sh; subst; clear Sh
         | Sh : _ /\ _ |- _ => destruct Sh
         end.
  cbn [concat sum8]. rewrite app_nil_r.
  repeat match goal with
         | N : ?L <> [] |- _ =>
             assert (1 <= length L) by (destruct L; [congruence|simpl; lia]);
             clear N
         end.
  rewrite !length_app. split; [lia|].
  match goal with
  | |- sums _ (?a ++ ?b ++ ?c ++ ?d ++ ?e ++ ?f ++ ?g ++ ?h) _ =>
      replace (a ++ b ++ c ++ d ++ e ++ f ++ g ++ h)
        with (((a ++ b) ++ (c ++ d)) ++ ((e ++ f) ++ (g ++ h)))
        by now rewrite <- !app_assoc
  end.
  eapply sums_le; [|repeat apply sums_add; eassumption]. lia.
Qed.

Lemma concat_singletons (a : list num) : concat (map (fun x => [x]) a) = a.
Proof. induction a as [|x a IH]; simpl; congruence. Qed.

Lemma pairwise_block_sums (a : list num) :
  8 <= length a -> sums (length a - 1) a (pairwise_block a).
Proof.
  intros N. unfold pairwise_block.
  set (blocks := length a / 8 - 1).
  assert (Sh : shares (map (fun x => [x]) (firstn 8 a)) (firstn 8 a)).
  { induction (firstn 8 a) as [|x l IH]; constructor; trivial.
    split; [discriminate|apply sums_one]. }
  destruct (shares_unrolled blocks _ _ (skipn 8 a) Sh) as (Ls & Sh' & Lr & P).
  { rewrite length_firstn. lia. }
  { rewrite length_skipn. subst blocks.
    pose proof (Nat.Div0.mul_div_le (length a) 8). lia. }
  destruct (unrolled blocks (firstn 8 a) (skipn 8 a)) as [r rest].
  cbn [fst snd] in *.
  rewrite concat_singletons, firstn_skipn in P.
  destruct (sums_sum8 Ls r Sh' Lr) as [C HS].
  pose proof (Permutation_length P) as Lp. rewrite length_app in Lp.
  apply (sums_perm _ _ _ _ P).
  eapply sums_le; [|apply sums_fold, HS]. lia.
Qed.

Lemma pairwise_sum_sums (fuel : nat) :
  forall a, sums (2 * length a - 1) a (pairwise_sum fuel a).
Proof.
  assert (F : forall a, sums (2 * length a - 1) a (fold_left add a zero)).
  { intros a. eapply sums_le; [|apply (sums_fold a 0 [] zero), sums_nil]. lia. }
  induction fuel as [|fuel IH]; intros a; cbn [pairwise_sum];
    destruct (length a <? 8) eqn:C8; trivial;
    destruct (length a <=? 128) eqn:C128; trivial;
    apply Nat.ltb_ge in C8.
  - eapply sums_le; [|now apply pairwise_block_sums]. lia.
  - eapply sums_le; [|now apply pairwise_block_sums]. lia.
  - apply Nat.leb_gt in C128.
    set (n2 := length a / 2 - (length a / 2) mod 8).
    assert (B : 1 <= n2 < length a).
    { subst n2. pose proof (Nat.mod_upper_bound (length a / 2) 8).
      pose proof (Nat.Div0.mul_div_le (length a) 2).
      pose proof (Nat.mul_succ_div_gt (length a) 2). lia. }
    rewrite <- (firstn_skipn n2 a) at 2.
    eapply sums_le; [|apply sums_add; apply IH].
    rewrite length_firstn, length_skipn. lia.
Qed.

Lemma np_sum_sums (a : list num) : sums (2 * length a - 1) a (np_sum a).
Proof. apply pairwise_sum_sums. Qed.

End Generic.

(** * The grid in every arithmetic *)

Section GenericGrid.

Context {num : Type} `{Arith num} `{Equal num}.

Lemma np_arange_length (n : nat) : length (np_arange n) = n.
Proof. unfold np_arange. now rewrite length_map, length_seq. Qed.

Lemma set_last_length (y : list num) (stop : num) :
  length (set_last y stop) = length y.
Proof.
  destruct y as [|v y]; [reflexivity|]. unfold set_last.
  rewrite length_app, removelast_length. simpl. lia.
Qed.

Lemma set_last_last (y : list num) (stop : num) :
  y <> [] -> getitem_last (set_last y stop) = Ok stop.
Proof.
  destruct y as [|v y]; [congruence|]. intros _. unfold set_last, getitem_last.
  destruct (removelast (v :: y) ++ [stop]) eqn:E.
  - now destruct (removelast (v :: y)).
  - rewrite <- E. now rewrite last_last.
Qed.

(** X3.  [np.linspace(start, stop, n)] has [n] points, and from two points
    on its last point is [stop] itself, whatever the rounding of the
    steps. *)
Theorem np_linspace_shape (start stop : num) (n : nat) :
  length (np_linspace start stop n) = n /\
  (2 <= n -> getitem_last (np_linspace start stop n) = Ok stop).
Proof.
  unfold np_linspace.
  set (y := map _ _).
  assert (L : length y = n).
  { subst y. rewrite length_map.
    destruct (0 <? n - 1); [destruct (equal _ zero)|];
      unfold scale, idiv; now rewrite ?length_map, np_arange_length. }
  split.
  - destruct (1 <? n); [rewrite set_last_length|]; exact L.
  - intros N. assert ((1 <? n) = true) as -> by (apply Nat.ltb_lt; lia).
    apply set_last_last. intros ->. simpl in L. lia.
Qed.

End GenericGrid.

(** * Properties that hold in exact arithmetic *)

Section Exact.

Local Open Scope Qc_scope.

Implicit Types (y x d a b l : list Qc) (c v : Qc).

Ltac arith := cbn [add sub mul div zero of_nat exact] in *.

(** Whatever the order of the additions, the exact sum is the sum. *)
Lemma sums_exact (k : nat) l v : sums k l v -> v = fold_right Qcplus 0 l.
Proof.
  induction 1 as [|w|j k l1 l2 s1 s2 S1 IH1 S2 IH2|k l l' s P HS IH
                 |j k l s JK HS IH].
  - reflexivity.
  - cbn [fold_right]. ring.
  - arith. rewrite IH1, IH2. clear.
    induction l1 as [|w l1 IH]; cbn [fold_right app]; [ring|].
    rewrite <- IH. ring.
  - rewrite IH. clear - P.
    induction P as [|w l l' P IH|w w' l|l l' l'' P IH P' IH'];
      cbn [fold_right]; try congruence; ring.
  - exact IH.
Qed.

Lemma np_sum_cons v l : np_sum (v :: l) = v + np_sum l.
Proof.
  rewrite (sums_exact _ _ _ (np_sum_sums (v :: l))).
  rewrite (sums_exact _ _ _ (np_sum_sums l)). reflexivity.
Qed.

Lemma np_sum_nil : np_sum (@nil Qc) = 0.
Proof. reflexivity. Qed.

Lemma np_sum_idiv l c : np_sum (idiv l c) = np_sum l / c.
Proof.
  induction l as [|v l IH].
  - simpl. rewrite np_sum_nil. unfold Qcdiv. ring.
  - simpl. rewrite !np_sum_cons, IH. arith. unfold Qcdiv. ring.
Qed.

(** *** Scaling a density *)

Lemma idiv_idiv_swap l c c' : idiv (idiv l c) c' = idiv (idiv l c') c.
Proof.
  unfold idiv. rewrite !map_map. apply map_ext. intros v. arith.
  unfold Qcdiv. ring.
Qed.

(** The trapezoidal rule is linear: dividing the density divides the
    integral. *)
Lemma np_trapezoid_idiv y x c :
  np_trapezoid (idiv y c) x = (t <- np_trapezoid y x ;; Ok (t / c)).
Proof.
  unfold np_trapezoid.
  change (idiv y c) with (map (fun v => div v c) y).
  rewrite tl_map, removelast_map.
  rewrite (map2_map_both add (fun v => div v c))
    by (intros; arith; unfold Qcdiv; ring).
  rewrite (broadcast_map_r mul (fun v => div v c))
    by (intros; arith; unfold Qcdiv; ring).
  destruct (broadcast mul _ _) as [t|e]; cbn [bind]; [|reflexivity].
  f_equal. change (map (fun v => div v c) t) with (idiv t c).
  now rewrite idiv_idiv_swap, np_sum_idiv.
Qed.

Lemma idiv_scaled l c t : c <> 0 -> idiv (idiv l c) (t / c) = idiv l t.
Proof.
  intros C. unfold idiv. rewrite map_map. apply map_ext. intros v. arith.
  destruct (Qc_eq_dec t 0) as [->|T].
  - unfold Qcdiv. rewrite Qcmult_0_l.
    change (/ 0) with 0. ring.
  - field. auto.
Qed.

(** Normalisation forgets a constant factor of its argument. *)
Lemma normalize_idiv y x c : c <> 0 -> normalize (idiv y c) x = normalize y x.
Proof.
  intros C. unfold normalize. rewrite np_trapezoid_idiv.
  destruct (np_trapezoid y x) as [t|e]; cbn [bind]; [|reflexivity].
  now rewrite idiv_scaled.
Qed.

Lemma update_idiv a b x c : c <> 0 -> update (idiv a c) b x = update a b x.
Proof.
  intros C. unfold update.
  change (idiv a c) with (map (fun v => div v c) a).
  rewrite (broadcast_map_l mul (fun v => div v c))
    by (intros; arith; unfold Qcdiv; ring).
  destruct (broadcast mul a b) as [p|e]; cbn [bind]; [|reflexivity].
  now apply normalize_idiv.
Qed.

Lemma idiv_one l : idiv l 1 = l.
Proof.
  unfold idiv. rewrite <- (map_id l) at 2. apply map_ext. intros v. arith.
  unfold Qcdiv. change (/ 1) with 1. ring.
Qed.

(** What a successful normalisation returned. *)
Lemma normalize_ok y x p :
  normalize y x = Ok p ->
  exists c, np_trapezoid y x = Ok c /\ p = idiv y c.
Proof.
  unfold normalize. destruct (np_trapezoid y x) as [c|e]; cbn [bind]; [|discriminate].
  intros [= <-]. now exists c.
Qed.

Lemma normalize_integral y x p :
  normalize y x = Ok p -> np_trapezoid y x <> Ok 0 -> np_trapezoid p x = Ok 1.
Proof.
  intros N Z. apply normalize_ok in N as (c & T & ->).
  rewrite np_trapezoid_idiv, T. cbn [bind]. f_equal.
  apply Qcmult_inv_r. intros ->. now apply Z.
Qed.

(** *** Order *)

Lemma less_true v c : less v c = true <-> v < c.
Proof.
  change (less v c) with (match v ?= c with Lt => true | _ => false end).
  rewrite Qclt_alt.
  destruct (v ?= c); split; intros E; try reflexivity; discriminate E.
Qed.

Lemma less_false v c : less v c = false <-> c <= v.
Proof.
  rewrite <- not_true_iff_false, less_true.
  split; [apply Qcnot_lt_le | apply Qcle_not_lt].
Qed.

Ltac to_Q :=
  unfold Qcle, Qclt, Qcdiv, Qcminus, Qcplus, Qcmult, Qcopp, Qcinv in *;
  cbn [this Q2Qc] in *; rewrite ?Qred_correct in *.

Lemma Qc_add_nonneg v c : 0 <= v -> 0 <= c -> 0 <= v + c.
Proof. to_Q. lra. Qed.

Lemma Qc_mul_nonneg v c : 0 <= v -> 0 <= c -> 0 <= v * c.
Proof. to_Q. apply Qmult_le_0_compat. Qed.

Lemma Qc_inv_nonneg c : 0 <= c -> 0 <= / c.
Proof. to_Q. apply Qinv_le_0_compat. Qed.

Lemma Qc_div_nonneg v c : 0 <= v -> 0 <= c -> 0 <= v / c.
Proof.
  intros V C. unfold Qcdiv. apply Qc_mul_nonneg; [|apply Qc_inv_nonneg]; auto.
Qed.

Lemma Qc_sub_nonneg v c : v < c -> 0 <= c - v.
Proof. to_Q. lra. Qed.

Lemma Qc_of_nat_nonneg (n : nat) : 0 <= of_nat n.
Proof.
  arith. to_Q. change 0%Q with (inject_Z 0). rewrite <- Zle_Qle. lia.
Qed.

Lemma Qc_pos_of_nonneg c : 0 <= c -> c <> 0 -> 0 < c.
Proof.
  intros C N. destruct (Qcle_lt_or_eq _ _ C) as [L|E]; [exact L|].
  now elim N.
Qed.

(** *** The trapezoidal rule, cell by cell *)

Lemma np_trapezoid_closed y x :
  length y = length x -> np_trapezoid y x = Ok (trapezoid_sum y x).
Proof.
  intros L. rewrite (np_trapezoid_same_length _ _ L). f_equal.
  revert x L. induction y as [|u y IH]; intros [|p x] L; try discriminate.
  - reflexivity.
  - destruct y as [|w y], x as [|q x]; try discriminate.
    + reflexivity.
    + specialize (IH (q :: x) ltac:(simpl in *; lia)).
      change (trapezoid_sum (u :: w :: y) (p :: q :: x))
        with ((q - p) * (w + u) / of_nat 2 + trapezoid_sum (w :: y) (q :: x)).
      rewrite <- IH.
      change (np_diff (p :: q :: x)) with (sub q p :: np_diff (q :: x)).
      change (tl (u :: w :: y)) with (w :: tl (w :: y)).
      change (removelast (u :: w :: y)) with (u :: removelast (w :: y)).
      cbn [map2 idiv map]. rewrite np_sum_cons. reflexivity.
Qed.

Lemma trapezoid_sum_nonneg y :
  nonneg y -> forall x, increasing x -> 0 <= trapezoid_sum y x.
Proof.
  induction 1 as [|u y U Y IH]; intros x X.
  - apply Qcle_refl.
  - destruct x as [|p x]; [apply Qcle_refl|].
    destruct y as [|w y], x as [|q x]; try apply Qcle_refl.
    change (trapezoid_sum (u :: w :: y) (p :: q :: x))
      with ((q - p) * (w + u) / of_nat 2 + trapezoid_sum (w :: y) (q :: x)).
    apply StronglySorted_inv in X as [X P].
    apply Forall_inv in P. apply Forall_inv in Y as W.
    apply Qc_add_nonneg; [|now apply IH].
    apply Qc_div_nonneg; [|apply Qc_of_nat_nonneg].
    apply Qc_mul_nonneg; [now apply Qc_sub_nonneg|now apply Qc_add_nonneg].
Qed.

Lemma idiv_nonneg l c : nonneg l -> 0 <= c -> nonneg (idiv l c).
Proof.
  intros L C. unfold nonneg, idiv. rewrite Forall_map.
  eapply Forall_impl; [|exact L]. intros v V. now apply Qc_div_nonneg.
Qed.

Lemma map2_mul_nonneg a : nonneg a -> forall b, nonneg b -> nonneg (map2 mul a b).
Proof.
  induction 1 as [|u a U A IH]; intros b B; [constructor|].
  destruct B as [|w b W B]; constructor; [now apply Qc_mul_nonneg|].
  now apply IH.
Qed.

(** *** One update *)

Lemma update_same_length a b x :
  length a = length b -> length a = length x ->
  evidence a b x = Ok (trapezoid_sum (map2 mul a b) x) /\
  update a b x =
    Ok (idiv (map2 mul a b) (trapezoid_sum (map2 mul a b) x)).
Proof.
  intros E1 E2. unfold evidence, update, normalize.
  rewrite broadcast_same_length by assumption. cbn [bind].
  rewrite np_trapezoid_closed by (rewrite map2_length; lia).
  split; reflexivity.
Qed.

Lemma Ok_neq (c c' : Qc) : Ok c <> Ok c' -> c <> c'.
Proof. intros N E. apply N. now rewrite E. Qed.

Lemma map2_mul_swap a b l :
  map2 mul (map2 mul a b) l = map2 mul (map2 mul a l) b.
Proof.
  revert b l. induction a as [|u a IH]; intros [|w b] [|z l];
    cbn [map2]; trivial.
  rewrite IH. f_equal. arith. ring.
Qed.

(** In exact arithmetic: for every density of the grid's length whose
    trapezoidal integral is not zero, [normalize] returns a density, and
    the trapezoidal integral of that density over the grid is exactly 1. *)
Lemma exact_unit_integral (density grid : list Qc) :
  length density = length grid ->
  np_trapezoid density grid <> Ok 0 ->
  exists p, normalize density grid = Ok p /\ np_trapezoid p grid = Ok 1.
Proof.
  intros L Z.
  destruct (normalize_same_length density grid L) as (c & T & N).
  exists (idiv density c). split; [exact N|].
  now apply (normalize_integral density).
Qed.

(** C8 (in exact arithmetic).  [normalize] is idempotent: for every density
    of the grid's length whose integral is not zero, normalising the
    normalised density returns it unchanged. *)
Theorem normalize_idempotent (density grid : list Qc) :
  length density = length grid ->
  np_trapezoid density grid <> Ok 0 ->
  exists p, normalize density grid = Ok p /\ normalize p grid = Ok p.
Proof.
  intros L Z.
  destruct (normalize_same_length density grid L) as (c & T & N).
  exists (idiv density c). split; [exact N|].
  unfold normalize at 1.
  rewrite (normalize_integral density grid _ N Z). cbn [bind].
  now rewrite idiv_one.
Qed.

(** C3 (in exact arithmetic).  For non-negative densities [a] and [b] of
    the length of a strictly increasing grid, whose product has a non-zero
    integral, [update] returns a density that is non-negative at every
    grid point and whose trapezoidal integral is exactly 1. *)
Theorem update_is_a_density (a b grid : list Qc) :
  nonneg a -> nonneg b -> increasing grid ->
  length a = length grid -> length b = length grid ->
  evidence a b grid <> Ok 0 ->
  exists p, update a b grid = Ok p /\ nonneg p /\ np_trapezoid p grid = Ok 1.
Proof.
  intros A B G La Lb Z.
  destruct (update_same_length a b grid) as [E U]; [lia|assumption|].
  set (x := map2 mul a b) in *. set (c := trapezoid_sum x grid) in *.
  assert (X : nonneg x) by now apply map2_mul_nonneg.
  assert (C : 0 < c).
  { apply Qc_pos_of_nonneg; [now apply trapezoid_sum_nonneg|].
    apply Ok_neq. now rewrite <- E. }
  exists (idiv x c). repeat split; [exact U| |].
  - apply idiv_nonneg; [exact X|now apply Qclt_le_weak].
  - unfold update in U. rewrite broadcast_same_length in U by lia.
    cbn [bind] in U. apply (normalize_integral _ _ _ U).
    unfold evidence in Z. rewrite broadcast_same_length in Z by lia.
    exact Z.
Qed.

(** C4 (in exact arithmetic).  The final posterior does not depend on the
    order of two likelihoods: when the products of the prior with each
    likelihood and with both have non-zero integrals, both orders return
    two posteriors, the last ones are equal, and their trapezoidal
    integral is exactly 1. *)
Theorem final_posterior_order_independent (prior l1 l2 grid : list Qc) :
  length prior = length grid ->
  length l1 = length grid -> length l2 = length grid ->
  evidence prior l1 grid <> Ok 0 ->
  evidence prior l2 grid <> Ok 0 ->
  evidence (map2 mul prior l1) l2 grid <> Ok 0 ->
  exists p1 p2 q,
    posteriors prior [l1; l2] grid = Ok [p1; q] /\
    posteriors prior [l2; l1] grid = Ok [p2; q] /\
    np_trapezoid q grid = Ok 1.
Proof.
  intros Lp L1 L2 Z1 Z2 Z12.
  destruct (update_same_length prior l1 grid) as [E1 U1]; [lia|assumption|].
  destruct (update_same_length prior l2 grid) as [E2 U2]; [lia|assumption|].
  set (x1 := map2 mul prior l1) in *. set (x2 := map2 mul prior l2) in *.
  assert (X1 : length x1 = length grid) by (subst x1; rewrite map2_length; lia).
  assert (X2 : length x2 = length grid) by (subst x2; rewrite map2_length; lia).
  destruct (update_same_length x1 l2 grid) as [E12 U12]; [lia|assumption|].
  destruct (update_same_length x2 l1 grid) as [_ U21]; [lia|assumption|].
  assert (S : map2 mul x2 l1 = map2 mul x1 l2)
    by (subst x1 x2; apply map2_mul_swap).
  rewrite S in U21.
  set (q := idiv (map2 mul x1 l2) (trapezoid_sum (map2 mul x1 l2) grid)) in *.
  exists (idiv x1 (trapezoid_sum x1 grid)), (idiv x2 (trapezoid_sum x2 grid)), q.
  repeat split.
  - cbn [posteriors]. rewrite U1. cbn [bind].
    rewrite update_idiv by (apply Ok_neq; now rewrite <- E1).
    now rewrite U12.
  - cbn [posteriors]. rewrite U2. cbn [bind].
    rewrite update_idiv by (apply Ok_neq; now rewrite <- E2).
    now rewrite U21.
  - unfold update in U12. rewrite broadcast_same_length in U12 by lia.
    cbn [bind] in U12. apply (normalize_integral _ _ _ U12).
    unfold evidence in Z12. rewrite broadcast_same_length in Z12 by lia.
    exact Z12.
Qed.

(** C2 (as the notebook runs).  In every arithmetic the chain is the fold
    of [update] over the likelihoods in their order, started from the
    prior as it is given: it returns a list exactly when that list has one
    posterior per likelihood and each posterior is the update of the one
    before it (of the prior, for the first) with the likelihood of its
    rank; on the notebook's four likelihoods these are [posterior_1],
    [posterior_2], [posterior_3] and [final_posterior].  In exact
    arithmetic, when the prior's integral is not zero, starting from the
    normalised prior gives the same posteriors: [run] of the specification
    agrees with the chain on every non-empty list, and for one likelihood
    the result is the single update of the normalised prior. *)
Theorem chain_from_normalized_prior :
  (forall (num : Type) (A : Arith num) (prior : list num)
          (likelihoods : list (list num)) (grid : list num)
          (ps : list (list num)),
      posteriors prior likelihoods grid = Ok ps <->
      length ps = length likelihoods /\
      forall k, (k < length likelihoods)%nat ->
        update (nth k (prior :: ps) []) (nth k likelihoods []) grid
        = Ok (nth k ps [])) /\
  (forall (num : Type) (A : Arith num) (prior v l e m grid : list num),
      posteriors prior [v; l; e; m] grid =
        (p1 <- posterior_1 prior v grid ;;
         p2 <- posterior_2 prior v l grid ;;
         p3 <- posterior_3 prior v l e grid ;;
         p4 <- final_posterior prior v l e m grid ;;
         Ok [p1; p2; p3; p4])) /\
  (forall (prior : list Qc) (likelihoods : list (list Qc)) (grid p0 : list Qc),
      normalize prior grid = Ok p0 ->
      np_trapezoid prior grid <> Ok 0 ->
      posteriors p0 likelihoods grid = posteriors prior likelihoods grid /\
      (likelihoods <> [] ->
       run_spec prior likelihoods grid = posteriors prior likelihoods grid) /\
      (forall l, posteriors prior [l] grid = (p <- update p0 l grid ;; Ok [p]))).
Proof.
  split; [|split].
  - intros num A prior likelihoods grid ps. apply posteriors_chain.
  - intros num A. apply posteriors_notebook.
  - intros prior likelihoods grid p0 N Z.
    destruct (normalize_ok _ _ _ N) as (c & T & ->).
    assert (C : c <> 0) by (intros ->; now apply Z).
    assert (P : forall ls, posteriors (idiv prior c) ls grid
                           = posteriors prior ls grid).
    { intros [|l ls]; [reflexivity|]. cbn [posteriors].
      now rewrite update_idiv. }
    repeat split.
    + apply P.
    + intros NE. unfold run_spec. rewrite N. cbn [bind].
      destruct likelihoods; [now elim NE|apply P].
    + intros l. cbn [posteriors]. rewrite update_idiv by assumption.
      now destruct (update prior l grid).
Qed.

(** *** Grids *)

Lemma increasing_nth (g : list Qc) :
  increasing g ->
  forall i j, (i < j)%nat -> (j < length g)%nat -> nth i g 0 < nth j g 0.
Proof.
  induction 1 as [|p g G IH P]; intros i j Lij Lj; [simpl in Lj; lia|].
  destruct j as [|j]; [lia|]. simpl in Lj.
  destruct i as [|i]; simpl.
  - rewrite Forall_forall in P. apply P, nth_In. lia.
  - apply IH; lia.
Qed.

Lemma increasing_nth_le (g : list Qc) :
  increasing g ->
  forall i j, (i <= j)%nat -> (j < length g)%nat -> nth i g 0 <= nth j g 0.
Proof.
  intros G i j Lij Lj. destruct (Nat.eq_dec i j) as [->|N].
  - apply Qcle_refl.
  - apply Qclt_le_weak, increasing_nth; auto; lia.
Qed.

Lemma np_diff_nonneg (g : list Qc) : increasing g -> nonneg (np_diff g).
Proof.
  induction 1 as [|p g G IH P]; [constructor|].
  destruct g as [|q g]; [constructor|].
  change (np_diff (p :: q :: g)) with (sub q p :: np_diff (q :: g)).
  constructor; [|exact IH].
  apply Forall_inv in P. now apply Qc_sub_nonneg.
Qed.

Lemma np_sum_nonneg l : nonneg l -> 0 <= np_sum l.
Proof.
  induction 1 as [|v l V L IH]; [apply Qcle_refl|].
  rewrite np_sum_cons. now apply Qc_add_nonneg.
Qed.

(** The average spacing of an increasing grid is not negative. *)
Lemma mean_spacing_nonneg (g : list Qc) :
  increasing g -> 0 <= np_mean (np_diff g).
Proof.
  intros G. unfold np_mean.
  apply Qc_div_nonneg; [|apply Qc_of_nat_nonneg].
  now apply np_sum_nonneg, np_diff_nonneg.
Qed.

(** *** The trapezoidal rule splits at a grid point *)

Lemma trapezoid_sum_nil_r y : trapezoid_sum y [] = 0.
Proof. now destruct y. Qed.

Lemma trapezoid_sum_one_r y p : trapezoid_sum y [p] = 0.
Proof. now destruct y as [|u [|w y]]. Qed.

Lemma trapezoid_sum_one_l u x : trapezoid_sum [u] x = 0.
Proof. now destruct x. Qed.

Lemma trapezoid_sum_split (k : nat) :
  forall y x,
    trapezoid_sum y x =
      trapezoid_sum (firstn (S k) y) (firstn (S k) x)
      + trapezoid_sum (skipn k y) (skipn k x).
Proof.
  induction k as [|k IH]; intros y x.
  - cbn [skipn]. destruct y as [|u y], x as [|p x].
    + cbn. ring.
    + cbn. ring.
    + rewrite trapezoid_sum_nil_r. cbn. ring.
    + cbn [firstn]. rewrite trapezoid_sum_one_l. ring.
  - destruct y as [|u y], x as [|p x].
    + cbn. ring.
    + cbn. ring.
    + rewrite firstn_nil, skipn_nil, !trapezoid_sum_nil_r. ring.
    + cbn [skipn]. specialize (IH y x).
      change (firstn (S (S k)) (u :: y)) with (u :: firstn (S k) y).
      change (firstn (S (S k)) (p :: x)) with (p :: firstn (S k) x).
      destruct y as [|w y].
      { rewrite firstn_nil, skipn_nil, !trapezoid_sum_one_l. cbn. ring. }
      destruct x as [|q x].
      { rewrite firstn_nil, skipn_nil, trapezoid_sum_nil_r,
          !trapezoid_sum_one_r. ring. }
      change (firstn (S k) (w :: y)) with (w :: firstn k y) in *.
      change (firstn (S k) (q :: x)) with (q :: firstn k x) in *.
      change (trapezoid_sum (u :: w :: y) (p :: q :: x))
        with ((q - p) * (w + u) / of_nat 2 + trapezoid_sum (w :: y) (q :: x)).
      change (trapezoid_sum (u :: w :: firstn k y) (p :: q :: firstn k x))
        with ((q - p) * (w + u) / of_nat 2
              + trapezoid_sum (w :: firstn k y) (q :: firstn k x)).
      rewrite IH. ring.
Qed.

(** *** The scaled cumulative sum *)

Lemma cumsum_from_mono l :
  nonneg l ->
  forall acc i j, (i <= j)%nat -> (j < length l)%nat ->
    acc <= nth i (cumsum_from acc l) 0 /\
    nth i (cumsum_from acc l) 0 <= nth j (cumsum_from acc l) 0.
Proof.
  induction 1 as [|v l V L IH]; intros acc i j Lij Lj; [simpl in Lj; lia|].
  cbn [cumsum_from]. simpl in Lj.
  assert (A : acc <= add acc v).
  { arith. clear -V. to_Q. lra. }
  destruct j as [|j].
  - replace i with O by lia. split; [exact A|apply Qcle_refl].
  - destruct i as [|i]; cbn [nth].
    + split; [exact A|]. now apply (IH (add acc v) j j); [lia|lia].
    + destruct (IH (add acc v) i j) as [B C]; [lia|lia|].
      split; [|exact C]. now apply Qcle_trans with (add acc v).
Qed.

Lemma np_cumsum_mono l :
  nonneg l ->
  forall i j, (i <= j)%nat -> (j < length l)%nat ->
    0 <= nth i (np_cumsum l) 0 /\
    nth i (np_cumsum l) 0 <= nth j (np_cumsum l) 0.
Proof.
  intros [|v l' V L] i j Lij Lj; [simpl in Lj; lia|].
  cbn [np_cumsum]. simpl in Lj.
  destruct j as [|j].
  - replace i with O by lia. split; [exact V|apply Qcle_refl].
  - destruct i as [|i]; cbn [nth].
    + split; [exact V|]. now apply (cumsum_from_mono l' L v j j); [lia|lia].
    + destruct (cumsum_from_mono l' L v i j) as [B C]; [lia|lia|].
      split; [|exact C]. now apply Qcle_trans with v.
Qed.

Lemma cumulative_nth density grid i :
  (i < length density)%nat ->
  nth i (cumulative density grid) 0
  = nth i (np_cumsum density) 0 * np_mean (np_diff grid).
Proof.
  intros L. unfold cumulative, scale.
  set (h := np_mean (np_diff grid)).
  rewrite (nth_indep _ 0 ((fun v => mul v h) 0))
    by now rewrite length_map, np_cumsum_length.
  now rewrite (map_nth (fun v => mul v h)).
Qed.

(** For a non-negative density on an increasing grid the scaled
    cumulative sum starts at or above zero and never decreases. *)
Lemma cumulative_mono density grid :
  nonneg density -> increasing grid ->
  forall i j, (i <= j)%nat -> (j < length density)%nat ->
    0 <= nth i (cumulative density grid) 0 /\
    nth i (cumulative density grid) 0 <= nth j (cumulative density grid) 0.
Proof.
  intros D G i j Lij Lj.
  rewrite !cumulative_nth by lia.
  pose proof (mean_spacing_nonneg grid G) as Hh.
  destruct (np_cumsum_mono density D i j Lij Lj) as [A B].
  split.
  - now apply Qc_mul_nonneg.
  - now apply Qcmult_le_compat_r.
Qed.

Lemma getitem_nth (g : list Qc) (k : nat) :
  (k < length g)%nat -> getitem g k = Ok (nth k g 0).
Proof.
  intros K. unfold getitem. now rewrite (nth_error_nth' g 0 K).
Qed.

Lemma nth_last (g : list Qc) : nth (length g - 1) g 0 = last g 0.
Proof.
  induction g as [|p [|q g] IH]; trivial.
  change (last (p :: q :: g) 0) with (last (q :: g) 0). rewrite <- IH.
  simpl. now rewrite Nat.sub_0_r.
Qed.


(** *** The probability above a threshold *)

(** The same for a normalised density in exact arithmetic: below the
    grid's minimum the probability is 1, above its maximum it is 0. *)
Lemma tail_probability_outside_grid (density grid : list Qc) (t : Qc) :
  length density = length grid ->
  np_trapezoid density grid = Ok 1 ->
  (Forall (fun g => t < g) grid ->
   tailProbability density grid t = Ok (1, [])) /\
  (Forall (fun g => g < t) grid ->
   tailProbability density grid t = Ok (0, [])).
Proof.
  intros L N. split; intros F.
  - apply (tail_total density grid t 1 N).
    eapply Forall_impl; [|exact F]. intros g Hg.
    now apply less_false, Qclt_le_weak.
  - change 0 with (zero (Arith := exact)). apply (tail_zero density grid t L).
    eapply Forall_impl; [|exact F]. intros g Hg. now apply less_true.
Qed.

(** In exact arithmetic the cells add up: on a strictly increasing grid,
    for a threshold strictly between the grid points [i] and [i+1], the
    whole integral is the integral up to the grid point [i+1] plus the
    probability above the threshold. *)
Lemma tail_probability_split
  (density grid : list Qc) (t : Qc) (i : nat) :
  increasing grid ->
  length density = length grid -> (S i < length grid)%nat ->
  nth i grid 0 < t -> t < nth (S i) grid 0 ->
  threshold_index grid t = S i /\
  probability_gt density grid t
    = np_trapezoid (skipn (S i) density) (skipn (S i) grid) /\
  exists below above,
    np_trapezoid (firstn (S (S i)) density) (firstn (S (S i)) grid) = Ok below /\
    probability_gt density grid t = Ok above /\
    np_trapezoid density grid = Ok (below + above).
Proof.
  intros G L I Lo Hi.
  destruct (probability_gt_from density grid t (S i)) as [K P]; [lia| | |].
  - intros j Hj. apply less_true.
    apply Qcle_lt_trans with (nth i grid 0); [|exact Lo].
    apply increasing_nth_le; [assumption|lia|lia].
  - intros j Hj Hn. apply less_false.
    apply Qcle_trans with (nth (S i) grid 0); [now apply Qclt_le_weak|].
    now apply increasing_nth_le.
  - repeat split; [exact K|exact P|].
    exists (trapezoid_sum (firstn (S (S i)) density) (firstn (S (S i)) grid)),
      (trapezoid_sum (skipn (S i) density) (skipn (S i) grid)).
    rewrite P, !np_trapezoid_closed;
      rewrite ?length_firstn, ?length_skipn; try lia.
    repeat split. f_equal. apply trapezoid_sum_split.
Qed.

End Exact.

(** * Further laws of exact arithmetic *)

Section ExactQuantiles.

Local Open Scope Qc_scope.

Implicit Types (a d g : list Qc) (v q : Qc).

Lemma nondecreasing_tail v a : nondecreasing (v :: a) -> nondecreasing a.
Proof.
  intros S i j Lij Lj. apply (S (Datatypes.S i) (Datatypes.S j)); simpl; lia.
Qed.

(** A nondecreasing array splits into the values below [v] and the values
    at or above [v]. *)
Lemma nondecreasing_split a v :
  nondecreasing a ->
  exists k, (k <= length a)%nat /\
            (forall i, (i < k)%nat -> nth i a 0 < v) /\
            (forall i, (k <= i)%nat -> (i < length a)%nat -> v <= nth i a 0).
Proof.
  induction a as [|x a IH]; intros S.
  - exists O. repeat split; simpl; intros; lia.
  - destruct (Qclt_le_dec x v) as [B|A].
    + destruct (IH (nondecreasing_tail _ _ S)) as (k & K & Lo & Hi).
      exists (Datatypes.S k). repeat split; simpl.
      * lia.
      * intros [|i] Hi'; [exact B|apply Lo; lia].
      * intros [|i] H1 H2; [lia|apply Hi; lia].
    + exists O. repeat split; simpl; [lia|intros; lia|].
      intros i _ Hi. apply Qcle_trans with x; [exact A|].
      apply (S O i); simpl; lia.
Qed.

Lemma np_searchsorted_sorted a v :
  nondecreasing a ->
  (np_searchsorted a v <= length a)%nat /\
  (forall i, (i < np_searchsorted a v)%nat -> nth i a 0 < v) /\
  (forall i, (np_searchsorted a v <= i)%nat -> (i < length a)%nat ->
             v <= nth i a 0).
Proof.
  intros S. destruct (nondecreasing_split a v S) as (k & K & Lo & Hi).
  assert (E : np_searchsorted a v = k).
  { apply np_searchsorted_partition; [exact K| |].
    - intros i Hi'. now apply less_true, Lo.
    - intros i H1 H2. now apply less_false, Hi. }
  rewrite E. auto.
Qed.

(** X4.  On an array that never decreases, the bisection of
    [np.searchsorted] returns the first crossing: every value before the
    returned index is below [v], every value from it on is at or above [v],
    and the index is at most the length. *)
Theorem np_searchsorted_first_crossing a v :
  nondecreasing a ->
  (np_searchsorted a v <= length a)%nat /\
  (forall i, (i < np_searchsorted a v)%nat -> nth i a 0 < v) /\
  (forall i, (np_searchsorted a v <= i)%nat -> (i < length a)%nat ->
             v <= nth i a 0).
Proof. apply np_searchsorted_sorted. Qed.

(** The bisection is monotone in the value looked up. *)
Lemma np_searchsorted_mono a v q :
  nondecreasing a -> v <= q -> (np_searchsorted a v <= np_searchsorted a q)%nat.
Proof.
  intros S L.
  destruct (np_searchsorted_sorted a v S) as (K1 & Lo1 & _).
  destruct (np_searchsorted_sorted a q S) as (K2 & _ & Hi2).
  destruct (Nat.le_gt_cases (np_searchsorted a v) (np_searchsorted a q))
    as [G|G]; [exact G|exfalso].
  specialize (Lo1 _ G). specialize (Hi2 _ (Nat.le_refl _) ltac:(lia)).
  apply (Qclt_not_le _ _ Lo1). now apply Qcle_trans with q.
Qed.

Lemma cumulative_nondecreasing d g :
  nonneg d -> increasing g -> nondecreasing (cumulative d g).
Proof.
  intros D G i j Lij Lj. rewrite cumulative_length in Lj.
  now apply cumulative_mono.
Qed.

Lemma quantile_ok d g q v :
  quantile d g q = Ok v ->
  (np_searchsorted (cumulative d g) q < length g)%nat /\
  v = nth (np_searchsorted (cumulative d g) q) g 0.
Proof.
  unfold quantile, getitem. intros E.
  destruct (nth_error g _) as [w|] eqn:N; [|discriminate].
  injection E as <-.
  split; [apply nth_error_Some; congruence|].
  symmetry. now apply nth_error_nth.
Qed.

Lemma quantile_le d g q1 q2 v1 v2 :
  nonneg d -> increasing g -> q1 <= q2 ->
  quantile d g q1 = Ok v1 -> quantile d g q2 = Ok v2 -> v1 <= v2.
Proof.
  intros D G L E1 E2.
  apply quantile_ok in E1 as [_ ->]. apply quantile_ok in E2 as [K ->].
  apply increasing_nth_le; [exact G| |exact K].
  apply np_searchsorted_mono; [|exact L].
  now apply cumulative_nondecreasing.
Qed.

(** X5.  For a non-negative density on a strictly increasing grid the
    quantile lookup is monotone in the level: the grid point returned for
    a lower level is never above the one returned for a higher level.  In
    particular the lower end of a credible interval is never above its
    upper end. *)
Theorem quantile_monotone d g q1 q2 v1 v2 :
  nonneg d -> increasing g -> q1 <= q2 ->
  quantile d g q1 = Ok v1 -> quantile d g q2 = Ok v2 ->
  v1 <= v2 /\ credibleInterval d g q1 q2 = Ok (v1, v2).
Proof.
  intros D G L E1 E2. split.
  - now apply (quantile_le d g q1 q2).
  - unfold credibleInterval. now rewrite E1, E2.
Qed.

(** *** Evenly spaced grids *)

Ltac arith := cbn [add sub mul div zero of_nat exact] in *.

Lemma of_nat_S (n : nat) : of_nat (S n) = of_nat n + 1.
Proof.
  arith. apply Qc_is_canon. unfold Qcplus. cbn [this Q2Qc].
  rewrite !Qred_correct. rewrite Nat2Z.inj_succ, <- Z.add_1_r.
  rewrite inject_Z_plus. reflexivity.
Qed.

Lemma of_nat_0 : of_nat 0 = 0.
Proof. reflexivity. Qed.

Lemma of_nat_positive (n : nat) : (0 < n)%nat -> of_nat n <> 0.
Proof.
  intros N. apply not_eq_sym, Qclt_not_eq.
  destruct n as [|n]; [lia|]. rewrite of_nat_S.
  apply Qcle_lt_trans with (of_nat n); [apply Qc_of_nat_nonneg|].
  rewrite <- (Qcplus_0_r (of_nat n)) at 1.
  unfold Qclt, Qcplus. cbn [this Q2Qc]. rewrite !Qred_correct.
  apply Qplus_lt_r. reflexivity.
Qed.

Lemma np_sum_repeat v (m : nat) : np_sum (repeat v m) = of_nat m * v.
Proof.
  induction m as [|m IH].
  - rewrite of_nat_0. cbn [repeat]. rewrite np_sum_nil. ring.
  - cbn [repeat]. rewrite np_sum_cons, IH, of_nat_S. ring.
Qed.

Lemma np_sum_scale a v : np_sum (map (fun w => v * w) a) = v * np_sum a.
Proof.
  induction a as [|w a IH].
  - cbn [map]. rewrite np_sum_nil. ring.
  - cbn [map]. rewrite !np_sum_cons, IH. ring.
Qed.

Lemma np_sum_scale_r a v : np_sum (scale a v) = np_sum a * v.
Proof.
  unfold scale. induction a as [|w a IH].
  - cbn [map]. rewrite np_sum_nil. ring.
  - cbn [map]. rewrite !np_sum_cons, IH. arith. ring.
Qed.

Lemma map2_mul_repeat v (m : nat) a :
  (length a <= m)%nat -> map2 mul (repeat v m) a = map (fun w => v * w) a.
Proof.
  revert m. induction a as [|w a IH]; intros [|m] L; simpl in *; try lia; trivial.
  f_equal. apply IH. lia.
Qed.

(** The average spacing of an evenly spaced grid is its step. *)
Lemma mean_spacing_even g v :
  evenly_spaced g v -> (2 <= length g)%nat -> np_mean (np_diff g) = v.
Proof.
  intros E L. unfold np_mean. rewrite E, np_sum_repeat, repeat_length.
  arith. field. apply of_nat_positive. lia.
Qed.

(** The sums of neighbours count every value twice, but for the first and
    the last. *)
Lemma pair_sums_total d :
  d <> [] ->
  np_sum (map2 add (tl d) (removelast d)) + hd 0 d + last d 0
  = np_sum d + np_sum d.
Proof.
  induction d as [|u d IH]; [congruence|intros _].
  destruct d as [|w d].
  - cbn [tl removelast map2 hd last]. rewrite np_sum_cons, !np_sum_nil. ring.
  - specialize (IH ltac:(discriminate)).
    change (tl (u :: w :: d)) with (w :: tl (w :: d)).
    change (removelast (u :: w :: d)) with (u :: removelast (w :: d)).
    change (last (u :: w :: d) 0) with (last (w :: d) 0).
    cbn [map2 hd] in *. rewrite !np_sum_cons.
    rewrite (np_sum_cons w d) in IH. arith.
    transitivity (u + u + (np_sum (map2 Qcplus (tl (w :: d)) (removelast (w :: d)))
                           + w + last (w :: d) 0)); [ring|].
    rewrite IH. ring.
Qed.

Lemma np_trapezoid_even d g v :
  length d = length g -> evenly_spaced g v ->
  np_trapezoid d g
  = Ok (v * np_sum (map2 add (tl d) (removelast d)) / of_nat 2).
Proof.
  intros L E. rewrite np_trapezoid_same_length by exact L. f_equal.
  rewrite E, map2_mul_repeat by (rewrite pair_sums_length; lia).
  now rewrite np_sum_idiv, np_sum_scale.
Qed.

Lemma cumsum_from_last a :
  a <> [] ->
  forall acc, nth (length a - 1) (cumsum_from acc a) 0 = acc + np_sum a.
Proof.
  induction a as [|w a IH]; [congruence|intros _ acc].
  destruct a as [|w' a].
  - cbn [cumsum_from length Nat.sub nth]. rewrite np_sum_cons, np_sum_nil.
    arith. ring.
  - specialize (IH ltac:(discriminate) (add acc w)).
    replace (length (w :: w' :: a) - 1)%nat with (S (length (w' :: a) - 1))
      by (simpl; lia).
    change (cumsum_from acc (w :: w' :: a))
      with (add acc w :: cumsum_from (add acc w) (w' :: a)).
    cbn [nth]. rewrite IH, (np_sum_cons w). arith. ring.
Qed.

Lemma np_cumsum_last d :
  d <> [] -> nth (length d - 1) (np_cumsum d) 0 = np_sum d.
Proof.
  destruct d as [|u d]; [congruence|intros _].
  destruct d as [|w d].
  - cbn [np_cumsum length Nat.sub nth]. rewrite np_sum_cons, np_sum_nil. ring.
  - replace (length (u :: w :: d) - 1)%nat with (S (length (w :: d) - 1))
      by (simpl; lia).
    cbn [np_cumsum nth].
    rewrite (cumsum_from_last (w :: d)) by discriminate.
    now rewrite (np_sum_cons u).
Qed.

Lemma cumulative_total_even d g v t :
  length d = length g -> (2 <= length g)%nat -> evenly_spaced g v ->
  np_trapezoid d g = Ok t ->
  nth (length g - 1) (cumulative d g) 0
  = t + v * (hd 0 d + last d 0) / of_nat 2.
Proof.
  intros L N E T.
  assert (D : d <> []) by (intros ->; simpl in L; lia).
  rewrite (np_trapezoid_even d g v L E) in T. injection T as <-.
  rewrite cumulative_nth by lia.
  rewrite <- L, np_cumsum_last by exact D.
  rewrite (mean_spacing_even g v E N).
  pose proof (pair_sums_total d D) as P.
  assert (P' : np_sum (map2 add (tl d) (removelast d))
               = np_sum d + np_sum d - hd 0 d - last d 0).
  { rewrite <- P. ring. }
  change (map2 Qcplus (tl d) (removelast d)) with (map2 add (tl d) (removelast d)).
  change (Q2Qc (inject_Z 2)) with (of_nat (Arith := exact) 2).
  rewrite P'.
  replace (of_nat (Arith := exact) 2) with (1 + 1)
    by (apply Qc_is_canon; reflexivity).
  field. intros Two. discriminate Two.
Qed.

(** X6.  On an evenly spaced grid the last entry of the scaled cumulative
    sum is the trapezoidal integral plus half the step times the two end
    values of the density: the Riemann sum the quantiles are read from
    counts the end points in full, the trapezoidal rule by half. *)
Theorem cumulative_total d g v t :
  length d = length g -> (2 <= length g)%nat -> evenly_spaced g v ->
  np_trapezoid d g = Ok t ->
  nth (length g - 1) (cumulative d g) 0
  = t + v * (hd 0 d + last d 0) / of_nat 2.
Proof. apply cumulative_total_even. Qed.

Lemma nonneg_hd d : nonneg d -> 0 <= hd 0 d.
Proof. intros [|u d' U D]; [apply Qcle_refl|exact U]. Qed.

Lemma nonneg_last d : nonneg d -> 0 <= last d 0.
Proof.
  intros D. destruct d as [|u d]; [apply Qcle_refl|].
  unfold nonneg in D. rewrite Forall_forall in D.
  apply D. rewrite <- nth_last. apply nth_In. simpl. lia.
Qed.

(** On an evenly spaced grid every level up to the trapezoidal integral is
    reached by the scaled cumulative sum. *)
Lemma quantile_reaches d g v t q :
  nonneg d -> increasing g -> evenly_spaced g v ->
  length d = length g -> (2 <= length g)%nat ->
  np_trapezoid d g = Ok t -> q <= t ->
  (np_searchsorted (cumulative d g) q < length g)%nat.
Proof.
  intros D G E L N T Q.
  pose proof (cumulative_total_even d g v t L N E T) as C.
  assert (V : 0 <= v).
  { rewrite <- (mean_spacing_even g v E N). now apply mean_spacing_nonneg. }
  assert (R : q <= nth (length g - 1) (cumulative d g) 0).
  { rewrite C. apply Qcle_trans with t; [exact Q|].
    rewrite <- (Qcplus_0_r t) at 1. apply Qcplus_le_compat; [apply Qcle_refl|].
    apply Qc_div_nonneg; [|apply Qc_of_nat_nonneg].
    apply Qc_mul_nonneg; [exact V|].
    apply Qc_add_nonneg; [now apply nonneg_hd|now apply nonneg_last]. }
  destruct (np_searchsorted_sorted (cumulative d g) q
              (cumulative_nondecreasing d g D G)) as (K & Lo & _).
  rewrite cumulative_length in K.
  destruct (Nat.lt_ge_cases (np_searchsorted (cumulative d g) q) (length g))
    as [A|A]; [exact A|exfalso].
  apply (Qclt_not_le _ _ (Lo (length g - 1)%nat ltac:(lia))). exact R.
Qed.


(** X8.  For a normalised non-negative density on an evenly spaced,
    strictly increasing grid of at least two points, the three lookups of
    the notebook all return, in order: the 2.5% point is at most the
    median, and the median at most the 97.5% point. *)
Theorem summary_statistics_ordered d g v :
  nonneg d -> increasing g -> evenly_spaced g v ->
  length d = length g -> (2 <= length g)%nat ->
  np_trapezoid d g = Ok 1 ->
  exists lo med hi,
    lower_25 d g = Ok lo /\ median d g = Ok med /\ upper_975 d g = Ok hi /\
    lo <= med /\ med <= hi.
Proof.
  intros D G E L N T.
  assert (Q : forall q, q <= 1 -> exists w, quantile d g q = Ok w).
  { intros q Hq. eexists. unfold quantile. apply getitem_nth.
    now apply (quantile_reaches d g v 1 q). }
  destruct (Q (lit 25 1000)) as [lo Elo]; [vm_compute; discriminate|].
  destruct (Q (lit 1 2)) as [med Emed]; [vm_compute; discriminate|].
  destruct (Q (lit 975 1000)) as [hi Ehi]; [vm_compute; discriminate|].
  exists lo, med, hi. unfold lower_25, median, upper_975.
  repeat split; trivial.
  - apply (quantile_le d g (lit 25 1000) (lit 1 2)); trivial.
    vm_compute; discriminate.
  - apply (quantile_le d g (lit 1 2) (lit 975 1000)); trivial.
    vm_compute; discriminate.
Qed.

End ExactQuantiles.

Section ExactGrid.

Local Open Scope Qc_scope.

Ltac arith := cbn [add sub mul div zero of_nat exact equal exact_equal] in *.

Lemma of_nat_lt (i j : nat) : (i < j)%nat -> of_nat i < of_nat j.
Proof.
  intros L. arith. unfold Qclt. cbn [this Q2Qc]. rewrite !Qred_correct.
  rewrite <- Zlt_Qlt. lia.
Qed.

Lemma Qc_add_lt_r (u w c : Qc) : u < w -> u + c < w + c.
Proof.
  unfold Qclt, Qcplus. cbn [this Q2Qc]. rewrite !Qred_correct.
  intros L. now apply Qplus_lt_l.
Qed.

Lemma Qc_div_pos (u w : Qc) : 0 < u -> 0 < w -> 0 < u / w.
Proof.
  intros U W. apply Qcnot_le_lt. intros N.
  apply (Qcmult_le_compat_r _ _ w) in N; [|now apply Qclt_le_weak].
  rewrite Qcmult_0_l in N. unfold Qcdiv in N.
  rewrite <- Qcmult_assoc, Qcmult_inv_l, Qcmult_1_r in N
    by now apply not_eq_sym, Qclt_not_eq.
  now apply (Qclt_not_le _ _ U).
Qed.

Lemma equal_false (u w : Qc) : u <> w -> equal u w = false.
Proof.
  intros N. destruct (equal u w) eqn:E; [|reflexivity].
  now apply Qc_eq_bool_correct in E.
Qed.

(** The points [i * step + start] for [i] from [k] on. *)
Lemma ramp_increasing (step start : Qc) (m : nat) :
  0 < step ->
  forall k, increasing (map (fun i => of_nat i * step + start) (seq k m)).
Proof.
  intros P. induction m as [|m IH]; intros k; [constructor|].
  cbn [seq map]. constructor; [apply IH|].
  rewrite Forall_map, Forall_forall. intros j Hj. apply in_seq in Hj.
  apply Qc_add_lt_r, Qcmult_lt_compat_r; [exact P|].
  apply of_nat_lt. lia.
Qed.

Lemma np_diff_cons (u w : Qc) (r : list Qc) :
  np_diff (u :: w :: r) = sub w u :: np_diff (w :: r).
Proof. reflexivity. Qed.

Lemma ramp_diff (step start : Qc) (m : nat) :
  forall k, np_diff (map (fun i => of_nat i * step + start) (seq k m))
            = repeat step (m - 1).
Proof.
  induction m as [|m IH]; intros k; [reflexivity|].
  destruct m as [|m]; [reflexivity|].
  specialize (IH (S k)).
  change (seq k (S (S m))) with (k :: seq (S k) (S m)).
  change (seq (S k) (S m)) with (S k :: seq (S (S k)) m) in *.
  cbn [map] in *. rewrite np_diff_cons, IH.
  replace (S (S m) - 1)%nat with (S (S m - 1)) by lia.
  cbn [repeat]. f_equal. rewrite of_nat_S. arith. ring.
Qed.

Lemma set_last_id (y : list Qc) (stop : Qc) :
  y <> [] -> last y 0 = stop -> set_last y stop = y.
Proof.
  intros Y S. unfold set_last. destruct y as [|v y']; [congruence|].
  rewrite <- S. symmetry. now apply app_removelast_last.
Qed.

Lemma np_linspace_ramp (start stop : Qc) (n : nat) :
  (2 <= n)%nat -> start < stop ->
  np_linspace start stop n
  = map (fun i => of_nat i * ((stop - start) / of_nat (n - 1)) + start) (seq 0 n).
Proof.
  intros N L. unfold np_linspace.
  assert (D : of_nat (n - 1) <> 0) by (apply of_nat_positive; lia).
  assert (P : 0 < (stop - start) / of_nat (n - 1)).
  { apply Qc_div_pos.
    - unfold Qclt, Qcminus, Qcplus, Qcopp in *. cbn [this Q2Qc] in *.
      rewrite !Qred_correct. lra.
    - apply Qcnot_le_lt. intros A.
      apply D, Qcle_antisym; [exact A|apply Qc_of_nat_nonneg]. }
  assert ((0 <? n - 1)%nat = true) as -> by (apply Nat.ltb_lt; lia).
  assert ((1 <? n)%nat = true) as -> by (apply Nat.ltb_lt; lia).
  rewrite equal_false by (arith; now apply not_eq_sym, Qclt_not_eq).
  unfold scale, np_arange. rewrite !map_map.
  set (y := map _ (seq 0 n)).
  assert (Y : y <> []).
  { subst y. destruct n; [lia|discriminate]. }
  apply set_last_id; [exact Y|].
  assert (S : last y 0 = stop).
  { rewrite <- nth_last. subst y. rewrite length_map, length_seq.
    rewrite (nth_indep _ 0 ((fun i => add (mul (of_nat i) (div (sub stop start) (of_nat (n - 1)))) start) O))
      by (rewrite length_map, length_seq; lia).
    rewrite (map_nth (fun i => add (mul (of_nat i) (div (sub stop start) (of_nat (n - 1)))) start)).
    rewrite seq_nth by lia. cbn [Nat.add]. arith. field. exact D. }
  exact S.
Qed.

(** X9.  In exact arithmetic [np.linspace(start, stop, n)] with
    [start < stop] and at least two points is a strictly increasing grid
    that begins at [start], and its consecutive points are all
    [(stop - start) / (n - 1)] apart. *)
Theorem np_linspace_grid (start stop : Qc) (n : nat) :
  (2 <= n)%nat -> start < stop ->
  increasing (np_linspace start stop n) /\
  evenly_spaced (np_linspace start stop n) ((stop - start) / of_nat (n - 1)) /\
  getitem (np_linspace start stop n) 0 = Ok start.
Proof.
  intros N L. rewrite (np_linspace_ramp start stop n N L).
  assert (D : of_nat (n - 1) <> 0) by (apply of_nat_positive; lia).
  repeat split.
  - apply ramp_increasing. apply Qc_div_pos.
    + unfold Qclt, Qcminus, Qcplus, Qcopp in *. cbn [this Q2Qc] in *.
      rewrite !Qred_correct. lra.
    + apply Qcnot_le_lt. intros A.
      apply D, Qcle_antisym; [exact A|apply Qc_of_nat_nonneg].
  - unfold evenly_spaced. now rewrite ramp_diff, length_map, length_seq.
  - destruct n as [|n]; [lia|]. cbn [seq map getitem nth_error]. f_equal.
    rewrite of_nat_0. ring.
Qed.

End ExactGrid.

Section ExactChain.

Local Open Scope Qc_scope.

Implicit Types (a b d g l x : list Qc) (c v : Qc).

Ltac arith := cbn [add sub mul div zero of_nat exact] in *.

(** The chain forgets a constant factor of the density it starts from. *)
Lemma posteriors_idiv x c (ls : list (list Qc)) g :
  c <> 0 -> ls <> [] -> posteriors (idiv x c) ls g = posteriors x ls g.
Proof.
  intros C N. destruct ls as [|l ls]; [congruence|].
  cbn [posteriors]. now rewrite update_idiv.
Qed.

Lemma update_normalized a b g :
  length a = length b -> length a = length g -> evidence a b g <> Ok 0 ->
  exists c, c <> 0 /\
            update a b g = Ok (idiv (map2 mul a b) c) /\
            normalize (map2 mul a b) g = Ok (idiv (map2 mul a b) c) /\
            np_trapezoid (idiv (map2 mul a b) c) g = Ok 1.
Proof.
  intros E1 E2 Z.
  destruct (update_same_length a b g E1 E2) as [E U].
  exists (trapezoid_sum (map2 mul a b) g).
  assert (N : normalize (map2 mul a b) g
              = Ok (idiv (map2 mul a b) (trapezoid_sum (map2 mul a b) g))).
  { unfold update in U. now rewrite broadcast_same_length in U by assumption. }
  repeat split; trivial.
  - apply Ok_neq. now rewrite <- E.
  - apply (normalize_integral _ _ _ N).
    unfold evidence in Z. now rewrite broadcast_same_length in Z by assumption.
Qed.

Lemma chain_spec (ls : list (list Qc)) g :
  forall x, length x = length g -> nondegenerate x ls g ->
  exists ps,
    posteriors x ls g = Ok ps /\
    length ps = length ls /\
    Forall (fun p => np_trapezoid p g = Ok 1) ps /\
    (ls <> [] -> normalize (joint x ls) g = Ok (last ps [])).
Proof.
  induction ls as [|l ls IH]; intros x L ND.
  - exists []. repeat split; [constructor|congruence].
  - destruct ND as (Ll & Z & ND).
    destruct (update_normalized x l g) as (c & C & U & N & T);
      [lia|exact L|exact Z|].
    destruct (IH (map2 mul x l)) as (ps & P & Lps & F & J);
      [rewrite map2_length; lia|exact ND|].
    exists (idiv (map2 mul x l) c :: ps).
    assert (P' : posteriors (idiv (map2 mul x l) c) ls g = Ok ps).
    { destruct ls as [|l' ls]; [exact P|].
      now rewrite posteriors_idiv by (trivial; discriminate). }
    repeat split.
    + cbn [posteriors]. rewrite U. cbn [bind]. now rewrite P'.
    + simpl. now rewrite Lps.
    + constructor; assumption.
    + intros _. cbn [joint]. destruct ls as [|l' ls].
      * injection P as <-. exact N.
      * rewrite J by discriminate.
        destruct ps as [|p ps]; [discriminate Lps|reflexivity].
Qed.

(** X10.  Along a chain of updates in which no product has a zero integral,
    every posterior is returned, there is one per likelihood, and each
    integrates to exactly 1 over the grid. *)
Theorem chain_posteriors_normalized x (ls : list (list Qc)) g :
  length x = length g -> nondegenerate x ls g ->
  exists ps,
    posteriors x ls g = Ok ps /\
    length ps = length ls /\
    Forall (fun p => np_trapezoid p g = Ok 1) ps.
Proof.
  intros L ND. destruct (chain_spec ls g x L ND) as (ps & P & Lps & F & _).
  now exists ps.
Qed.

(** X11.  Renormalising after every update changes nothing in the end: the
    last posterior of a chain in which no product has a zero integral is
    the product of the prior with all the likelihoods, normalised once. *)
Theorem chain_is_joint_update x (ls : list (list Qc)) g :
  length x = length g -> nondegenerate x ls g -> ls <> [] ->
  exists ps,
    posteriors x ls g = Ok ps /\
    normalize (joint x ls) g = Ok (last ps []).
Proof.
  intros L ND N. destruct (chain_spec ls g x L ND) as (ps & P & _ & _ & J).
  exists ps. auto.
Qed.

(** X12.  The notebook's [final_posterior] is the product of the prior with
    its four likelihoods, normalised once, when no product along the way
    has a zero integral. *)
Theorem final_posterior_is_joint
  (prior_pdf volcanic_pdf lgm_pdf ensemble_pdf maunder_pdf grid : list Qc) :
  length prior_pdf = length grid ->
  nondegenerate prior_pdf [volcanic_pdf; lgm_pdf; ensemble_pdf; maunder_pdf] grid ->
  final_posterior prior_pdf volcanic_pdf lgm_pdf ensemble_pdf maunder_pdf grid
  = normalize
      (map2 mul (map2 mul (map2 mul (map2 mul prior_pdf volcanic_pdf) lgm_pdf)
                   ensemble_pdf) maunder_pdf) grid.
Proof.
  intros L ND.
  destruct (chain_spec [volcanic_pdf; lgm_pdf; ensemble_pdf; maunder_pdf]
              grid prior_pdf L ND) as (ps & P & _ & _ & J).
  specialize (J ltac:(discriminate)). cbn [joint] in J. rewrite J.
  rewrite posteriors_notebook in P.
  destruct (posterior_1 _ _ _) as [p1|]; [|discriminate].
  destruct (posterior_2 _ _ _ _) as [p2|]; [|discriminate].
  destruct (posterior_3 _ _ _ _ _) as [p3|]; [|discriminate].
  destruct (final_posterior _ _ _ _ _ _) as [p4|]; [|discriminate].
  cbn [bind] in P. injection P as <-. reflexivity.
Qed.

Lemma joint_permutation (ls ls' : list (list Qc)) :
  Permutation ls ls' -> forall x, joint x ls = joint x ls'.
Proof.
  induction 1 as [|l ls ls' P IH|l l' ls|ls ls' ls'' P1 IH1 P2 IH2]; intros x.
  - reflexivity.
  - cbn [joint]. apply IH.
  - cbn [joint]. now rewrite map2_mul_swap.
  - now rewrite IH1.
Qed.

(** X20.  The order of the evidence does not matter for the final
    posterior: two chains from the same prior on the same likelihoods in
    any two orders, in neither of which a product has a zero integral, end
    on the same posterior. *)
Theorem final_posterior_permutation x (ls ls' : list (list Qc)) g :
  length x = length g -> Permutation ls ls' -> ls <> [] ->
  nondegenerate x ls g -> nondegenerate x ls' g ->
  exists ps ps',
    posteriors x ls g = Ok ps /\ posteriors x ls' g = Ok ps' /\
    last ps [] = last ps' [].
Proof.
  intros L P N ND ND'.
  assert (N' : ls' <> []).
  { intros ->. apply Permutation_sym, Permutation_nil in P. contradiction. }
  destruct (chain_spec ls g x L ND) as (ps & E & _ & _ & J).
  destruct (chain_spec ls' g x L ND') as (ps' & E' & _ & _ & J').
  exists ps, ps'. repeat split; trivial.
  specialize (J N). specialize (J' N').
  rewrite (joint_permutation ls ls' P), J' in J. now injection J.
Qed.

(** *** Flat densities *)

Lemma scale_as_idiv a c : c <> 0 -> scale a c = idiv a (/ c).
Proof.
  intros C. unfold scale, idiv. apply map_ext. intros w. arith. now field.
Qed.

Lemma map2_mul_repeat_r a c :
  map2 mul a (repeat c (length a)) = scale a c.
Proof.
  induction a as [|w a IH]; [reflexivity|].
  cbn [length repeat map2]. unfold scale in *. cbn [map]. now rewrite IH.
Qed.

Lemma Qcinv_nonzero c : c <> 0 -> / c <> 0.
Proof.
  intros C E. apply C. rewrite <- (Qcmult_1_l c), <- (Qcmult_inv_r c C).
  rewrite E. ring.
Qed.

(** X13.  A likelihood that has the same non-zero value at every grid point
    carries no information: the update returns the normalised current
    density.  The same holds when the likelihood is given as an array of
    length one, which numpy stretches. *)
Theorem update_flat_likelihood a g c :
  c <> 0 ->
  update a (repeat c (length a)) g = normalize a g /\
  update a [c] g = normalize a g.
Proof.
  intros C.
  assert (N : normalize (scale a c) g = normalize a g).
  { rewrite scale_as_idiv by exact C.
    now apply normalize_idiv, Qcinv_nonzero. }
  split; unfold update.
  - rewrite broadcast_same_length by now rewrite repeat_length.
    cbn [bind]. now rewrite map2_mul_repeat_r.
  - assert (B : broadcast mul a [c] = Ok (scale a c)).
    { unfold broadcast, scale.
      destruct a as [|w [|w' a]]; reflexivity. }
    rewrite B. exact N.
Qed.

End ExactChain.

Section ExactPrior.

Local Open Scope Qc_scope.

Implicit Types (a b d g l x : list Qc) (c v : Qc).

Ltac arith := cbn [add sub mul div zero of_nat exact] in *.

Lemma trapezoid_sum_cons2 u w d p q g :
  trapezoid_sum (u :: w :: d) (p :: q :: g)
  = (q - p) * (w + u) / of_nat 2 + trapezoid_sum (w :: d) (q :: g).
Proof. reflexivity. Qed.

(** Under a constant density the cells telescope. *)
Lemma trapezoid_sum_flat c g :
  trapezoid_sum (repeat c (length g)) g = c * (last g 0 - nth 0 g 0).
Proof.
  induction g as [|p g IH]; [cbn; ring|].
  destruct g as [|q g]; [cbn [length repeat last nth]; rewrite trapezoid_sum_one_r; ring|].
  change (repeat c (length (p :: q :: g)))
    with (c :: c :: repeat c (length g)).
  rewrite trapezoid_sum_cons2.
  change (c :: repeat c (length g)) with (repeat c (length (q :: g))).
  rewrite IH.
  change (last (p :: q :: g) 0) with (last (q :: g) 0). cbn [nth].
  replace (of_nat (Arith := exact) 2) with (1 + 1)
    by (apply Qc_is_canon; reflexivity).
  field. intros Two. discriminate Two.
Qed.

Lemma uniform_density_ok g :
  g <> [] -> uniform_density g = Ok (of_nat 1 / (last g 0 - nth 0 g 0)).
Proof.
  destruct g as [|p g]; [congruence|reflexivity].
Qed.

Lemma grid_span_positive g :
  increasing g -> (2 <= length g)%nat -> 0 < last g 0 - nth 0 g 0.
Proof.
  intros G N. rewrite <- nth_last.
  pose proof (increasing_nth g G 0 (length g - 1) ltac:(lia) ltac:(lia)) as L.
  unfold Qclt, Qcminus, Qcplus, Qcopp in *. cbn [this Q2Qc] in *.
  rewrite !Qred_correct. lra.
Qed.

(** X14.  The uniform prior of the notebook integrates to exactly 1, as its
    comment says: on every strictly increasing grid of at least two points
    the constant [1 / (grid[-1] - grid[0])] is positive and its trapezoidal
    integral over the grid is 1.  On an empty grid the cell raises
    [IndexError]. *)
Theorem uniform_prior_integrates_to_one g :
  increasing g -> (2 <= length g)%nat ->
  exists u, 0 < u /\
            uniform_prior_pdf g = Ok (repeat u (length g)) /\
            np_trapezoid (repeat u (length g)) g = Ok 1 /\
            uniform_prior_pdf (@nil Qc) = Raise IndexError.
Proof.
  intros G N.
  pose proof (grid_span_positive g G N) as S.
  exists (of_nat 1 / (last g 0 - nth 0 g 0)). repeat split.
  - apply Qc_div_pos; [reflexivity|exact S].
  - unfold uniform_prior_pdf. rewrite uniform_density_ok; [reflexivity|].
    intros ->. simpl in N. lia.
  - rewrite np_trapezoid_closed by now rewrite repeat_length.
    f_equal. rewrite trapezoid_sum_flat.
    change (of_nat (Arith := exact) 1) with 1. field.
    now apply not_eq_sym, Qclt_not_eq.
Qed.

Lemma map2_mul_repeat_l c l (n : nat) :
  length l = n -> map2 mul (repeat c n) l = map (fun w => c * w) l.
Proof.
  intros <-. induction l as [|w l IH]; [reflexivity|].
  cbn [length repeat map2 map]. now rewrite IH.
Qed.

(** X15.  With the uniform prior the first posterior is the normalised
    likelihood: on a strictly increasing grid of at least two points,
    updating the uniform prior with a likelihood of the grid's length
    returns what normalising the likelihood alone returns. *)
Theorem uniform_prior_update g l :
  increasing g -> (2 <= length g)%nat -> length l = length g ->
  exists prior, uniform_prior_pdf g = Ok prior /\
                posterior_1 prior l g = normalize l g.
Proof.
  intros G N L.
  pose proof (grid_span_positive g G N) as S.
  set (u := of_nat 1 / (last g 0 - nth 0 g 0)).
  assert (U : u <> 0).
  { apply not_eq_sym, Qclt_not_eq. apply Qc_div_pos; [reflexivity|exact S]. }
  exists (repeat u (length g)). split.
  - unfold uniform_prior_pdf. rewrite uniform_density_ok; [reflexivity|].
    intros ->. simpl in N. lia.
  - unfold posterior_1, update.
    rewrite broadcast_same_length by now rewrite repeat_length.
    cbn [bind]. rewrite map2_mul_repeat_l by exact L.
    replace (map (fun w => u * w) l) with (idiv l (/ u)).
    + now apply normalize_idiv, Qcinv_nonzero.
    + unfold idiv. apply map_ext. intros w. arith. now field.
Qed.

(** *** When the integral vanishes *)

Lemma Qc_sum_zero u w : 0 <= u -> 0 <= w -> u + w = 0 -> u = 0 /\ w = 0.
Proof.
  intros U W E.
  assert (A : u <= 0).
  { rewrite <- E. rewrite <- (Qcplus_0_r u) at 1.
    apply Qcplus_le_compat; [apply Qcle_refl|exact W]. }
  assert (B : u = 0) by now apply Qcle_antisym.
  split; [exact B|]. rewrite B in E. now rewrite Qcplus_0_l in E.
Qed.

Lemma trapezoid_sum_zero d :
  nonneg d -> forall g, increasing g -> length d = length g ->
  (2 <= length d)%nat -> trapezoid_sum d g = 0 -> Forall (fun w => w = 0) d.
Proof.
  induction 1 as [|u d U D IH]; intros g G L N Z; [simpl in N; lia|].
  destruct g as [|p g]; [discriminate|].
  destruct d as [|w d]; [simpl in N; lia|].
  destruct g as [|q g]; [discriminate|].
  rewrite trapezoid_sum_cons2 in Z.
  apply StronglySorted_inv in G as [G P].
  apply Forall_inv in P. apply Forall_inv in D as W.
  assert (T : 0 <= (q - p) * (w + u) / of_nat 2).
  { apply Qc_div_nonneg; [|apply Qc_of_nat_nonneg].
    apply Qc_mul_nonneg; [now apply Qc_sub_nonneg|now apply Qc_add_nonneg]. }
  pose proof (trapezoid_sum_nonneg (w :: d) D (q :: g) G) as R.
  destruct (Qc_sum_zero _ _ T R Z) as [Z1 Z2].
  assert (E : w + u = 0).
  { unfold Qcdiv in Z1.
    apply Qcmult_integral in Z1 as [Z1|Z1].
    - apply Qcmult_integral in Z1 as [Z1|Z1]; [|exact Z1].
      exfalso. apply (Qclt_not_eq _ _ P).
      rewrite <- (Qcplus_0_l p), <- Z1. ring.
    - exfalso. revert Z1. apply Qcinv_nonzero, of_nat_positive. lia. }
  destruct (Qc_sum_zero _ _ W U E) as [-> ->].
  constructor; [reflexivity|].
  destruct d as [|w' d]; [repeat constructor|].
  apply (IH (q :: g)); trivial; simpl in *; lia.
Qed.

Lemma trapezoid_sum_of_zeros d :
  Forall (fun w => w = 0) d -> forall g, trapezoid_sum d g = 0.
Proof.
  induction 1 as [|u d U D IH]; intros g; [reflexivity|].
  destruct g as [|p g]; [reflexivity|].
  destruct d as [|w d]; [reflexivity|].
  destruct g as [|q g]; [reflexivity|].
  rewrite trapezoid_sum_cons2, IH. apply Forall_inv in D. subst u w.
  unfold Qcdiv. ring.
Qed.

(** X16.  For a non-negative density on a strictly increasing grid of at
    least two points, the trapezoidal integral is zero exactly when the
    density is zero at every grid point: [normalize] divides by zero in
    that case and in no other. *)
Theorem np_trapezoid_zero_iff d g :
  nonneg d -> increasing g -> length d = length g -> (2 <= length g)%nat ->
  (np_trapezoid d g = Ok 0 <-> Forall (fun w => w = 0) d).
Proof.
  intros D G L N. rewrite np_trapezoid_closed by exact L. split.
  - intros E. apply (trapezoid_sum_zero d D g G L); [lia|].
    now injection E.
  - intros Z. f_equal. now apply trapezoid_sum_of_zeros.
Qed.

End ExactPrior.

Section ExactTail.

Local Open Scope Qc_scope.

Implicit Types (a b d g l x : list Qc) (c v : Qc).

Ltac arith := cbn [add sub mul div zero of_nat exact] in *.

Lemma nonneg_skipn d (k : nat) : nonneg d -> nonneg (skipn k d).
Proof.
  revert d. induction k as [|k IH]; intros [|u d] D; simpl; trivial.
  apply IH. now apply Forall_inv_tail in D.
Qed.

Lemma nonneg_firstn d (k : nat) : nonneg d -> nonneg (firstn k d).
Proof.
  revert d. induction k as [|k IH]; intros [|u d] D; simpl; try constructor.
  - now apply Forall_inv in D.
  - apply IH. now apply Forall_inv_tail in D.
Qed.

Lemma increasing_skipn g (k : nat) : increasing g -> increasing (skipn k g).
Proof.
  revert g. induction k as [|k IH]; intros [|p g] G; simpl; trivial.
  apply IH. now apply StronglySorted_inv in G.
Qed.

Lemma increasing_firstn g (k : nat) : increasing g -> increasing (firstn k g).
Proof.
  revert g. induction k as [|k IH]; intros [|p g] G; simpl; try constructor.
  - apply IH. now apply StronglySorted_inv in G.
  - apply StronglySorted_inv in G as [_ P].
    rewrite Forall_forall in *. intros q Hq. apply P.
    rewrite <- (firstn_skipn k g). apply in_or_app. now left.
Qed.

Lemma increasing_nondecreasing g : increasing g -> nondecreasing g.
Proof. intros G i j Lij Lj. now apply increasing_nth_le. Qed.

(** Dropping leading cells cannot raise the integral. *)
Lemma tail_le_whole d g (k : nat) :
  nonneg d -> increasing g ->
  trapezoid_sum (skipn k d) (skipn k g) <= trapezoid_sum d g.
Proof.
  intros D G. rewrite (trapezoid_sum_split k d g).
  rewrite <- (Qcplus_0_l (trapezoid_sum (skipn k d) (skipn k g))) at 1.
  apply Qcplus_le_compat; [|apply Qcle_refl].
  apply trapezoid_sum_nonneg; [now apply nonneg_firstn|now apply increasing_firstn].
Qed.

Lemma tail_le d g (j k : nat) :
  nonneg d -> increasing g -> (j <= k)%nat ->
  trapezoid_sum (skipn k d) (skipn k g) <= trapezoid_sum (skipn j d) (skipn j g).
Proof.
  intros D G L. replace k with (k - j + j)%nat by lia.
  rewrite <- !skipn_skipn.
  apply tail_le_whole; [now apply nonneg_skipn|now apply increasing_skipn].
Qed.

(** X17.  For a non-negative density on a strictly increasing grid of the
    same length, the probability above a threshold is returned, is not
    negative, does not exceed the whole integral, and does not grow when
    the threshold is raised. *)
Theorem probability_gt_antitone d g t1 t2 :
  nonneg d -> increasing g -> length d = length g -> t1 <= t2 ->
  exists p1 p2,
    probability_gt d g t1 = Ok p1 /\ probability_gt d g t2 = Ok p2 /\
    0 <= p2 /\ p2 <= p1 /\
    (forall total, np_trapezoid d g = Ok total -> p1 <= total).
Proof.
  intros D G L T. unfold probability_gt, threshold_index.
  set (k1 := np_searchsorted g t1). set (k2 := np_searchsorted g t2).
  assert (K : (k1 <= k2)%nat).
  { apply np_searchsorted_mono; [now apply increasing_nondecreasing|exact T]. }
  rewrite !np_trapezoid_closed by (rewrite !length_skipn; lia).
  do 2 eexists. repeat split.
  - apply trapezoid_sum_nonneg; [now apply nonneg_skipn|now apply increasing_skipn].
  - now apply tail_le.
  - intros total E. rewrite np_trapezoid_closed in E by exact L.
    injection E as <-. now apply tail_le_whole.
Qed.

(** *** The mean *)

Lemma weighted_sum_lower (lo : Qc) g :
  Forall (fun w => lo <= w) g ->
  forall d, nonneg d -> lo * np_sum d <= np_sum (map2 mul g d) \/ length g <> length d.
Proof.
  induction 1 as [|p g P G IH]; intros [|u d] D; try (right; discriminate).
  - left. cbn [map2]. rewrite np_sum_nil. rewrite Qcmult_0_r. apply Qcle_refl.
  - destruct (IH d (Forall_inv_tail D)) as [A|A]; [left|right; simpl; congruence].
    cbn [map2]. rewrite !np_sum_cons. arith.
    rewrite Qcmult_plus_distr_r. apply Qcplus_le_compat; [|exact A].
    apply Qcmult_le_compat_r; [exact P|now apply Forall_inv in D].
Qed.

Lemma weighted_sum_upper (hi : Qc) g :
  Forall (fun w => w <= hi) g ->
  forall d, nonneg d -> np_sum (map2 mul g d) <= hi * np_sum d \/ length g <> length d.
Proof.
  induction 1 as [|p g P G IH]; intros [|u d] D; try (right; discriminate).
  - left. cbn [map2]. rewrite np_sum_nil. rewrite Qcmult_0_r. apply Qcle_refl.
  - destruct (IH d (Forall_inv_tail D)) as [A|A]; [left|right; simpl; congruence].
    cbn [map2]. rewrite !np_sum_cons. arith.
    rewrite Qcmult_plus_distr_r. apply Qcplus_le_compat; [|exact A].
    apply Qcmult_le_compat_r; [exact P|now apply Forall_inv in D].
Qed.

Lemma mean_bounds d g :
  nonneg d -> increasing g -> length d = length g -> (2 <= length g)%nat ->
  exists m,
    mean d g = Ok m /\
    nth 0 g 0 * nth (length g - 1) (cumulative d g) 0 <= m /\
    m <= last g 0 * nth (length g - 1) (cumulative d g) 0.
Proof.
  intros D G L N.
  assert (Lg : (0 < length g)%nat) by lia.
  assert (Dn : d <> []) by (intros ->; simpl in L; lia).
  pose proof (mean_spacing_nonneg g G) as Hh.
  unfold mean. rewrite broadcast_same_length by lia. cbn [bind].
  eexists. split; [reflexivity|].
  rewrite cumulative_nth by lia. rewrite <- L, np_cumsum_last by exact Dn.
  arith. rewrite !Qcmult_assoc. split.
  - apply Qcmult_le_compat_r; [|exact Hh].
    destruct (weighted_sum_lower (nth 0 g 0) g) with (d := d) as [A|A];
      trivial; [|congruence].
    apply Forall_forall. intros w Hw.
    apply (In_nth _ _ 0) in Hw as (i & Hi & <-).
    apply increasing_nth_le; trivial; lia.
  - apply Qcmult_le_compat_r; [|exact Hh].
    destruct (weighted_sum_upper (last g 0) g) with (d := d) as [A|A];
      trivial; [|congruence].
    apply Forall_forall. intros w Hw.
    apply (In_nth _ _ 0) in Hw as (i & Hi & <-).
    rewrite <- nth_last. apply increasing_nth_le; trivial; lia.
Qed.

(** X18.  The mean of a non-negative density on a strictly increasing grid
    of at least two points (on a single point the average spacing is the
    quotient 0/0) is returned and lies between the first and the last grid
    point, each multiplied by the total of the scaled cumulative sum: it is
    a weighted average of the grid points only as far as that total is 1. *)
Theorem mean_between_grid_ends d g :
  nonneg d -> increasing g -> length d = length g -> (2 <= length g)%nat ->
  exists m,
    mean d g = Ok m /\
    nth 0 g 0 * nth (length g - 1) (cumulative d g) 0 <= m /\
    m <= last g 0 * nth (length g - 1) (cumulative d g) 0.
Proof. apply mean_bounds. Qed.

(** X21.  For a normalised non-negative density that vanishes at both ends
    of an evenly spaced, strictly increasing grid of at least two points,
    the total of the scaled cumulative sum is exactly 1 and the mean lies
    between the first and the last grid point. *)
Theorem mean_within_grid d g v :
  nonneg d -> increasing g -> evenly_spaced g v ->
  length d = length g -> (2 <= length g)%nat ->
  np_trapezoid d g = Ok 1 -> hd 0 d = 0 -> last d 0 = 0 ->
  nth (length g - 1) (cumulative d g) 0 = 1 /\
  exists m, mean d g = Ok m /\ nth 0 g 0 <= m /\ m <= last g 0.
Proof.
  intros D G E L N T H0 H1.
  assert (C : nth (length g - 1) (cumulative d g) 0 = 1).
  { rewrite (cumulative_total_even d g v 1 L N E T), H0, H1.
    unfold Qcdiv. ring. }
  split; [exact C|].
  destruct (mean_bounds d g D G L N) as (m & M & Lo & Hi).
  rewrite C, Qcmult_1_r in Lo, Hi. now exists m.
Qed.

End ExactTail.

(** * The exact laws at concrete arrays *)

Section ExactRuns.

Local Open Scope Q_scope.

Ltac nonzero := intros E; vm_compute in E; discriminate E.
Ltac ordered := repeat constructor; vm_compute; reflexivity.
Ltac positive := repeat constructor; vm_compute; intros E; discriminate E.

Example exact_unit_integral_run :
  exists p, normalize (exact_array [1; 2]) (exact_array [0; 1]) = Ok p /\
            np_trapezoid p (exact_array [0; 1]) = Ok (Q2Qc 1).
Proof.
  apply exact_unit_integral; [reflexivity|nonzero].
Qed.

Lemma normalize_has_no_guard_witness :
  exists c, np_trapezoid (exact_array [1; 2]) (exact_array [0; 1]) = Ok c /\
            normalize (exact_array [1; 2]) (exact_array [0; 1])
            = Ok (idiv (exact_array [1; 2]) c).
Proof.
  apply (proj1 (normalize_has_no_guard (exact_array [1; 2]) (exact_array [0; 1]))).
  reflexivity.
Defined.

Lemma normalize_idempotent_witness :
  exists p, normalize (exact_array [0; 1; 4]) (exact_array [0; 1; 2]) = Ok p /\
            normalize p (exact_array [0; 1; 2]) = Ok p.
Proof.
  apply normalize_idempotent; [reflexivity|nonzero].
Defined.

Lemma update_is_a_density_witness :
  exists p,
    update (exact_array [1; 1; 1]) (exact_array [0; 1; 4]) (exact_array [0; 1; 2])
    = Ok p /\
    nonneg p /\ np_trapezoid p (exact_array [0; 1; 2]) = Ok (Q2Qc 1).
Proof.
  apply update_is_a_density;
    [positive|positive|ordered|reflexivity|reflexivity|nonzero].
Defined.

Lemma final_posterior_order_independent_witness :
  exists p1 p2 q,
    posteriors (exact_array [1; 1]) [exact_array [1; 2]; exact_array [2; 1]]
      (exact_array [0; 1]) = Ok [p1; q] /\
    posteriors (exact_array [1; 1]) [exact_array [2; 1]; exact_array [1; 2]]
      (exact_array [0; 1]) = Ok [p2; q] /\
    np_trapezoid q (exact_array [0; 1]) = Ok (Q2Qc 1).
Proof.
  apply final_posterior_order_independent;
    [reflexivity|reflexivity|reflexivity|nonzero|nonzero|nonzero].
Defined.

Lemma chain_from_normalized_prior_witness :
  posteriors (idiv (exact_array [1; 2]) (Q2Qc (3 # 2))) [exact_array [3; 1]]
    (exact_array [0; 1])
  = posteriors (exact_array [1; 2]) [exact_array [3; 1]] (exact_array [0; 1]).
Proof.
  apply (proj2 (proj2 chain_from_normalized_prior)
           (exact_array [1; 2]) [exact_array [3; 1]] (exact_array [0; 1]));
    [reflexivity|nonzero].
Defined.


Lemma tail_probability_out_of_range_witness :
  tailProbability (exact_array [1; 1]) (exact_array [0; 1]) (Q2Qc (-1))
  = Ok (Q2Qc 1, []) /\
  tailProbability (exact_array [1; 1]) (exact_array [0; 1]) (Q2Qc 2)
  = Ok (Q2Qc 0, []).
Proof.
  split.
  - refine (proj1 (tail_probability_out_of_range
                     (exact_array [1; 1]) (exact_array [0; 1]) (Q2Qc (-1)) (Q2Qc 1)
                     _ _) _);
      [reflexivity|reflexivity|repeat constructor].
  - refine (proj2 (tail_probability_out_of_range
                     (exact_array [1; 1]) (exact_array [0; 1]) (Q2Qc 2) (Q2Qc 1)
                     _ _) _);
      [reflexivity|reflexivity|repeat constructor].
Defined.

Example tail_probability_split_run :
  threshold_index (exact_array [0; 1 # 2; 1]) (Q2Qc (1 # 4)) = 1%nat /\
  probability_gt (exact_array [1; 1; 1]) (exact_array [0; 1 # 2; 1]) (Q2Qc (1 # 4))
  = np_trapezoid (exact_array [1; 1]) (exact_array [1 # 2; 1]) /\
  exists below above,
    np_trapezoid (exact_array [1; 1]) (exact_array [0; 1 # 2]) = Ok below /\
    probability_gt (exact_array [1; 1; 1]) (exact_array [0; 1 # 2; 1])
      (Q2Qc (1 # 4)) = Ok above /\
    np_trapezoid (exact_array [1; 1; 1]) (exact_array [0; 1 # 2; 1])
    = Ok (Qcplus below above).
Proof.
  apply (tail_probability_split
           (exact_array [1; 1; 1]) (exact_array [0; 1 # 2; 1]) (Q2Qc (1 # 4)) 0);
    [ordered|reflexivity|auto with arith|vm_compute; reflexivity
    |vm_compute; reflexivity].
Qed.

(** *** The further laws *)

Ltac even := unfold evenly_spaced; cbn; repeat f_equal; apply Qc_is_canon; reflexivity.
Ltac le := vm_compute; intros E; discriminate E.
Ltac value :=
  first [reflexivity | vm_compute; f_equal; apply Qc_is_canon; reflexivity].

Lemma probability_gt_returns_witness :
  Nat.le (threshold_index (exact_array [0; 1 # 2; 1]) (Q2Qc (1 # 4))) 3 /\
  exists p,
    probability_gt (exact_array [1; 1; 1]) (exact_array [0; 1 # 2; 1]) (Q2Qc (1 # 4))
    = Ok p /\
    tailProbability (exact_array [1; 1; 1]) (exact_array [0; 1 # 2; 1]) (Q2Qc (1 # 4))
    = Ok (p, []).
Proof.
  apply (probability_gt_returns
           (exact_array [1; 1; 1]) (exact_array [0; 1 # 2; 1]) (Q2Qc (1 # 4))).
  reflexivity.
Defined.

Lemma np_searchsorted_first_crossing_witness :
  Nat.le (np_searchsorted (exact_array [0; 1; 1; 2]) (Q2Qc 1)) 4.
Proof.
  apply (np_searchsorted_first_crossing (exact_array [0; 1; 1; 2]) (Q2Qc 1)).
  intros i j Lij Lj. simpl in Lj.
  destruct j as [|[|[|[|j]]]]; try lia;
    destruct i as [|[|[|[|i]]]]; try lia; le.
Defined.

Lemma quantile_monotone_witness :
  Qcle (Q2Qc 1) (Q2Qc 1) /\
  credibleInterval (exact_array [0; 1; 0]) (exact_array [0; 1; 2])
    (Q2Qc (1 # 40)) (Q2Qc (39 # 40))
  = Ok (Q2Qc 1, Q2Qc 1).
Proof.
  apply (quantile_monotone (exact_array [0; 1; 0]) (exact_array [0; 1; 2])
           (Q2Qc (1 # 40)) (Q2Qc (39 # 40)) (Q2Qc 1) (Q2Qc 1));
    [positive|ordered|le|value|value].
Defined.

Lemma cumulative_total_witness :
  nth 2 (cumulative (exact_array [1; 1; 1]) (exact_array [0; 1; 2])) (Q2Qc 0)
  = Qcplus (Q2Qc 2)
      (Qcdiv (Qcmult (Q2Qc 1) (Qcplus (Q2Qc 1) (Q2Qc 1))) (of_nat 2)).
Proof.
  apply (cumulative_total (exact_array [1; 1; 1]) (exact_array [0; 1; 2])
           (Q2Qc 1) (Q2Qc 2));
    [reflexivity|simpl; lia|even|value].
Defined.


Lemma summary_statistics_ordered_witness :
  exists lo med hi,
    lower_25 (exact_array [0; 1; 0]) (exact_array [0; 1; 2]) = Ok lo /\
    median (exact_array [0; 1; 0]) (exact_array [0; 1; 2]) = Ok med /\
    upper_975 (exact_array [0; 1; 0]) (exact_array [0; 1; 2]) = Ok hi /\
    Qcle lo med /\ Qcle med hi.
Proof.
  apply (summary_statistics_ordered
           (exact_array [0; 1; 0]) (exact_array [0; 1; 2]) (Q2Qc 1));
    [positive|ordered|even|reflexivity|simpl; lia|value].
Defined.

(** The notebook's grid, in exact arithmetic. *)
Lemma np_linspace_grid_witness :
  increasing (ecs_values (num := Qc)) /\
  evenly_spaced (ecs_values (num := Qc))
    (Qcdiv (Qcminus (of_nat 10) (of_nat 0)) (of_nat 999)) /\
  getitem (ecs_values (num := Qc)) 0 = Ok (of_nat 0).
Proof.
  unfold ecs_values.
  apply (np_linspace_grid (of_nat 0) (of_nat 10) 1000);
    [repeat constructor|vm_compute; reflexivity].
Defined.

Lemma chain_posteriors_normalized_witness :
  exists ps,
    posteriors (exact_array [1; 1]) [exact_array [1; 2]; exact_array [2; 1]]
      (exact_array [0; 1]) = Ok ps /\
    length ps = 2%nat /\
    Forall (fun p => np_trapezoid p (exact_array [0; 1]) = Ok (Q2Qc 1)) ps.
Proof.
  apply (chain_posteriors_normalized
           (exact_array [1; 1]) [exact_array [1; 2]; exact_array [2; 1]]
           (exact_array [0; 1]));
    [reflexivity|].
  cbn [nondegenerate]. repeat split; nonzero.
Defined.

Lemma chain_is_joint_update_witness :
  exists ps,
    posteriors (exact_array [1; 1]) [exact_array [1; 2]; exact_array [2; 1]]
      (exact_array [0; 1]) = Ok ps /\
    normalize (joint (exact_array [1; 1]) [exact_array [1; 2]; exact_array [2; 1]])
      (exact_array [0; 1]) = Ok (last ps []).
Proof.
  apply (chain_is_joint_update
           (exact_array [1; 1]) [exact_array [1; 2]; exact_array [2; 1]]
           (exact_array [0; 1]));
    [reflexivity| |discriminate].
  cbn [nondegenerate]. repeat split; nonzero.
Defined.

Lemma final_posterior_is_joint_witness :
  final_posterior (exact_array [1; 2]) (exact_array [3; 1]) (exact_array [1; 1])
    (exact_array [2; 5]) (exact_array [1; 3]) (exact_array [0; 1])
  = normalize
      (map2 mul (map2 mul (map2 mul (map2 mul (exact_array [1; 2]) (exact_array [3; 1]))
                             (exact_array [1; 1])) (exact_array [2; 5]))
         (exact_array [1; 3]))
      (exact_array [0; 1]).
Proof.
  apply final_posterior_is_joint; [reflexivity|].
  cbn [nondegenerate]. repeat split; nonzero.
Defined.

Lemma update_flat_likelihood_witness :
  update (exact_array [1; 2; 1]) (repeat (Q2Qc 3) 3) (exact_array [0; 1; 2])
  = normalize (exact_array [1; 2; 1]) (exact_array [0; 1; 2]) /\
  update (exact_array [1; 2; 1]) [Q2Qc 3] (exact_array [0; 1; 2])
  = normalize (exact_array [1; 2; 1]) (exact_array [0; 1; 2]).
Proof.
  apply (update_flat_likelihood (exact_array [1; 2; 1]) (exact_array [0; 1; 2])
           (Q2Qc 3)).
  nonzero.
Defined.

Lemma uniform_prior_integrates_to_one_witness :
  exists u, Qclt (Q2Qc 0) u /\
            uniform_prior_pdf (exact_array [0; 1; 4]) = Ok (repeat u 3) /\
            np_trapezoid (repeat u 3) (exact_array [0; 1; 4]) = Ok (Q2Qc 1) /\
            uniform_prior_pdf (@nil Qc) = Raise IndexError.
Proof.
  apply (uniform_prior_integrates_to_one (exact_array [0; 1; 4]));
    [ordered|simpl; lia].
Defined.

Lemma uniform_prior_update_witness :
  exists prior,
    uniform_prior_pdf (exact_array [0; 1; 4]) = Ok prior /\
    posterior_1 prior (exact_array [1; 2; 3]) (exact_array [0; 1; 4])
    = normalize (exact_array [1; 2; 3]) (exact_array [0; 1; 4]).
Proof.
  apply (uniform_prior_update (exact_array [0; 1; 4]) (exact_array [1; 2; 3]));
    [ordered|simpl; lia|reflexivity].
Defined.

Lemma np_trapezoid_zero_iff_witness :
  np_trapezoid (exact_array [0; 0; 0]) (exact_array [0; 1; 4]) = Ok (Q2Qc 0)
  <-> Forall (fun w => w = Q2Qc 0) (exact_array [0; 0; 0]).
Proof.
  apply (np_trapezoid_zero_iff (exact_array [0; 0; 0]) (exact_array [0; 1; 4]));
    [positive|ordered|reflexivity|simpl; lia].
Defined.

Lemma probability_gt_antitone_witness :
  exists p1 p2,
    probability_gt (exact_array [1; 1; 1]) (exact_array [0; 1; 2]) (Q2Qc (1 # 2))
    = Ok p1 /\
    probability_gt (exact_array [1; 1; 1]) (exact_array [0; 1; 2]) (Q2Qc (3 # 2))
    = Ok p2 /\
    Qcle (Q2Qc 0) p2 /\ Qcle p2 p1 /\
    (forall total,
        np_trapezoid (exact_array [1; 1; 1]) (exact_array [0; 1; 2]) = Ok total ->
        Qcle p1 total).
Proof.
  apply (probability_gt_antitone (exact_array [1; 1; 1]) (exact_array [0; 1; 2])
           (Q2Qc (1 # 2)) (Q2Qc (3 # 2)));
    [positive|ordered|reflexivity|le].
Defined.

Lemma mean_between_grid_ends_witness :
  exists m,
    mean (exact_array [0; 1; 0]) (exact_array [1; 2; 3]) = Ok m /\
    Qcle (Qcmult (Q2Qc 1)
            (nth 2 (cumulative (exact_array [0; 1; 0]) (exact_array [1; 2; 3]))
               (Q2Qc 0))) m /\
    Qcle m (Qcmult (Q2Qc 3)
              (nth 2 (cumulative (exact_array [0; 1; 0]) (exact_array [1; 2; 3]))
                 (Q2Qc 0))).
Proof.
  apply (mean_between_grid_ends (exact_array [0; 1; 0]) (exact_array [1; 2; 3]));
    [positive|ordered|reflexivity|simpl; lia].
Defined.

Lemma chain_returns_on_shapes_witness :
  exists ps,
    posteriors (exact_array [1; 0]) [exact_array [0; 1]; exact_array [1; 1]]
      (exact_array [0; 1]) = Ok ps /\
    length ps = 2%nat /\
    Forall (fun p => length p = 2%nat) ps.
Proof.
  apply (chain_returns_on_shapes
           (exact_array [1; 0]) [exact_array [0; 1]; exact_array [1; 1]]
           (exact_array [0; 1]));
    [reflexivity|repeat constructor].
Defined.

Lemma final_posterior_permutation_witness :
  exists ps ps',
    posteriors (exact_array [1; 1]) [exact_array [1; 2]; exact_array [2; 1]]
      (exact_array [0; 1]) = Ok ps /\
    posteriors (exact_array [1; 1]) [exact_array [2; 1]; exact_array [1; 2]]
      (exact_array [0; 1]) = Ok ps' /\
    last ps [] = last ps' [].
Proof.
  apply (final_posterior_permutation
           (exact_array [1; 1]) [exact_array [1; 2]; exact_array [2; 1]]
           [exact_array [2; 1]; exact_array [1; 2]] (exact_array [0; 1]));
    [reflexivity|apply perm_swap|discriminate| |];
    cbn [nondegenerate]; repeat split; nonzero.
Defined.

Lemma mean_within_grid_witness :
  nth 2 (cumulative (exact_array [0; 1; 0]) (exact_array [1; 2; 3])) (Q2Qc 0)
  = Q2Qc 1 /\
  exists m, mean (exact_array [0; 1; 0]) (exact_array [1; 2; 3]) = Ok m /\
            Qcle (Q2Qc 1) m /\ Qcle m (Q2Qc 3).
Proof.
  apply (mean_within_grid (exact_array [0; 1; 0]) (exact_array [1; 2; 3]) (Q2Qc 1));
    [positive|ordered|even|reflexivity|simpl; lia|value|reflexivity|reflexivity].
Defined.

End ExactRuns.

(** * Rounding in float64 *)

(** The float64 operations are specified, bit by bit, by the functions of
    [SpecFloat]; this part derives what they do to the rational values:
    each operation on finite numbers returns its exact result with a
    relative error of at most [eps64], or an absolute one of at most
    [eta64] where the result is below the normal range. *)

Section Float64Digits.

Local Open Scope Z_scope.

(** *** The digits of a mantissa *)
Lemma digits2_pos_bounds (m : positive) :
  2 ^ (Zpos (digits2_pos m) - 1) <= Zpos m < 2 ^ Zpos (digits2_pos m).
Proof.
  induction m as [m IH|m IH|]; cbn [digits2_pos].
  - rewrite Pos2Z.inj_succ.
    replace (Z.succ (Zpos (digits2_pos m)) - 1) with (Z.succ (Zpos (digits2_pos m) - 1)) by lia.
    rewrite !Z.pow_succ_r by lia. lia.
  - rewrite Pos2Z.inj_succ.
    replace (Z.succ (Zpos (digits2_pos m)) - 1) with (Z.succ (Zpos (digits2_pos m) - 1)) by lia.
    rewrite !Z.pow_succ_r by lia. lia.
  - simpl. lia.
Qed.

Lemma Zdigits2_bounds (m : Z) :
  0 < m -> 2 ^ (Zdigits2 m - 1) <= m < 2 ^ Zdigits2 m.
Proof.
  destruct m as [|p|p]; try lia. intros _. apply digits2_pos_bounds.
Qed.

Lemma Zdigits2_nonneg (m : Z) : 0 <= Zdigits2 m.
Proof. destruct m; simpl; lia. Qed.

Lemma Zdigits2_pos (m : Z) : 0 < m -> 0 < Zdigits2 m.
Proof. destruct m; simpl; lia. Qed.

(** *** Shifting a mantissa right *)
Lemma shr_1_m (r : shr_record) :
  0 <= shr_m r -> shr_m (shr_1 r) = shr_m r / 2 /\ 0 <= shr_m (shr_1 r).
Proof.
  destruct r as [m rb sb]. cbn [shr_m]. intros M.
  destruct m as [|[p|p|]|p]; cbn [shr_1 shr_m]; try lia.
  - split; [reflexivity|lia].
  - split; [|lia]. apply (Z.div_unique (Zpos p~1) 2 (Zpos p) 1); lia.
  - split; [|lia]. apply (Z.div_unique (Zpos p~0) 2 (Zpos p) 0); lia.
  - split; [reflexivity|lia].
Qed.

Lemma pow2_xI (p : positive) : 2 ^ Zpos p~1 = 2 * (2 ^ Zpos p * 2 ^ Zpos p).
Proof.
  replace (Zpos p~1) with (1 + (Zpos p + Zpos p)) by lia.
  rewrite !Z.pow_add_r by lia. reflexivity.
Qed.

Lemma pow2_xO (p : positive) : 2 ^ Zpos p~0 = 2 ^ Zpos p * 2 ^ Zpos p.
Proof.
  replace (Zpos p~0) with (Zpos p + Zpos p) by lia.
  rewrite !Z.pow_add_r by lia. reflexivity.
Qed.

Lemma pow2_pos (n : Z) : 0 <= n -> 0 < 2 ^ n.
Proof. intros N. apply Z.pow_pos_nonneg; lia. Qed.

Lemma iter_pos_shr_1 (p : positive) :
  forall r, 0 <= shr_m r ->
    shr_m (iter_pos shr_1 p r) = shr_m r / 2 ^ Zpos p /\
    0 <= shr_m (iter_pos shr_1 p r).
Proof.
  induction p as [p IH|p IH|]; intros r M; cbn [iter_pos].
  - destruct (shr_1_m r M) as [E1 P1].
    destruct (IH _ P1) as [E2 P2]. destruct (IH _ P2) as [E3 P3].
    split; [|exact P3]. rewrite E3, E2, E1, pow2_xI.
    pose proof (pow2_pos (Zpos p) ltac:(lia)).
    rewrite !Z.div_div by lia. reflexivity.
  - destruct (IH _ M) as [E2 P2]. destruct (IH _ P2) as [E3 P3].
    split; [|exact P3]. rewrite E3, E2, pow2_xO.
    pose proof (pow2_pos (Zpos p) ltac:(lia)).
    rewrite !Z.div_div by lia. reflexivity.
  - destruct (shr_1_m r M) as [E1 P1]. split; [|exact P1].
    rewrite E1. reflexivity.
Qed.

Lemma shr_record_of_loc_m (m : Z) (l : location) : shr_m (shr_record_of_loc m l) = m.
Proof. destruct l as [|[| |]]; reflexivity. Qed.

(** [shr] divides the mantissa by a power of two. *)
Lemma shr_m_spec (r : shr_record) (e n : Z) :
  0 <= shr_m r ->
  shr_m (fst (shr r e n)) = shr_m r / 2 ^ Z.max n 0 /\
  snd (shr r e n) = e + Z.max n 0.
Proof.
  intros M. unfold shr. destruct n as [|p|p]; cbn [fst snd].
  - rewrite Z.max_id. simpl. rewrite Z.div_1_r. split; [reflexivity|lia].
  - replace (Z.max (Zpos p) 0) with (Zpos p) by lia.
    split; [apply iter_pos_shr_1, M|reflexivity].
  - replace (Z.max (Zneg p) 0) with 0 by lia. simpl. rewrite Z.div_1_r.
    split; [reflexivity|lia].
Qed.

Lemma round_nearest_even_cases (m : Z) (l : location) :
  round_nearest_even m l = m \/ round_nearest_even m l = m + 1.
Proof.
  destruct l as [|[| |]]; cbn [round_nearest_even]; auto.
  destruct (Z.even m); auto.
Qed.

Lemma fexp_eq (e : Z) : fexp prec emax e = Z.max (e - 53) (-1074).
Proof. reflexivity. Qed.

Lemma shr_nop (r : shr_record) (e n : Z) : n <= 0 -> shr r e n = (r, e).
Proof. intros N. destruct n; try lia; reflexivity. Qed.

Lemma shr_fexp_spec (m e : Z) (l : location) :
  0 <= m ->
  let ee := Z.max e (fexp prec emax (Zdigits2 m + e)) in
  shr_m (fst (shr_fexp prec emax m e l)) = m / 2 ^ (ee - e) /\
  snd (shr_fexp prec emax m e l) = ee /\
  (ee = e -> fst (shr_fexp prec emax m e l) = shr_record_of_loc m l).
Proof.
  intros M ee. unfold shr_fexp.
  set (n := fexp prec emax (Zdigits2 m + e) - e).
  destruct (shr_m_spec (shr_record_of_loc m l) e n) as [E1 E2].
  { now rewrite shr_record_of_loc_m. }
  rewrite shr_record_of_loc_m in E1.
  replace (ee - e) with (Z.max n 0) by (subst ee n; lia).
  split; [exact E1|]. split; [subst ee n; lia|].
  intros E. rewrite shr_nop by (subst ee n; lia). reflexivity.
Qed.

Lemma binary_round_aux_spec (mx ex : Z) (lx : location) :
  0 <= mx -> ex <= 970 -> Zdigits2 mx + ex <= 1023 ->
  let ee := Z.max ex (fexp prec emax (Zdigits2 mx + ex)) in
  exists m e m',
    binary_round_aux prec emax false mx ex lx = SFres m e /\
    0 <= m /\ ee <= e <= 971 /\
    m * 2 ^ (e - ee) = m' /\
    (m' = mx / 2 ^ (ee - ex) \/ m' = mx / 2 ^ (ee - ex) + 1) /\
    (lx = loc_Exact -> ee = ex -> m' = mx).
Proof.
  intros M EX D ee.
  pose proof (Zdigits2_nonneg mx) as Dn.
  assert (EE : -1074 <= ee <= 970) by (subst ee; rewrite fexp_eq; lia).
  unfold binary_round_aux.
  destruct (shr_fexp_spec mx ex lx M) as (S1 & S2 & S3). fold ee in S1, S2, S3.
  destruct (shr_fexp prec emax mx ex lx) as [mrs' e'] eqn:F1.
  cbn [fst snd] in S1, S2, S3. subst e'.
  set (m1 := mx / 2 ^ (ee - ex)) in *.
  set (m' := round_nearest_even (shr_m mrs') (loc_of_shr_record mrs')).
  assert (C : m' = m1 \/ m' = m1 + 1).
  { subst m'. rewrite <- S1. apply round_nearest_even_cases. }
  assert (X : lx = loc_Exact -> ee = ex -> m' = mx).
  { intros -> E. subst m'. rewrite (S3 E). reflexivity. }
  assert (P2 : 0 < 2 ^ (ee - ex)) by (apply pow2_pos; subst ee; lia).
  assert (M1 : 0 <= m1 < 2 ^ 53).
  { split; [apply Z.div_pos; lia|].
    apply Z.div_lt_upper_bound; [lia|].
    destruct (Z.eq_dec mx 0) as [->|NZ]; [lia|].
    pose proof (Zdigits2_bounds mx ltac:(lia)) as [_ U].
    eapply Z.lt_le_trans; [exact U|].
    rewrite <- Z.pow_add_r by (subst ee; lia).
    apply Z.pow_le_mono_r; [lia|]. subst ee. rewrite fexp_eq. lia. }
  assert (M' : 0 <= m' <= 2 ^ 53) by lia.
  destruct (shr_fexp_spec m' ee loc_Exact ltac:(lia)) as (T1 & T2 & T3).
  destruct (shr_fexp prec emax m' ee loc_Exact) as [mrs'' e''] eqn:F2.
  cbn [fst snd] in T1, T2, T3.
  set (ee2 := Z.max ee (fexp prec emax (Zdigits2 m' + ee))) in *.
  destruct (Z.eq_dec m' (2 ^ 53)) as [E53|N53].
  - (* the mantissa was rounded up to 2^53 *)
    assert (D' : Zdigits2 m' = 54) by (rewrite E53; reflexivity).
    assert (E2 : ee2 = ee + 1) by (subst ee2; rewrite D', fexp_eq; lia).
    rewrite E2 in T1, T2. replace (ee + 1 - ee) with 1 in T1 by lia.
    rewrite E53 in T1. change (2 ^ 53 / 2 ^ 1) with (2 ^ 52) in T1.
    rewrite T1. change (2 ^ 52) with (Zpos (2 ^ 52)).
    cbv iota beta. subst e''.
    replace (ee + 1 <=? emax - prec) with true
      by (symmetry; apply Z.leb_le; change (emax - prec) with 971; lia).
    exists (2 ^ 52), (ee + 1), m'. repeat split; trivial; try lia.
    replace (ee + 1 - ee) with 1 by lia. rewrite E53. reflexivity.
  - assert (E2 : ee2 = ee).
    { subst ee2. destruct (Z.eq_dec m' 0) as [->|NZ].
      - simpl Zdigits2. rewrite fexp_eq. lia.
      - pose proof (Zdigits2_bounds m' ltac:(lia)) as [L _].
        assert (Zdigits2 m' <= 53).
        { destruct (Z_le_gt_dec (Zdigits2 m') 53) as [G|G]; [exact G|].
          assert (2 ^ 53 <= 2 ^ (Zdigits2 m' - 1))
            by (apply Z.pow_le_mono_r; lia). lia. }
        rewrite fexp_eq. lia. }
    rewrite (T3 E2) in *. cbn [shr_record_of_loc shr_m] in *. subst e''.
    rewrite E2.
    exists m', ee, m'. 
    assert (R : match m' with
                | 0 => S754_zero false
                | Z.pos m => if ee <=? emax - prec then S754_finite false m ee
                             else S754_infinity false
                | Z.neg _ => S754_nan
                end = SFres m' ee).
    { destruct m' as [|p|p]; try reflexivity; [|lia].
      replace (ee <=? emax - prec) with true
        by (symmetry; apply Z.leb_le; change (emax - prec) with 971; lia).
      reflexivity. }
    rewrite R. repeat split; trivial; try lia.
    rewrite Z.sub_diag. simpl. lia.
Qed.

End Float64Digits.

Section Float64Rounding.

Local Open Scope Z_scope.
Local Open Scope Q_scope.

Lemma pow2_gt0 (e : Z) : 0 < 2 ^ e.
Proof. apply Qpower_0_lt. reflexivity. Qed.

Lemma pow2_add (a b : Z) : 2 ^ (a + b) == 2 ^ a * 2 ^ b.
Proof. apply Qpower_plus. discriminate. Qed.

Lemma pow2_le (a b : Z) : (a <= b)%Z -> 2 ^ a <= 2 ^ b.
Proof. intros L. apply Qpower_le_compat_l; [exact L|]. discriminate. Qed.

Lemma pow2_lt_inv (a b : Z) : 2 ^ a < 2 ^ b -> (a < b)%Z.
Proof. intros L. apply (Qpower_lt_compat_l_inv 2); [exact L|]. reflexivity. Qed.

Lemma pow2_inject (n : Z) : (0 <= n)%Z -> inject_Z (2 ^ n) == 2 ^ n.
Proof. intros N. now rewrite Zpower_Qpower. Qed.

Lemma zq_shift (m e n : Z) : (0 <= n)%Z -> zq (m * 2 ^ n) e == zq m (e + n).
Proof.
  intros N. unfold zq. rewrite inject_Z_mult, pow2_inject by exact N.
  rewrite pow2_add. ring.
Qed.

Lemma zq_le (m m' e : Z) : (m <= m')%Z -> zq m e <= zq m' e.
Proof.
  intros L. unfold zq. apply Qmult_le_compat_r.
  - now rewrite <- Zle_Qle.
  - apply Qlt_le_weak, pow2_gt0.
Qed.

Lemma zq_lt (m m' e : Z) : (m < m')%Z -> zq m e < zq m' e.
Proof.
  intros L. unfold zq. apply Qmult_lt_compat_r.
  - apply pow2_gt0.
  - now rewrite <- Zlt_Qlt.
Qed.

Lemma zq_add (m m' e : Z) : zq m e + zq m' e == zq (m + m') e.
Proof. unfold zq. rewrite inject_Z_plus. ring. Qed.

Lemma zq_sub (m m' e : Z) : zq m e - zq m' e == zq (m - m') e.
Proof. unfold zq, Z.sub. rewrite inject_Z_plus, inject_Z_opp. ring. Qed.

Lemma zq_mul (m m' e e' : Z) : zq m e * zq m' e' == zq (m * m') (e + e').
Proof. unfold zq. rewrite inject_Z_mult, pow2_add. ring. Qed.

Lemma zq_0 (e : Z) : zq 0 e == 0.
Proof. unfold zq. ring. Qed.

Lemma zq_1 (e : Z) : zq 1 e == 2 ^ e.
Proof. unfold zq. ring. Qed.

Lemma zq_nonneg (m e : Z) : (0 <= m)%Z -> 0 <= zq m e.
Proof. intros M. rewrite <- (zq_0 e). now apply zq_le. Qed.

Lemma SFres_value (m e : Z) : (0 <= m)%Z -> SF2Q (SFres m e) == zq m e.
Proof.
  destruct m as [|p|p]; intros M; try lia; cbn [SFres SF2Q].
  - now rewrite zq_0.
  - reflexivity.
Qed.

Lemma SFres_nonneg (m e : Z) : SFnonneg (SFres m e).
Proof. destruct m; simpl; trivial. Qed.

(** *** Rounding, on values *)

(** The result of a rounding is within one unit in the last place of the
    number rounded. *)
Lemma binary_round_aux_value (mx ex : Z) (lx : location) (x : Q) :
  (0 <= mx)%Z -> (ex <= 970)%Z ->
  zq mx ex <= x -> x <= zq (mx + 1) ex ->
  (lx = loc_Exact -> x == zq mx ex) ->
  x < 2 ^ 1023 ->
  (lx = loc_Exact \/ (ex <= fexp prec emax (Zdigits2 mx + ex))%Z) ->
  let r := binary_round_aux prec emax false mx ex lx in
  SFnonneg r /\
  x - (eps64 * x + eta64) <= SF2Q r <= x + (eps64 * x + eta64) /\
  (lx = loc_Exact -> (-1074 <= ex)%Z ->
   x - eps64 * x <= SF2Q r <= x + eps64 * x).
Proof.
  intros M EX Lo Hi Ex Up Sh r.
  pose proof (Zdigits2_nonneg mx) as Dn.
  assert (D : (Zdigits2 mx + ex <= 1023)%Z).
  { destruct (Z.eq_dec mx 0) as [->|NZ]; [simpl; lia|].
    pose proof (Zdigits2_bounds mx ltac:(lia)) as [L _].
    pose proof (Zdigits2_pos mx ltac:(lia)) as Dp.
    assert (P : 2 ^ (Zdigits2 mx - 1 + ex) < 2 ^ 1023).
    { eapply Qle_lt_trans; [|exact Up]. eapply Qle_trans; [|exact Lo].
      rewrite Z.add_comm, <- zq_1. rewrite <- zq_shift by lia.
      apply zq_le. lia. }
    apply pow2_lt_inv in P. lia. }
  destruct (binary_round_aux_spec mx ex lx M EX D)
    as (m & e & m' & R & Mn & Ee & Em & C & X).
  set (ee := Z.max ex (fexp prec emax (Zdigits2 mx + ex))) in *.
  fold r in R.
  assert (V : SF2Q r == zq m' ee).
  { rewrite R, SFres_value by exact Mn. rewrite <- Em.
    rewrite zq_shift by lia. replace (ee + (e - ee))%Z with e by lia.
    reflexivity. }
  set (n := (ee - ex)%Z) in *.
  assert (N : (0 <= n)%Z) by (subst n ee; lia).
  assert (P2 : (0 < 2 ^ n)%Z) by now apply pow2_pos.
  set (m1 := (mx / 2 ^ n)%Z) in *.
  assert (Q1 : (m1 * 2 ^ n <= mx)%Z).
  { subst m1. rewrite Z.mul_comm. apply Z.mul_div_le. exact P2. }
  assert (Q2 : (mx + 1 <= (m1 + 1) * 2 ^ n)%Z).
  { subst m1. pose proof (Z.mul_succ_div_gt mx (2 ^ n) P2). lia. }
  assert (B1 : zq m1 ee <= x).
  { eapply Qle_trans; [|exact Lo].
    replace ee with (ex + n)%Z by (subst n; lia).
    rewrite <- zq_shift by exact N. now apply zq_le. }
  assert (B2 : x <= zq (m1 + 1) ee).
  { eapply Qle_trans; [exact Hi|].
    replace ee with (ex + n)%Z by (subst n; lia).
    rewrite <- zq_shift by exact N. now apply zq_le. }
  assert (W : zq (m1 + 1) ee == zq m1 ee + 2 ^ ee).
  { rewrite <- zq_1, zq_add. reflexivity. }
  assert (A : x - 2 ^ ee <= SF2Q r <= x + 2 ^ ee).
  { pose proof (pow2_gt0 ee).
    rewrite V. destruct C as [-> | ->]; rewrite ?W; split; lra. }
  assert (X0 : 0 <= x).
  { eapply Qle_trans; [|exact Lo]. now apply zq_nonneg. }
  assert (Small : (ex <= fexp prec emax (Zdigits2 mx + ex))%Z ->
                  (-1074 < ee)%Z -> 2 ^ ee <= eps64 * x).
  { intros S G. rewrite fexp_eq in S. subst ee. rewrite fexp_eq in *.
    assert (EE : Z.max ex (Z.max (Zdigits2 mx + ex - 53) (-1074))
                 = (-52 + (Zdigits2 mx - 1 + ex))%Z) by (clear - S G; lia).
    rewrite EE in *. clear EE.
    rewrite pow2_add. unfold eps64.
    apply Qmult_le_l; [apply pow2_gt0|].
    eapply Qle_trans; [|exact Lo].
    destruct (Z.eq_dec mx 0) as [->|NZ].
    { change (Zdigits2 0) with 0%Z in *. clear - S G. lia. }
    pose proof (Zdigits2_bounds mx ltac:(lia)) as [L _].
    pose proof (Zdigits2_pos mx ltac:(lia)) as Dp.
    rewrite Z.add_comm, <- zq_1. rewrite <- zq_shift by lia.
    apply zq_le. lia. }
  assert (Eta : (ee <= -1074)%Z -> 2 ^ ee <= eta64).
  { intros G. unfold eta64. now apply pow2_le. }
  assert (E0 : 0 <= eps64 * x).
  { apply Qmult_le_0_compat; [|exact X0]. apply Qlt_le_weak, pow2_gt0. }
  assert (Et0 : 0 < eta64) by apply pow2_gt0.
  split; [rewrite R; apply SFres_nonneg|]. split.
  - destruct Sh as [-> | Sh].
    + destruct (Z.eq_dec ee ex) as [E|NE].
      * pose proof (Ex eq_refl) as Ex'. rewrite (X eq_refl E), E in V. lra.
      * assert (Sh : (ex <= fexp prec emax (Zdigits2 mx + ex))%Z)
          by (subst ee; lia).
        destruct (Z_le_gt_dec ee (-1074)) as [G|G].
        -- specialize (Eta G). lra.
        -- specialize (Small Sh ltac:(lia)). lra.
    + destruct (Z_le_gt_dec ee (-1074)) as [G|G].
      * specialize (Eta G). lra.
      * specialize (Small Sh ltac:(lia)). lra.
  - intros -> G. destruct (Z.eq_dec ee ex) as [E|NE].
    + pose proof (Ex eq_refl) as Ex'. rewrite (X eq_refl E), E in V. lra.
    + assert (Sh' : (ex <= fexp prec emax (Zdigits2 mx + ex))%Z)
        by (subst ee; lia).
      assert (G' : (-1074 < ee)%Z) by (subst ee; lia).
      specialize (Small Sh' G'). lra.
Qed.

(** What validity says of a finite number. *)
Lemma valid_finite (s : bool) (m : positive) (e : Z) :
  valid_binary (S754_finite s m e) = true ->
  (-1074 <= e <= 971)%Z /\ (Zpos (digits2_pos m) <= 53)%Z /\
  (Zpos (digits2_pos m) = 53 \/ e = -1074)%Z.
Proof.
  cbn [SpecFloat.valid_binary]. unfold bounded, canonical_mantissa.
  rewrite andb_true_iff, Z.eqb_eq, Z.leb_le, fexp_eq.
  change (emax - prec)%Z with 971%Z. lia.
Qed.

Lemma shl_align_spec (m : positive) (e e' : Z) :
  snd (shl_align m e e') = Z.min e e' /\
  Zpos (fst (shl_align m e e')) = (Zpos m * 2 ^ (e - Z.min e e'))%Z.
Proof.
  unfold shl_align. destruct (e' - e)%Z as [|p|p] eqn:D; cbn [fst snd].
  - replace (Z.min e e') with e by lia. rewrite Z.sub_diag. simpl. lia.
  - replace (Z.min e e') with e by lia. rewrite Z.sub_diag. simpl. lia.
  - replace (Z.min e e') with e' by lia. split; [reflexivity|].
    replace (e - e')%Z with (Zpos p) by lia.
    change (Pos.iter xO m p) with (shift_pos p m).
    rewrite shift_pos_correct. rewrite Z.mul_comm. reflexivity.
Qed.

Lemma zq_pos_digits (m : positive) (e : Z) :
  2 ^ (Zpos (digits2_pos m) - 1 + e) <= zq (Zpos m) e.
Proof.
  pose proof (digits2_pos_bounds m) as [L _].
  rewrite Z.add_comm, <- zq_1. rewrite <- zq_shift by lia.
  apply zq_le. lia.
Qed.

Lemma zq_pos_digits_lt (m : positive) (e : Z) :
  zq (Zpos m) e < 2 ^ (Zpos (digits2_pos m) + e).
Proof.
  pose proof (digits2_pos_bounds m) as [_ U].
  rewrite Z.add_comm, <- zq_1. rewrite <- zq_shift by lia.
  apply zq_lt. lia.
Qed.

(** Rounding an exact positive number. *)
Lemma binary_round_value (m : positive) (e : Z) :
  (-1074 <= e)%Z -> zq (Zpos m) e < 2 ^ 1023 ->
  let r := binary_round prec emax false m e in
  SFnonneg r /\
  zq (Zpos m) e - eps64 * zq (Zpos m) e <= SF2Q r
  <= zq (Zpos m) e + eps64 * zq (Zpos m) e.
Proof.
  intros E U r. subst r. unfold binary_round.
  set (d := Zpos (digits2_pos m)).
  destruct (shl_align_spec m e (fexp prec emax (d + e))) as [S1 S2].
  destruct (shl_align m e (fexp prec emax (d + e))) as [mz ez].
  cbn [fst snd] in S1, S2.
  assert (D : (d + e <= 1023)%Z).
  { pose proof (zq_pos_digits m e) as L. fold d in L.
    assert (P : 2 ^ (d - 1 + e) < 2 ^ 1023) by (eapply Qle_lt_trans; eauto).
    apply pow2_lt_inv in P. lia. }
  assert (V : zq (Zpos mz) ez == zq (Zpos m) e).
  { rewrite S2, zq_shift by lia. replace (ez + (e - Z.min e (fexp prec emax (d + e))))%Z
      with e by lia. reflexivity. }
  rewrite fexp_eq in S1.
  destruct (binary_round_aux_value (Zpos mz) ez loc_Exact (zq (Zpos m) e))
    as (N & _ & R); try lia.
  - rewrite V. apply Qle_refl.
  - rewrite <- V. apply zq_le. lia.
  - intros _. now rewrite V.
  - exact U.
  - now left.
  - split; [exact N|]. apply R; [reflexivity|lia].
Qed.

Lemma SFnonneg_finite (x : spec_float) : SFnonneg x -> SFfinite x.
Proof. destruct x; simpl; trivial. Qed.

Lemma SFnonneg_value (x : spec_float) : SFnonneg x -> 0 <= SF2Q x.
Proof.
  destruct x as [s| | |s m e]; simpl; try lra; try tauto.
  intros ->. apply zq_nonneg. lia.
Qed.

Lemma zq_pos_gt0 (m : positive) (e : Z) : 0 < zq (Zpos m) e.
Proof. rewrite <- (zq_0 e). apply zq_lt. lia. Qed.

(** *** Multiplication *)
Lemma SFmul_value (x y : spec_float) :
  valid_binary x = true -> valid_binary y = true ->
  SFnonneg x -> SFnonneg y ->
  SF2Q x * SF2Q y < 2 ^ 1023 ->
  let r := SFmul prec emax x y in
  SFnonneg r /\
  SF2Q x * SF2Q y - (eps64 * (SF2Q x * SF2Q y) + eta64) <= SF2Q r
  <= SF2Q x * SF2Q y + (eps64 * (SF2Q x * SF2Q y) + eta64).
Proof.
  intros Vx Vy Nx Ny U r. subst r.
  pose proof (pow2_gt0 (-1074)) as Et. fold eta64 in Et.
  destruct x as [sx| | |sx mx ex], y as [sy| | |sy my ey];
    cbn [SFnonneg] in Nx, Ny; try tauto;
    cbn [SFmul SF2Q SFnonneg]; try (split; [exact I|]; split; lra).
  subst sx sy. cbn [SF2Q xorb] in *.
  apply valid_finite in Vx as (Ex & Dx & Cx), Vy as (Ey & Dy & Cy).
  assert (P : SF2Q (S754_finite false mx ex) * SF2Q (S754_finite false my ey)
              == zq (Zpos (mx * my)) (ex + ey)).
  { cbn [SF2Q]. rewrite zq_mul. reflexivity. }
  cbn [SF2Q] in P.
  assert (EX : (ex + ey <= 970)%Z).
  { destruct Cx as [Cx|Cx], Cy as [Cy|Cy]; try lia.
    pose proof (zq_pos_digits mx ex) as Lx. pose proof (zq_pos_digits my ey) as Ly.
    rewrite Cx in Lx. rewrite Cy in Ly.
    assert (Q : 2 ^ (53 - 1 + ex) * 2 ^ (53 - 1 + ey) < 2 ^ 1023).
    { eapply Qle_lt_trans; [|exact U].
      apply Qmult_le_compat_nonneg; split; trivial;
        apply Qlt_le_weak, pow2_gt0. }
    rewrite <- pow2_add in Q. apply pow2_lt_inv in Q. lia. }
  rewrite P in *.
  destruct (binary_round_aux_value (Zpos (mx * my)) (ex + ey) loc_Exact
              (zq (Zpos (mx * my)) (ex + ey))) as (N & R & _); try lia.
  - apply Qle_refl.
  - apply zq_le. lia.
  - reflexivity.
  - exact U.
  - now left.
  - split; [exact N|exact R].
Qed.

Lemma zq_opp (m e : Z) : zq (- m) e == - zq m e.
Proof. unfold zq. rewrite inject_Z_opp. ring. Qed.

Lemma SF2Q_finite (s : bool) (m : positive) (e : Z) :
  SF2Q (S754_finite s m e) == zq (cond_Zopp s (Zpos m)) e.
Proof.
  destruct s; cbn [SF2Q cond_Zopp]; [|reflexivity].
  now rewrite zq_opp.
Qed.

Lemma zq_align (m : positive) (e e' : Z) :
  (e' <= e)%Z ->
  zq (Zpos (fst (shl_align m e e'))) e' == zq (Zpos m) e.
Proof.
  intros L. destruct (shl_align_spec m e e') as [_ S]. rewrite S.
  replace (Z.min e e') with e' by lia.
  rewrite zq_shift by lia. replace (e' + (e - e'))%Z with e by lia.
  reflexivity.
Qed.

Lemma zq_align_signed (s : bool) (m : positive) (e e' : Z) :
  (e' <= e)%Z ->
  zq (cond_Zopp s (Zpos (fst (shl_align m e e')))) e'
  == SF2Q (S754_finite s m e).
Proof.
  intros L. rewrite SF2Q_finite.
  destruct s; cbn [cond_Zopp]; rewrite ?zq_opp, zq_align by exact L;
    reflexivity.
Qed.

Lemma zq_sign (m e : Z) : 0 < zq m e -> (0 < m)%Z.
Proof.
  intros P. destruct (Z_lt_le_dec 0 m) as [G|G]; [exact G|].
  apply (zq_le _ _ e) in G. rewrite zq_0 in G. lra.
Qed.

(** Exact sums and differences are rounded once. *)
Lemma binary_normalize_value (m e : Z) :
  (-1074 <= e)%Z -> 0 < zq m e -> zq m e < 2 ^ 1023 ->
  let r := binary_normalize prec emax m e false in
  SFnonneg r /\
  zq m e - eps64 * zq m e <= SF2Q r <= zq m e + eps64 * zq m e.
Proof.
  intros E P U r. subst r. pose proof (zq_sign m e P) as M.
  destruct m as [|p|p]; try lia. cbn [binary_normalize].
  now apply binary_round_value.
Qed.

(** *** Addition *)
Lemma SFadd_value (x y : spec_float) :
  valid_binary x = true -> valid_binary y = true ->
  SFnonneg x -> SFnonneg y ->
  SF2Q x + SF2Q y < 2 ^ 1023 ->
  let r := SFadd prec emax x y in
  SFnonneg r /\
  (SF2Q x + SF2Q y) - eps64 * (SF2Q x + SF2Q y) <= SF2Q r
  <= (SF2Q x + SF2Q y) + eps64 * (SF2Q x + SF2Q y).
Proof.
  intros Vx Vy Nx Ny U r. subst r.
  assert (E0 : 0 < eps64) by apply pow2_gt0.
  destruct x as [sx| | |sx mx ex], y as [sy| | |sy my ey];
    cbn [SFnonneg] in Nx, Ny; try tauto.
  - destruct sx, sy; cbn [SFadd SF2Q SFnonneg]; (split; [exact I|]); split; lra.
  - subst sy. cbn [SFadd SFnonneg].
    pose proof (zq_pos_gt0 my ey). cbn [SF2Q].
    split; [reflexivity|]. split; nra.
  - subst sx. cbn [SFadd SFnonneg].
    pose proof (zq_pos_gt0 mx ex). cbn [SF2Q].
    split; [reflexivity|]. split; nra.
  - subst sx sy. cbn [SFadd cond_Zopp].
    apply valid_finite in Vx as (Ex & _), Vy as (Ey & _).
    set (ez := Z.min ex ey).
    set (m := (Zpos (fst (shl_align mx ex ez)) + Zpos (fst (shl_align my ey ez)))%Z).
    assert (V : zq m ez == SF2Q (S754_finite false mx ex)
                          + SF2Q (S754_finite false my ey)).
    { subst m. rewrite <- zq_add, !zq_align by (subst ez; lia). reflexivity. }
    rewrite <- V in *.
    apply binary_normalize_value; trivial; [subst ez; lia|].
    rewrite V. cbn [SF2Q].
    pose proof (zq_pos_gt0 mx ex). pose proof (zq_pos_gt0 my ey). lra.
Qed.

(** *** Subtraction, with a positive difference *)
Lemma SFsub_value (x y : spec_float) :
  valid_binary x = true -> valid_binary y = true ->
  SFfinite x -> SFfinite y ->
  0 < SF2Q x - SF2Q y -> SF2Q x - SF2Q y < 2 ^ 1023 ->
  let r := SFsub prec emax x y in
  SFnonneg r /\
  (SF2Q x - SF2Q y) - eps64 * (SF2Q x - SF2Q y) <= SF2Q r
  <= (SF2Q x - SF2Q y) + eps64 * (SF2Q x - SF2Q y).
Proof.
  intros Vx Vy Nx Ny P U r. subst r.
  assert (E0 : 0 < eps64) by apply pow2_gt0.
  destruct x as [sx| | |sx mx ex], y as [sy| | |sy my ey];
    cbn [SFfinite] in Nx, Ny; try tauto.
  - cbn [SF2Q] in P. lra.
  - cbn [SFsub]. pose proof (zq_pos_gt0 my ey).
    destruct sy; cbn [SF2Q negb SFnonneg] in *; [|lra].
    split; [reflexivity|]. split; nra.
  - cbn [SFsub]. pose proof (zq_pos_gt0 mx ex).
    destruct sx; cbn [SF2Q SFnonneg] in *; [lra|].
    split; [reflexivity|]. split; nra.
  - cbn [SFsub].
    apply valid_finite in Vx as (Ex & _), Vy as (Ey & _).
    set (ez := Z.min ex ey).
    set (m := (cond_Zopp sx (Zpos (fst (shl_align mx ex ez)))
               - cond_Zopp sy (Zpos (fst (shl_align my ey ez))))%Z).
    assert (V : zq m ez == SF2Q (S754_finite sx mx ex)
                          - SF2Q (S754_finite sy my ey)).
    { subst m. rewrite <- zq_sub, !zq_align_signed by (subst ez; lia).
      reflexivity. }
    rewrite <- V in *.
    apply binary_normalize_value; trivial. subst ez; lia.
Qed.

Lemma new_location_exact (n k : Z) : new_location n k = loc_Exact -> k = 0%Z.
Proof.
  unfold new_location, new_location_even, new_location_odd.
  destruct (Z.even n); destruct (Z.eqb_spec k 0); trivial; discriminate.
Qed.

Lemma Zdigits2_lower (q k : Z) :
  (0 <= k)%Z -> (2 ^ k <= q)%Z -> (k + 1 <= Zdigits2 q)%Z.
Proof.
  intros K L.
  assert (Q : (0 < q)%Z) by (pose proof (pow2_pos k K); lia).
  pose proof (Zdigits2_bounds q Q) as [_ U].
  pose proof (Zdigits2_nonneg q).
  assert (P : (2 ^ k < 2 ^ Zdigits2 q)%Z) by lia.
  apply Z.pow_lt_mono_r_iff in P; lia.
Qed.

Lemma Qmult_le_cancel (a b c : Q) : 0 < c -> a * c <= b * c -> a <= b.
Proof. intros C L. now apply (Qmult_le_r _ _ c). Qed.

Lemma Qmult_lt_cancel (a b c : Q) : 0 < c -> a * c < b * c -> a < b.
Proof. intros C L. now apply (Qmult_lt_r _ _ c). Qed.

Lemma shift_match (m s : Z) :
  (0 <= s)%Z ->
  match s with
  | 0%Z => m
  | Zpos _ => Z.shiftl m s
  | Zneg _ => 0%Z
  end = (m * 2 ^ s)%Z.
Proof.
  intros S. destruct s as [|p|p]; try lia.
  apply Z.shiftl_mul_pow2. lia.
Qed.

(** *** Division *)
Lemma SFdiv_value (x y : spec_float) (q : Q) :
  valid_binary x = true -> valid_binary y = true ->
  SFnonneg x -> SFnonneg y -> 0 < SF2Q y ->
  q * SF2Q y == SF2Q x -> q < 2 ^ 1023 ->
  let r := SFdiv prec emax x y in
  SFnonneg r /\
  q - (eps64 * q + eta64) <= SF2Q r <= q + (eps64 * q + eta64).
Proof.
  intros Vx Vy Nx Ny Py Q U r. subst r.
  assert (E0 : 0 < eps64) by apply pow2_gt0.
  assert (Et : 0 < eta64) by apply pow2_gt0.
  destruct y as [sy| | |sy my ey]; cbn [SFnonneg SF2Q] in Ny, Py;
    try tauto; try lra.
  subst sy. cbn [SF2Q] in Q.
  pose proof (zq_pos_gt0 my ey) as Y0.
  destruct x as [sx| | |sx mx ex]; cbn [SFnonneg] in Nx; try tauto.
  - cbn [SFdiv SF2Q SFnonneg] in *.
    assert (q == 0).
    { apply (Qmult_inj_r _ _ (zq (Zpos my) ey)); [lra|]. rewrite Q. ring. }
    split; [exact I|]. split; nra.
  - subst sx. cbn [SF2Q] in Q. cbn [SFdiv xorb].
    pose proof (zq_pos_gt0 mx ex) as X0.
    assert (Q0 : 0 < q).
    { destruct (Qlt_le_dec 0 q) as [G|G]; [exact G|].
      assert (q * zq (Zpos my) ey <= 0) by nra. lra. }
    apply valid_finite in Vx as (Ex & Dx & Cx), Vy as (Ey & Dy & Cy).
    unfold SFdiv_core_binary.
    change (Zdigits2 (Zpos mx)) with (Zpos (digits2_pos mx)).
    change (Zdigits2 (Zpos my)) with (Zpos (digits2_pos my)).
    set (d1 := Zpos (digits2_pos mx)) in *.
    set (d2 := Zpos (digits2_pos my)) in *.
    set (E := (d1 + ex - (d2 + ey))%Z).
    set (e' := Z.min (fexp prec emax E) (ex - ey)).
    set (s := (ex - ey - e')%Z).
    assert (S0 : (0 <= s)%Z) by (subst s e'; lia).
    set (m' := match s with
               | 0%Z => Zpos mx
               | Zpos _ => Z.shiftl (Zpos mx) s
               | Zneg _ => 0%Z
               end).
    assert (M' : m' = (Zpos mx * 2 ^ s)%Z).
    { subst m'. now apply shift_match. }
    pose proof (Z_div_mod m' (Zpos my) ltac:(lia)) as DM.
    destruct (Z.div_eucl m' (Zpos my)) as [q0 r0].
    destruct DM as [DM R0].
    assert (Q0n : (0 <= q0)%Z) by nia.
    (* the quotient lies between two consecutive mantissas *)
    assert (VX : zq (Zpos mx) ex == zq m' (e' + ey)).
    { rewrite M', zq_shift by exact S0.
      replace (e' + ey + s)%Z with ex by (subst s; lia). reflexivity. }
    assert (B1 : zq q0 e' <= q).
    { apply (Qmult_le_cancel _ _ (zq (Zpos my) ey) Y0).
      rewrite Q, VX, zq_mul. apply zq_le. nia. }
    assert (B2 : q <= zq (q0 + 1) e').
    { apply (Qmult_le_cancel _ _ (zq (Zpos my) ey) Y0).
      rewrite Q, VX, zq_mul. apply zq_le. nia. }
    (* the exponent *)
    assert (EE : (E <= 1023)%Z).
    { pose proof (zq_pos_digits mx ex) as L1. fold d1 in L1.
      pose proof (zq_pos_digits_lt my ey) as U2. fold d2 in U2.
      assert (P : 2 ^ (E - 1) < 2 ^ 1023).
      { eapply Qlt_trans; [|exact U].
        apply (Qmult_lt_cancel _ _ (2 ^ (d2 + ey))); [apply pow2_gt0|].
        rewrite <- pow2_add.
        replace (E - 1 + (d2 + ey))%Z with (d1 - 1 + ex)%Z by (subst E; lia).
        eapply Qle_lt_trans; [exact L1|]. rewrite <- Q.
        apply Qmult_lt_l; [exact Q0|exact U2]. }
      apply pow2_lt_inv in P. lia. }
    assert (E'' : (e' <= 970)%Z) by (subst e'; rewrite fexp_eq; lia).
    assert (H4 : (e' <= fexp prec emax (Zdigits2 q0 + e'))%Z).
    { rewrite fexp_eq. destruct (Z_le_gt_dec e' (-1074)) as [G|G]; [lia|].
      assert (F : (e' <= E - 53)%Z) by (subst e'; rewrite fexp_eq in *; lia).
      set (k := (d1 + s - d2 - 1)%Z).
      assert (K : (52 <= k)%Z) by (subst k s E; lia).
      assert (L : (2 ^ k <= q0)%Z).
      { pose proof (digits2_pos_bounds mx) as [L1 _]. fold d1 in L1.
        pose proof (digits2_pos_bounds my) as [_ U2]. fold d2 in U2.
        assert (D1 : (0 < d1)%Z) by (subst d1; lia).
        assert (D2 : (0 < d2)%Z) by (subst d2; lia).
        assert (T : (2 ^ k * 2 ^ d2 = 2 ^ (d1 - 1) * 2 ^ s)%Z).
        { rewrite <- !Z.pow_add_r by lia. f_equal. subst k. lia. }
        pose proof (pow2_pos k ltac:(lia)) as Pk.
        pose proof (pow2_pos s S0) as Ps.
        assert (T2 : (2 ^ k * Zpos my < Zpos my * (q0 + 1))%Z) by nia.
        nia. }
      pose proof (Zdigits2_lower q0 k ltac:(lia) L). subst k s E. lia. }
    destruct (binary_round_aux_value q0 e' (new_location (Zpos my) r0) q)
      as (N & R & _); trivial.
    + intros LE. apply new_location_exact in LE. subst r0.
      apply (Qmult_inj_r _ _ (zq (Zpos my) ey)); [lra|].
      rewrite Q, VX, zq_mul. replace (q0 * Zpos my)%Z with m' by lia.
      reflexivity.
    + now right.
    + split; [exact N|exact R].
Qed.

(** ** The operations on float64 numbers *)

Lemma regular_value (f : float) : regular f -> 0 <= float_value f.
Proof. apply SFnonneg_value. Qed.

Lemma mul_value (a b : float) :
  regular a -> regular b -> float_value a * float_value b < 2 ^ 1023 ->
  regular (a * b)%float /\
  float_value a * float_value b - (eps64 * (float_value a * float_value b) + eta64) <= float_value (a * b)%float
  <= float_value a * float_value b + (eps64 * (float_value a * float_value b) + eta64).
Proof.
  intros A B U. unfold regular, float_value. rewrite mul_spec.
  apply SFmul_value; trivial; apply Prim2SF_valid.
Qed.

Lemma add_value (a b : float) :
  regular a -> regular b -> float_value a + float_value b < 2 ^ 1023 ->
  regular (a + b)%float /\
  (float_value a + float_value b) - eps64 * (float_value a + float_value b) <= float_value (a + b)%float
  <= (float_value a + float_value b) + eps64 * (float_value a + float_value b).
Proof.
  intros A B U. unfold regular, float_value. rewrite add_spec.
  apply SFadd_value; trivial; apply Prim2SF_valid.
Qed.

Lemma sub_value (a b : float) :
  finite_float a -> finite_float b ->
  0 < float_value a - float_value b -> float_value a - float_value b < 2 ^ 1023 ->
  regular (a - b)%float /\
  (float_value a - float_value b) - eps64 * (float_value a - float_value b) <= float_value (a - b)%float
  <= (float_value a - float_value b) + eps64 * (float_value a - float_value b).
Proof.
  intros A B P U. unfold regular, float_value. rewrite sub_spec.
  apply SFsub_value; trivial; apply Prim2SF_valid.
Qed.

Lemma div_value (a b : float) (q : Q) :
  regular a -> regular b -> 0 < float_value b ->
  q * float_value b == float_value a -> q < 2 ^ 1023 ->
  regular (a / b)%float /\
  q - (eps64 * q + eta64) <= float_value (a / b)%float <= q + (eps64 * q + eta64).
Proof.
  intros A B P Q U. unfold regular, float_value. rewrite div_spec.
  apply SFdiv_value; trivial; apply Prim2SF_valid.
Qed.

Lemma value_two : float_value 2%float == 2.
Proof. vm_compute. reflexivity. Qed.

Lemma regular_two : regular 2%float.
Proof. vm_compute. reflexivity. Qed.

Lemma value_zero : float_value 0%float == 0.
Proof. vm_compute. reflexivity. Qed.

Lemma regular_zero : regular 0%float.
Proof. vm_compute. exact I. Qed.

(** ** Accumulated rounding *)

Lemma eps_small : 0 < eps64 /\ eps64 < 1.
Proof. split; vm_compute; reflexivity. Qed.

Lemma lo_pos (k : nat) : 0 < lo_pow k /\ lo_pow k <= 1.
Proof.
  destruct eps_small. induction k as [|k [P L]]; cbn [lo_pow]; [lra|]. nra.
Qed.

Lemma lo_add (j k : nat) : lo_pow (j + k) == lo_pow j * lo_pow k.
Proof.
  induction j as [|j IH]; cbn [lo_pow Nat.add]; [ring|]. rewrite IH. ring.
Qed.

Lemma lo_le (j k : nat) : (j <= k)%nat -> lo_pow k <= lo_pow j.
Proof.
  intros L. replace k with (j + (k - j))%nat by lia. rewrite lo_add.
  pose proof (lo_pos j). pose proof (lo_pos (k - j)). nra.
Qed.

(** Bernoulli's inequality. *)
Lemma lo_bernoulli (k : nat) : 1 - inject_Z (Z.of_nat k) * eps64 <= lo_pow k.
Proof.
  destruct eps_small. induction k as [|k IH]; cbn [lo_pow].
  - change (inject_Z (Z.of_nat 0)) with 0. lra.
  - rewrite Nat2Z.inj_succ. unfold Z.succ. rewrite inject_Z_plus.
    assert (0 <= inject_Z (Z.of_nat k)).
    { change 0 with (inject_Z 0). rewrite <- Zle_Qle. lia. }
    change (inject_Z 1) with 1. nra.
Qed.

#[export] Instance approx_proper (k : nat) :
  Proper (Qeq ==> Qeq ==> Qeq ==> iff) (approximates k).
Proof.
  intros a a' A v v' V x x' X. unfold approximates.
  rewrite A, V, X. reflexivity.
Qed.

Lemma approx_exact (x : Q) : 0 <= x -> approximates 0 0 x x.
Proof. intros X. unfold approximates. cbn [lo_pow]. repeat split; lra. Qed.

Lemma approx_weaken (j k : nat) (a b v x : Q) :
  approximates j a v x -> (j <= k)%nat -> a <= b -> approximates k b v x.
Proof.
  intros (X & A & V & L & U) JK AB.
  pose proof (lo_le j k JK). pose proof (lo_pos k). pose proof (lo_pos j).
  repeat split; try lra; nra.
Qed.

(** One rounding. *)
Lemma approx_round (k : nat) (a e v w x : Q) :
  approximates k a v x -> 0 <= e ->
  v - (eps64 * v + e) <= w -> w <= v + (eps64 * v + e) -> 0 <= w ->
  approximates (S k) (a + e) w x.
Proof.
  intros (X & A & V & L & U) E Lw Uw W.
  destruct eps_small. pose proof (lo_pos k) as [P1 P2].
  unfold approximates. cbn [lo_pow]. repeat split; try lra.
  - nra.
  - assert (w * (1 - eps64) <= v + e) by nra.
    assert (w * (1 - eps64) * lo_pow k <= (v + e) * lo_pow k) by nra.
    nra.
Qed.

Lemma approx_add (j k : nat) (a b v w x y : Q) :
  approximates j a v x -> approximates k b w y ->
  approximates (Nat.max j k) (a + b) (v + w) (x + y).
Proof.
  intros H1 H2.
  apply (approx_weaken _ (Nat.max j k) _ a) in H1; [|lia|lra].
  apply (approx_weaken _ (Nat.max j k) _ b) in H2; [|lia|lra].
  destruct H1 as (X & A & V & L & U), H2 as (Y & B & W & L' & U').
  unfold approximates. repeat split; try lra; nra.
Qed.

Lemma approx_mul (j k : nat) (b v w x y : Q) :
  approximates j 0 v x -> approximates k b w y ->
  approximates (j + k) (b * x) (v * w) (x * y).
Proof.
  intros (X & _ & V & L & U) (Y & B & W & L' & U').
  pose proof (lo_pos j) as [P1 P2]. pose proof (lo_pos k) as [P3 P4].
  unfold approximates. rewrite lo_add. repeat split; try nra.
  - assert (A1 : 0 <= x * lo_pow j) by nra.
    assert (A2 : x * lo_pow j <= v) by lra.
    assert (x * lo_pow j * (y * lo_pow k - b) <= v * w).
    { destruct (Qlt_le_dec (y * lo_pow k - b) 0) as [G|G].
      - assert (x * lo_pow j * (y * lo_pow k - b) <= 0) by nra.
        assert (0 <= v * w) by nra. lra.
      - apply Qmult_le_compat_nonneg; split; lra. }
    assert (0 <= b * x) by (apply Qmult_le_0_compat; lra).
    assert (0 <= (b * x) * (1 - lo_pow j)) by (apply Qmult_le_0_compat; lra).
    lra.
  - assert (A1 : 0 <= v * lo_pow j) by nra.
    assert (A2 : 0 <= w * lo_pow k) by nra.
    assert ((v * lo_pow j) * (w * lo_pow k) <= x * (y + b)).
    { apply Qmult_le_compat_nonneg; split; lra. }
    assert (0 <= b * x) by (apply Qmult_le_0_compat; lra).
    lra.
Qed.

Lemma approx_half (k : nat) (a v x : Q) :
  approximates k a v x -> approximates k (a / 2) (v / 2) (x / 2).
Proof.
  intros (X & A & V & L & U). unfold approximates.
  assert (E : forall z : Q, z / 2 == z * (1 # 2)) by (intros; field).
  rewrite !E. repeat split; lra.
Qed.

Lemma Qsum_app (l l' : list Q) : Qsum (l ++ l') == Qsum l + Qsum l'.
Proof.
  induction l as [|v l IH]; cbn [Qsum app]; [ring|].
  rewrite IH. ring.
Qed.

Lemma Qsum_perm (l l' : list Q) : Permutation l l' -> Qsum l == Qsum l'.
Proof.
  induction 1 as [|v l l' P IH|v w l|l l' l'' P IH P' IH'];
    cbn [Qsum].
  - reflexivity.
  - rewrite IH. reflexivity.
  - ring.
  - now rewrite IH.
Qed.

Lemma Qsum_nonneg (l : list Q) : Forall (fun v => 0 <= v) l -> 0 <= Qsum l.
Proof.
  induction 1 as [|v l V L IH]; cbn [Qsum]; lra.
Qed.

(** The float64 sum of regular numbers, by any order of the additions. *)
Lemma float_sums (k : nat) (l : list float) (s : float) :
  sums k l s -> Forall regular l ->
  Qsum (map float_value l) <= 2 ^ 1022 * lo_pow k ->
  regular s /\ approximates k 0 (float_value s) (Qsum (map float_value l)).
Proof.
  induction 1 as [|v|j k l1 l2 s1 s2 S1 IH1 S2 IH2|k l l' s P HS IH
                 |j k l s JK HS IH];
    intros R U.
  - split; [apply regular_zero|].
    change (zero (Arith := float64)) with 0%float.
    cbn [map Qsum]. rewrite value_zero. apply approx_exact. lra.
  - apply Forall_inv in R. split; [exact R|].
    cbn [map Qsum]. rewrite Qplus_0_r.
    apply approx_exact, regular_value, R.
  - apply Forall_app in R as [R1 R2].
    rewrite map_app, Qsum_app in *.
    assert (N1 : 0 <= Qsum (map float_value l1)).
    { apply Qsum_nonneg. rewrite Forall_map.
      eapply Forall_impl; [|exact R1]. apply regular_value. }
    assert (N2 : 0 <= Qsum (map float_value l2)).
    { apply Qsum_nonneg. rewrite Forall_map.
      eapply Forall_impl; [|exact R2]. apply regular_value. }
    pose proof (lo_pos j) as [Pj Lj]. pose proof (lo_pos k) as [Pk Lk].
    pose proof (lo_pos (j + k)) as [Pjk Ljk].
    pose proof (lo_le j (j + k) ltac:(lia)) as Mj.
    pose proof (lo_le k (j + k) ltac:(lia)) as Mk.
    destruct eps_small as [E0 E1].
    assert (P1022 : 0 < 2 ^ 1022) by apply pow2_gt0.
    cbn [lo_pow] in U.
    assert (U0 : Qsum (map float_value l1) + Qsum (map float_value l2)
                 <= 2 ^ 1022 * lo_pow (j + k)) by nra.
    destruct IH1 as [Rs1 A1]; [exact R1|nra|].
    destruct IH2 as [Rs2 A2]; [exact R2|nra|].
    pose proof (approx_add _ _ _ _ _ _ _ _ A1 A2) as A.
    apply (approx_weaken _ (j + k) _ 0) in A; [|lia|lra].
    assert (V : float_value s1 + float_value s2 < 2 ^ 1023).
    { destruct A as (_ & _ & V0 & _ & Up).
      assert (T : 2 ^ 1023 == 2 * 2 ^ 1022)
        by (change 1023%Z with (1 + 1022)%Z; rewrite pow2_add; reflexivity).
      rewrite T.
      assert ((float_value s1 + float_value s2) * lo_pow (j + k)
              <= 2 ^ 1022 * (1 - eps64) * lo_pow (j + k)) by lra.
      assert (float_value s1 + float_value s2 <= 2 ^ 1022 * (1 - eps64)).
      { apply (Qmult_le_r _ _ (lo_pow (j + k))); [exact Pjk|]. lra. }
      nra. }
    change (add (Arith := float64) s1 s2) with (s1 + s2)%float.
    destruct (add_value s1 s2 Rs1 Rs2 V) as (Rs & Lo & Hi).
    split; [exact Rs|].
    pose proof (regular_value _ Rs) as Vs.
    pose proof (approx_round (j + k) 0 0 _ (float_value (s1 + s2)%float) _ A
                  ltac:(lra) ltac:(lra) ltac:(lra) Vs) as AR.
    rewrite Qplus_0_r in AR. exact AR.
  - assert (R' : Forall regular l).
    { eapply Permutation_Forall; [|exact R]. now apply Permutation_sym. }
    assert (E : Qsum (map float_value l') == Qsum (map float_value l)).
    { apply Qsum_perm, Permutation_map, Permutation_sym, P. }
    rewrite E in *. now apply IH.
  - pose proof (lo_le j k JK) as M.
    assert (P1022 : 0 < 2 ^ 1022) by apply pow2_gt0.
    destruct IH as [Rs A]; [exact R|nra|].
    split; [exact Rs|]. eapply approx_weaken; [exact A|exact JK|lra].
Qed.

Lemma half_value (q : Q) : q / 2 * float_value 2%float == q.
Proof. rewrite value_two. field. Qed.

(** One cell of the trapezoidal rule in float64. *)
Lemma cell_approx (y0 y1 x0 x1 : float) (k : nat) (a Y0 Y1 : Q) :
  regular y0 -> regular y1 -> finite_float x0 -> finite_float x1 ->
  approximates k a (float_value y0) Y0 -> approximates k a (float_value y1) Y1 ->
  float_value y0 <= 2 ^ 401 -> float_value y1 <= 2 ^ 401 ->
  0 < float_value x1 - float_value x0 -> float_value x1 - float_value x0 <= 2 ^ 200 ->
  let t := (((x1 - x0) * (y1 + y0)) / 2)%float in
  regular t /\ float_value t <= 2 ^ 605 /\
  approximates (k + 4) (a * (float_value x1 - float_value x0) + 2 * eta64) (float_value t)
         ((float_value x1 - float_value x0) * (Y1 + Y0) / 2).
Proof.
  intros R0 R1 F0 F1 A0 A1 B0 B1 D0 D1 t. subst t.
  set (d := float_value x1 - float_value x0) in *.
  pose proof (regular_value _ R0) as V0. pose proof (regular_value _ R1) as V1.
  destruct eps_small as [E0 E1].
  assert (Et0 : 0 < eta64) by (vm_compute; reflexivity).
  assert (Et1 : eta64 < 1) by (vm_compute; reflexivity).
  (* the spacing *)
  destruct (sub_value x1 x0 F1 F0 D0) as (Rd & Ld & Ud); [fold d; lra|].
  fold d in Ld, Ud. set (dx := (x1 - x0)%float) in *.
  pose proof (regular_value _ Rd) as Vd.
  assert (Ad : approximates 1 0 (float_value dx) d).
  { pose proof (approx_round 0 0 0 d (float_value dx) d (approx_exact d ltac:(lra))
                  ltac:(lra) ltac:(lra) ltac:(lra) Vd) as G.
    now rewrite Qplus_0_r in G. }
  (* the pair sum *)
  destruct (add_value y1 y0 R1 R0) as (Rs & Ls & Us); [lra|].
  set (s := (y1 + y0)%float) in *.
  pose proof (regular_value _ Rs) as Vs.
  assert (As : approximates (S k) (a + a) (float_value s) (Y1 + Y0)).
  { pose proof (approx_add _ _ _ _ _ _ _ _ A1 A0) as G.
    rewrite Nat.max_id in G.
    pose proof (approx_round k (a + a) 0 _ (float_value s) _ G
                  ltac:(lra) ltac:(lra) ltac:(lra) Vs) as G'.
    now rewrite Qplus_0_r in G'. }
  (* the product *)
  assert (Bd : float_value dx <= 2 ^ 201) by (unfold eps64 in *; lra).
  assert (Bs : float_value s <= 2 ^ 403) by (unfold eps64 in *; lra).
  assert (Bm : float_value dx * float_value s <= 2 ^ 604).
  { setoid_replace (2 ^ 604) with (2 ^ 201 * 2 ^ 403)
      by (rewrite <- pow2_add; reflexivity).
    apply Qmult_le_compat_nonneg; split; trivial. }
  destruct (mul_value dx s Rd Rs) as (Rm & Lm & Um); [lra|].
  set (m := (dx * s)%float) in *.
  pose proof (regular_value _ Rm) as Vm.
  assert (Pm : 0 <= float_value dx * float_value s) by (apply Qmult_le_0_compat; lra).
  assert (Am : approximates (S (1 + S k)) ((a + a) * d + eta64) (float_value m)
                      (d * (Y1 + Y0))).
  { pose proof (approx_mul _ _ _ _ _ _ _ Ad As) as G.
    exact (approx_round _ _ eta64 _ (float_value m) _ G (Qlt_le_weak _ _ Et0) Lm Um Vm). }
  (* the half *)
  destruct (div_value m 2 (float_value m / 2) Rm regular_two) as (Rt & Lt & Ut).
  { rewrite value_two. lra. }
  { apply half_value. }
  { assert (float_value m <= 2 ^ 605) by (unfold eps64, eta64 in *; lra).
    assert (H2 : float_value m / 2 == float_value m * (1 # 2)) by field.
    rewrite H2. lra. }
  set (t := (m / 2)%float) in *.
  pose proof (regular_value _ Rt) as Vt.
  assert (H2 : float_value m / 2 == float_value m * (1 # 2)) by field.
  rewrite H2 in Lt, Ut.
  split; [exact Rt|]. split; [unfold eps64, eta64 in *; lra|].
  pose proof (approx_half _ _ _ _ Am) as G.
  assert (H3 : float_value m / 2 == float_value m * (1 # 2)) by field.
  pose proof (approx_round _ _ eta64 _ (float_value t) _ G (Qlt_le_weak _ _ Et0)) as G'.
  rewrite H3 in G'. specialize (G' Lt Ut Vt).
  destruct Am as (_ & Sl & _).
  assert (Pa : 0 <= a) by (destruct A0 as (_ & ? & _); trivial).
  eapply approx_weaken; [exact G'|lia|].
  assert (H4 : ((a + a) * d + eta64) / 2 == a * d + eta64 * (1 # 2)) by field.
  rewrite H4. lra.
Qed.

Lemma approx_trans (j k : nat) (a v w x : Q) :
  approximates j 0 v w -> approximates k a w x -> approximates (j + k) a v x.
Proof.
  intros (W & _ & V & L & U) (X & A & _ & L' & U').
  pose proof (lo_pos j) as [P1 P2]. pose proof (lo_pos k) as [P3 P4].
  unfold approximates. rewrite lo_add. repeat split; trivial.
  - assert ((x * lo_pow k - a) * lo_pow j <= w * lo_pow j) by nra.
    assert (0 <= a * (1 - lo_pow j)) by (apply Qmult_le_0_compat; lra).
    lra.
  - assert (v * lo_pow j * lo_pow k <= w * lo_pow k) by nra. lra.
Qed.

Lemma approx_Qsum (f g s : nat -> Q) (k : nat) (l : list nat) :
  (forall j, In j l -> approximates k (s j) (f j) (g j)) ->
  approximates k (Qsum (map s l)) (Qsum (map f l)) (Qsum (map g l)).
Proof.
  induction l as [|j l IH]; intros F; cbn [map Qsum].
  - pose proof (lo_pos k). unfold approximates. repeat split; lra.
  - pose proof (approx_add _ _ _ _ _ _ _ _ (F j (or_introl eq_refl))
                  (IH (fun i Hi => F i (or_intror Hi)))) as G.
    now rewrite Nat.max_id in G.
Qed.

Lemma Qsum_le_const (f : nat -> Q) (M : Q) (l : list nat) :
  (forall j, In j l -> f j <= M) ->
  Qsum (map f l) <= inject_Z (Z.of_nat (length l)) * M.
Proof.
  induction l as [|j l IH]; intros F; cbn [map Qsum length].
  - change (inject_Z (Z.of_nat 0)) with 0. lra.
  - rewrite Nat2Z.inj_succ. unfold Z.succ. rewrite inject_Z_plus.
    change (inject_Z 1) with 1.
    pose proof (F j (or_introl eq_refl)).
    pose proof (IH (fun i Hi => F i (or_intror Hi))). lra.
Qed.

Lemma inject_nat_nonneg (n : nat) : 0 <= inject_Z (Z.of_nat n).
Proof. change 0 with (inject_Z 0). rewrite <- Zle_Qle. lia. Qed.

Lemma inject_nat_le (n : nat) (b : Z) :
  (Z.of_nat n <= b)%Z -> inject_Z (Z.of_nat n) <= inject_Z b.
Proof. intros L. now rewrite <- Zle_Qle. Qed.

(** At most [2^22] roundings cost less than [2^-30]. *)
Lemma lo_large (k : nat) :
  (Z.of_nat k <= 2 ^ 22)%Z -> 1 - 2 ^ (-30) <= lo_pow k.
Proof.
  intros K. pose proof (lo_bernoulli k) as B.
  pose proof (inject_nat_le k _ K) as L. pose proof (inject_nat_nonneg k).
  change (inject_Z (2 ^ 22)) with (2 ^ 22) in L.
  unfold eps64 in B.
  assert (inject_Z (Z.of_nat k) * 2 ^ (-52) <= 2 ^ 22 * 2 ^ (-52)) by nra.
  lra.
Qed.

(** The trapezoidal rule in float64 against the exact rule. *)
Lemma trapezoid_approx (y x : list float) (Y : nat -> Q) (k : nat) (a : Q) :
  length y = length x ->
  (Z.of_nat (length x) <= 2 ^ 20)%Z -> (k <= 1)%nat ->
  (forall j, (j < length x)%nat ->
     regular (nth j y 0%float) /\
     approximates k a (float_value (nth j y 0%float)) (Y j) /\
     float_value (nth j y 0%float) <= 2 ^ 401) ->
  (forall j, (j < length x)%nat -> finite_float (nth j x 0%float)) ->
  (forall j, (S j < length x)%nat ->
     0 < float_value (nth (S j) x 0%float) - float_value (nth j x 0%float) <= 2 ^ 200) ->
  0 <= a ->
  exists i,
    np_trapezoid y x = Ok i /\ regular i /\
    approximates (2 * length x + 5)
           (inject_Z (Z.of_nat (length x)) * (a * 2 ^ 200 + 2 * eta64))
           (float_value i)
           (Qsum (map (cell_exact (fun j => float_value (nth j x 0%float)) Y)
                      (seq 0 (length x - 1)))).
Proof.
  intros L N K Hy Hx Hd A0.
  rewrite (np_trapezoid_cells y x L).
  set (T := map (trapezoid_cell y x) (seq 0 (length x - 1))).
  eexists. split; [reflexivity|].
  set (X := fun j => float_value (nth j x 0%float)).
  assert (Et0 : 0 < eta64) by (vm_compute; reflexivity).
  assert (C : forall j, In j (seq 0 (length x - 1)) ->
                regular (trapezoid_cell y x j) /\
                float_value (trapezoid_cell y x j) <= 2 ^ 605 /\
                approximates (k + 4) (a * 2 ^ 200 + 2 * eta64)
                       (float_value (trapezoid_cell y x j)) (cell_exact X Y j)).
  { intros j Hj. apply in_seq in Hj.
    destruct (Hy j ltac:(lia)) as (R0 & A0' & B0).
    destruct (Hy (S j) ltac:(lia)) as (R1 & A1 & B1).
    destruct (Hd j ltac:(lia)) as [D0 D1].
    destruct (cell_approx _ _ _ _ k a (Y j) (Y (S j)) R0 R1
                (Hx j ltac:(lia)) (Hx (S j) ltac:(lia)) A0' A1 B0 B1 D0 D1)
      as (Rt & Bt & At).
    split; [exact Rt|]. split; [exact Bt|].
    eapply approx_weaken; [exact At|lia|].
    assert (a * (float_value (nth (S j) x 0%float) - float_value (nth j x 0%float))
            <= a * 2 ^ 200) by nra.
    lra. }
  assert (RT : Forall regular T).
  { subst T. rewrite Forall_map, Forall_forall. intros j Hj. now apply C. }
  assert (LT : length T = (length x - 1)%nat)
    by (subst T; now rewrite length_map, length_seq).
  assert (VT : map float_value T
               = map (fun j => float_value (trapezoid_cell y x j))
                     (seq 0 (length x - 1)))
    by (subst T; now rewrite map_map).
  assert (ST : Qsum (map float_value T) <= 2 ^ 20 * 2 ^ 605).
  { rewrite VT.
    eapply Qle_trans; [apply Qsum_le_const; intros j Hj; apply C, Hj|].
    rewrite length_seq.
    pose proof (inject_nat_le (length x - 1) (2 ^ 20) ltac:(lia)) as B.
    change (inject_Z (2 ^ 20)) with (2 ^ 20) in B.
    pose proof (inject_nat_nonneg (length x - 1)). nra. }
  pose proof (lo_large (2 * length T - 1) ltac:(lia)) as LoT.
  destruct (float_sums _ _ _ (np_sum_sums T) RT) as [Ri Ai].
  { assert (2 ^ 1022 * (1 - 2 ^ (-30))
            <= 2 ^ 1022 * lo_pow (2 * length T - 1)) by nra.
    lra. }
  split; [exact Ri|].
  pose proof (approx_Qsum (fun j => float_value (trapezoid_cell y x j))
                (cell_exact X Y) (fun _ => a * 2 ^ 200 + 2 * eta64) (k + 4)
                (seq 0 (length x - 1))
                (fun j Hj => proj2 (proj2 (C j Hj)))) as AS.
  rewrite <- VT in AS.
  pose proof (approx_trans _ _ _ _ _ _ Ai AS) as G.
  eapply approx_weaken; [exact G|lia|].
  eapply Qle_trans; [apply Qsum_le_const; intros; apply Qle_refl|].
  rewrite length_seq.
  pose proof (inject_nat_le (length x - 1) (Z.of_nat (length x)) ltac:(lia)).
  pose proof (inject_nat_nonneg (length x - 1)).
  assert (0 <= a * 2 ^ 200 + 2 * eta64) by nra.
  nra.
Qed.

Lemma Qsum_ext (f g : nat -> Q) (l : list nat) :
  (forall j, In j l -> f j == g j) -> Qsum (map f l) == Qsum (map g l).
Proof.
  induction l as [|j l IH]; intros F; cbn [map Qsum]; [reflexivity|].
  rewrite (F j (or_introl eq_refl)), IH; [reflexivity|].
  intros i Hi. apply F. now right.
Qed.

Lemma Qsum_scale (f : nat -> Q) (c : Q) (l : list nat) :
  Qsum (map (fun j => f j * c) l) == Qsum (map f l) * c.
Proof.
  induction l as [|j l IH]; cbn [map Qsum]; [ring|]. rewrite IH. ring.
Qed.

Lemma nth_idiv (density : list float) (c : float) (j : nat) :
  (j < length density)%nat ->
  nth j (idiv density c) 0%float = (nth j density 0%float / c)%float.
Proof.
  intros J. unfold idiv.
  rewrite (nth_indep _ 0%float (div (Arith := float64) 0%float c))
    by now rewrite length_map.
  rewrite (map_nth (fun v => div (Arith := float64) v c)). reflexivity.
Qed.

(** ** The integral of a normalised density *)

(** C1 (in float64, away from underflow and overflow).  Take a density of
    finite values between 0 and [2^200] on a grid of the same length, of
    at most [2^20] finite points, each above the one before it by at most
    [2^200], and let the trapezoidal integral that float64 computes for it
    be at least [2^-200].  Then [normalize] returns a density, and the
    trapezoidal integral that float64 computes for that density is a
    finite number within [1e-6] of 1. *)
Theorem normalize_integrates_to_one (density grid : list float) (c : float) :
  length density = length grid ->
  (Z.of_nat (length grid) <= 2 ^ 20)%Z ->
  Forall (fun d => regular d /\ float_value d <= 2 ^ 200) density ->
  Forall finite_float grid ->
  (forall j, (S j < length grid)%nat ->
     0 < float_value (nth (S j) grid 0%float) - float_value (nth j grid 0%float)
     <= 2 ^ 200) ->
  np_trapezoid density grid = Ok c -> 2 ^ (-200) <= float_value c ->
  exists p i,
    normalize density grid = Ok p /\ np_trapezoid p grid = Ok i /\
    regular i /\
    1 - (1 # 1000000) <= float_value i <= 1 + (1 # 1000000).
Proof.
  intros L N D G Sp T C.
  set (n := length grid) in *.
  set (X := fun j => float_value (nth j grid 0%float)).
  set (Dv := fun j => float_value (nth j density 0%float)).
  assert (Et0 : 0 < eta64) by (vm_compute; reflexivity).
  assert (Dj : forall j, (j < n)%nat ->
                 regular (nth j density 0%float) /\
                 float_value (nth j density 0%float) <= 2 ^ 200).
  { intros j Hj. rewrite Forall_forall in D. apply D, nth_In. lia. }
  assert (Gj : forall j, (j < n)%nat -> finite_float (nth j grid 0%float)).
  { intros j Hj. rewrite Forall_forall in G. apply G, nth_In. exact Hj. }
  (* the integral of the density *)
  destruct (trapezoid_approx density grid Dv 0 0 L N ltac:(lia))
    as (c' & T' & Rc & Ac); trivial; try lra.
  { intros j Hj. destruct (Dj j Hj) as [R B].
    split; [exact R|]. split; [|lra].
    apply approx_exact, regular_value, R. }
  rewrite T in T'. injection T' as <-. fold n X in Ac.
  set (S1 := Qsum (map (cell_exact X Dv) (seq 0 (n - 1)))) in *.
  (* the normalised density *)
  unfold normalize. rewrite T. cbn [bind].
  set (p := idiv density c).
  assert (C0 : 0 < float_value c) by lra.
  set (Qv := fun j => Dv j / float_value c).
  assert (Pj : forall j, (j < n)%nat ->
                 regular (nth j p 0%float) /\
                 approximates 1 eta64 (float_value (nth j p 0%float)) (Qv j) /\
                 float_value (nth j p 0%float) <= 2 ^ 401).
  { intros j Hj. subst p. rewrite nth_idiv by lia.
    destruct (Dj j Hj) as [R B]. pose proof (regular_value _ R) as V.
    assert (E : Qv j * float_value c == float_value (nth j density 0%float)).
    { subst Qv Dv. cbv beta. field. lra. }
    assert (Q0 : 0 <= Qv j).
    { destruct (Qlt_le_dec (Qv j) 0) as [Neg|Pos]; [|exact Pos].
      assert (Qv j * float_value c < 0) by nra. lra. }
    assert (Q1 : Qv j <= 2 ^ 400).
    { assert (Qv j * 2 ^ (-200) <= Qv j * float_value c) by nra. lra. }
    destruct (div_value _ c (Qv j) R Rc C0 E) as (Rp & Lp & Up); [lra|].
    pose proof (regular_value _ Rp) as Vp.
    split; [exact Rp|]. split.
    - pose proof (approx_round 0 0 eta64 _ _ _ (approx_exact (Qv j) Q0)
                    (Qlt_le_weak _ _ Et0) Lp Up Vp) as A.
      now rewrite Qplus_0_l in A.
    - unfold eps64, eta64 in *. lra. }
  assert (Lp : length p = n)
    by (subst p; unfold idiv; rewrite length_map; exact L).
  destruct (trapezoid_approx p grid Qv 1 eta64 Lp N ltac:(lia))
    as (i & Ti & Ri & Ai); trivial; try lra.
  fold n X in Ai.
  set (S2 := Qsum (map (cell_exact X Qv) (seq 0 (n - 1)))) in *.
  exists p, i. split; [reflexivity|]. split; [exact Ti|]. split; [exact Ri|].
  (* the two integrals *)
  assert (E : S2 * float_value c == S1).
  { subst S1 S2. rewrite <- Qsum_scale. apply Qsum_ext. intros j _.
    unfold cell_exact, Qv. field. lra. }
  pose proof (lo_large (2 * n + 5) ltac:(lia)) as Lo.
  pose proof (lo_pos (2 * n + 5)) as [_ Lo1].
  set (l := lo_pow (2 * n + 5)) in *.
  pose proof (inject_nat_le n _ N) as Nn. pose proof (inject_nat_nonneg n) as N0.
  change (inject_Z (2 ^ 20)) with (2 ^ 20) in Nn.
  destruct Ac as (S1n & _ & _ & Lc & Uc), Ai as (S2n & _ & Vi & Li & Ui).
  fold l in Lc, Uc, Li, Ui.
  set (A1 := inject_Z (Z.of_nat n) * (0 * 2 ^ 200 + 2 * eta64)) in *.
  set (A2 := inject_Z (Z.of_nat n) * (eta64 * 2 ^ 200 + 2 * eta64)) in *.
  assert (B1 : 0 <= A1)
    by (subst A1; apply Qmult_le_0_compat; unfold eta64 in *; lra).
  assert (B1' : A1 <= 2 ^ 20 * (2 * eta64)).
  { subst A1. setoid_replace (0 * 2 ^ 200 + 2 * eta64) with (2 * eta64) by ring.
    apply Qmult_le_compat_r; unfold eta64 in *; lra. }
  assert (B2 : 0 <= A2)
    by (subst A2; apply Qmult_le_0_compat; unfold eta64 in *; lra).
  assert (B2' : A2 <= 2 ^ 20 * (eta64 * 2 ^ 200 + 2 * eta64))
    by (subst A2; apply Qmult_le_compat_r; unfold eta64 in *; lra).
  set (t := A1 * 2 ^ 200).
  assert (Tt : A1 <= t * float_value c).
  { subst t. assert (0 <= A1 * (2 ^ 200 * float_value c - 1))
      by (apply Qmult_le_0_compat; lra). lra. }
  assert (T0 : 0 <= t) by (subst t; lra).
  assert (T1 : t <= 2 ^ 20 * (2 * eta64) * 2 ^ 200) by (subst t; lra).
  clearbody l t A1 A2 S1 S2.
  (* S2 is close to 1 *)
  assert (Lo2 : l - t <= S2).
  { apply (Qmult_le_r _ _ (float_value c) C0). rewrite E. lra. }
  assert (Up2 : S2 * l <= 1 + t).
  { apply (Qmult_le_r _ _ (float_value c) C0).
    assert (H : S2 * l * float_value c == S1 * l) by (rewrite <- E; ring).
    rewrite H. lra. }
  assert (LL : (1 - 2 ^ (-30)) * (1 - 2 ^ (-30)) <= l * l)
    by (apply Qmult_le_compat_nonneg; split; lra).
  assert (Tl : 0 <= t * (1 - l)) by (apply Qmult_le_0_compat; lra).
  assert (Al : 0 <= A2 * (1 - l)) by (apply Qmult_le_0_compat; lra).
  unfold eta64 in *. split.
  - assert ((l - t) * l <= S2 * l) by (apply Qmult_le_compat_r; lra).
    lra.
  - assert (float_value i * l * l <= (S2 + A2) * l)
      by (apply Qmult_le_compat_r; lra).
    assert (0 <= float_value i * (l * l - (1 - 2 ^ (-30)) * (1 - 2 ^ (-30))))
      by (apply Qmult_le_0_compat; lra).
    lra.
Qed.

End Float64Rounding.

(** * What float64 does *)

(** The runs below are on arrays of two to five points, where [np.sum]
    adds the numbers one after the other; the last one shows the order in
    which it adds longer arrays. *)

Section Float64Runs.

Local Open Scope float_scope.

Ltac run := repeat split; vm_compute; reflexivity.

(** C9 at a concrete density: the scaled cumulative sum [0.25, 0.5] never
    reaches 0.975, and the lookup raises. *)
Lemma quantile_never_reached_witness :
  upper_975 [0.25; 0.25] [0; 1] = Raise IndexError /\
  (forall lowerTail,
      credibleInterval [0.25; 0.25] [0; 1] lowerTail (lit 975 1000)
      = Raise IndexError).
Proof.
  apply (quantile_never_reached [0.25; 0.25] [0; 1] (lit 975 1000));
    [reflexivity|repeat constructor].
Defined.

(** The median of the same density is found: 0.5 is reached at the last
    point. *)
Example median_reached_float64 : median [0.25; 0.25] [0; 1] = Ok 1.
Proof. run. Qed.

(** C1 fails in float64.  The density [3u, 0] on the grid [0, 1], with [u]
    the smallest positive float64, is non-negative; its integral [3u / 2]
    rounds to [2u], positive and finite, and far below [2^-200].  The
    normalised density is [1.5, 0], and its integral is 0.75. *)
Lemma normalize_loses_unit_integral_float64 :
  np_trapezoid [0x3p-1074; 0] [0; 1] = Ok 0x1p-1073 /\
  normalize [0x3p-1074; 0] [0; 1] = Ok [1.5; 0] /\
  np_trapezoid [1.5; 0] [0; 1] = Ok 0.75 /\
  within_tolerance 0.75 = false /\
  (float_value 0.75 < 1 - (1 # 1000000))%Q /\
  (0 < float_value 0x1p-1073 < 2 ^ (-200))%Q.
Proof. run. Qed.

(** C1 at a density whose normalised integral is not 1: the density
    [0, 1, 4] on the grid [0, 1, 2] has the integral 3, and the integral of
    the normalised density rounds to the float64 just below 1. *)
Lemma normalize_integrates_to_one_witness :
  exists p i,
    normalize [0; 1; 4] [0; 1; 2] = Ok p /\ np_trapezoid p [0; 1; 2] = Ok i /\
    regular i /\
    (1 - (1 # 1000000) <= float_value i <= 1 + (1 # 1000000))%Q.
Proof.
  apply (normalize_integrates_to_one [0; 1; 4] [0; 1; 2] 3).
  - reflexivity.
  - vm_compute. intros E. discriminate E.
  - repeat constructor; try exact I; try reflexivity;
      vm_compute; intros E; discriminate E.
  - repeat constructor.
  - intros [|[|j]] Hj; simpl in Hj; try lia; split;
      try reflexivity; vm_compute; intros E; discriminate E.
  - reflexivity.
  - vm_compute. intros E. discriminate E.
Defined.

(** C8 fails in float64.  The density [0, 1, 4] on the grid [0, 1, 2]
    normalises to [0, 1/3, 4/3] (rounded), whose integral rounds to the
    float64 just below 1; normalising again moves both values up by one
    unit in the last place. *)
Lemma normalize_not_idempotent_float64 :
  normalize [0; 1; 4] [0; 1; 2] = Ok [0; lit 1 3; lit 4 3] /\
  np_trapezoid [0; lit 1 3; lit 4 3] [0; 1; 2] = Ok (next_down 1) /\
  normalize [0; lit 1 3; lit 4 3] [0; 1; 2]
  = Ok [0; next_up (lit 1 3); next_up (lit 4 3)] /\
  PrimFloat.eqb (lit 1 3) (next_up (lit 1 3)) = false.
Proof. run. Qed.

(** C3 fails on the code.  Two densities with disjoint supports have the
    product [0, 0], whose integral is zero: [update] divides zero by zero
    and returns NaN at every grid point, which is not a non-negative value
    and does not integrate to 1.  And where the product is not degenerate,
    the integral of the result can round to the float64 just below 1. *)
Lemma update_not_a_density_float64 :
  update [1; 0] [0; 1] [0; 1] = Ok [nan; nan] /\
  PrimFloat.leb 0 nan = false /\
  np_trapezoid [nan; nan] [0; 1] = Ok nan /\
  update [1; 1; 1] [0; 1; 4] [0; 1; 2] = Ok [0; lit 1 3; lit 4 3] /\
  np_trapezoid [0; lit 1 3; lit 4 3] [0; 1; 2] = Ok (next_down 1).
Proof. run. Qed.

(** C4 fails in float64.  With the prior [1, 1] and the likelihoods
    [1, 1] and [3u, 0] on the grid [0, 1], every product has a non-zero
    integral; one order ends on [1.5, 0], which integrates to 0.75, the
    other on [2, 0]. *)
Lemma final_posterior_order_float64 :
  evidence [1; 1] [1; 1] [0; 1] = Ok 1 /\
  evidence [1; 1] [0x3p-1074; 0] [0; 1] = Ok 0x1p-1073 /\
  posteriors [1; 1] [[1; 1]; [0x3p-1074; 0]] [0; 1] = Ok [[1; 1]; [1.5; 0]] /\
  posteriors [1; 1] [[0x3p-1074; 0]; [1; 1]] [0; 1] = Ok [[1.5; 0]; [2; 0]] /\
  np_trapezoid [1.5; 0] [0; 1] = Ok 0.75 /\
  np_trapezoid [2; 0] [0; 1] = Ok 1.
Proof. run. Qed.

(** C2 fails on the code.  The notebook multiplies the prior as given: for
    the prior [1, 2] and the likelihood [3, 1] its first posterior, the
    cell's [posterior_1], is [1.2, 0.8]; from the normalised prior, as the
    specification's [run] has it, the first value is one unit in the last
    place higher. *)
Lemma chain_differs_from_run_float64 :
  posterior_1 [1; 2] [3; 1] [0; 1] = Ok [lit 6 5; lit 4 5] /\
  posteriors [1; 2] [[3; 1]] [0; 1] = Ok [[lit 6 5; lit 4 5]] /\
  (p0 <- normalize [1; 2] [0; 1] ;; p <- update p0 [3; 1] [0; 1] ;; Ok [p])
  = Ok [[next_up (lit 6 5); lit 4 5]] /\
  run_spec [1; 2] [[3; 1]] [0; 1] = Ok [[next_up (lit 6 5); lit 4 5]] /\
  PrimFloat.eqb (lit 6 5) (next_up (lit 6 5)) = false.
Proof. run. Qed.

(** C5 fails on the code.  A density with integral zero is returned, as
    NaN at every point; a density with a negative integral is returned
    with its sign flipped.  Nothing is raised. *)
Lemma normalize_returns_on_degenerate_float64 :
  np_trapezoid [0; 0] [0; 1] = Ok 0 /\
  normalize [0; 0] [0; 1] = Ok [nan; nan] /\
  np_trapezoid [-1; -1] [0; 1] = Ok (-1) /\
  normalize [-1; -1] [0; 1] = Ok [1; 1] /\
  np_trapezoid [infinity; 1] [0; 1] = Ok infinity /\
  normalize [infinity; 1] [0; 1] = Ok [nan; 0].
Proof. run. Qed.

(** C6 fails on the code.  For the uniform density on [0, 1] the
    thresholds -1 and 2 are outside the grid; the values are 1 and 0 and
    no warning is issued. *)
Lemma tail_probability_no_warning_float64 :
  np_trapezoid [1; 1] [0; 1] = Ok 1 /\
  tailProbability [1; 1] [0; 1] (-1) = Ok (1, []) /\
  tailProbability [1; 1] [0; 1] 2 = Ok (0, []).
Proof. run. Qed.


(** The whole notebook on a three-point grid: a prior concentrated on the
    middle point stays there through the four updates, and the summary
    statistics all read that point. *)
Example notebook_run_float64 :
  final_posterior [0; 1; 0] [1; 2; 1] [3; 4; 5] [1; 1; 1] [2; 2; 2] [0; 1; 2]
  = Ok [0; 1; 0] /\
  mean [0; 1; 0] [0; 1; 2] = Ok 1 /\
  median [0; 1; 0] [0; 1; 2] = Ok 1 /\
  lower_25 [0; 1; 0] [0; 1; 2] = Ok 1 /\
  upper_975 [0; 1; 0] [0; 1; 2] = Ok 1 /\
  probability_ecs_gt_4_5 [0; 1; 0] [0; 1; 2] = Ok 0.
Proof. run. Qed.


Example probability_gt_float64 :
  probability_gt [1; 1; 1] [0; 0.5; 1] 0.25 = Ok 0.5 /\
  probability_gt [1; 1; 1] [0; 0.5; 1] 0.5 = Ok 0.5 /\
  np_trapezoid [1; 1; 1] [0; 0.5; 1] = Ok 1.
Proof. run. Qed.

(** The notebook's grid and its uniform prior in float64: a thousand points
    from 0 to 10, both ends exact; on five points the prior is 0.1
    everywhere and integrates to 1. *)
Example ecs_values_float64 :
  length (ecs_values (num := float)) = 1000%nat /\
  getitem (ecs_values (num := float)) 0 = Ok 0 /\
  getitem_last (ecs_values (num := float)) = Ok 10 /\
  np_linspace 0 10 5 = [0; 2.5; 5; 7.5; 10] /\
  uniform_prior_pdf (np_linspace 0 10 5) = Ok (repeat (lit 1 10) 5) /\
  np_trapezoid (repeat (lit 1 10) 5) (np_linspace 0 10 5) = Ok 1.
Proof. run. Qed.

(** [np.sum] on eight numbers and more: ten times 0.1 add up to 1, where
    adding them one after the other gives the float64 just below 1; and
    the seven ones are not lost beside [1e16], as they are one by one. *)
Example np_sum_pairwise_float64 :
  np_sum (repeat (lit 1 10) 10) = 1 /\
  fold_left PrimFloat.add (repeat (lit 1 10) 10) 0 = next_down 1 /\
  np_sum [1e16; 1; 1; 1; 1; 1; 1; 1] = 10000000000000006 /\
  fold_left PrimFloat.add [1e16; 1; 1; 1; 1; 1; 1; 1] 0 = 1e16 /\
  np_sum [1e16; 1; 1; 1; 1; 1; 1] = 1e16.
Proof. run. Qed.

End Float64Runs.
